(** * GoHexIO: Intel Hex and Motorola S-Record codecs

    A shallow embedding of the record codecs of the repository (packages
    [ihex] and [srec]): the checksum functions, the line decoders, the file
    readers, the coalescers and the streaming writers, followed by the
    properties of the specification settled against them.

    Conventions of the embedding.
    - A Go [byte] is a [byte]; a Go [string] is a [string] (a sequence of
      8-bit characters); [uint16], [uint32] and [int] are [Z], with the
      wrap-around of the unsigned types written out.
    - A Go [error] is a value of the type [error] below: [errors.New] keeps
      its message, [fmt.Errorf] keeps the message prefix and the wrapped
      error.
    - A function that can panic returns a [go A]: either [Return a] or
      [Panicked].
    - [bytes.Buffer] as used by the coalescers is modelled with its backing
      arrays, because the slices returned by [Bytes] alias them. *)

From Stdlib Require Import ZArith List String Ascii Bool Lia DecimalString.
From Stdlib.Strings Require Import Byte.
Import ListNotations.
Local Open Scope string_scope.
Local Open Scope list_scope.
Local Open Scope Z_scope.

(* ================================================================= *)
(** ** The parts of the Go runtime and standard library the code uses *)

Module Go.

(** Errors. *)
Inductive error : Type :=
| ErrNew (msg : string)                    (* errors.New(msg) *)
| ErrWrap (prefix : string) (e : error)    (* fmt.Errorf("<prefix>: %s", e) *)
| ErrHexInvalidByte (c : ascii)            (* hex.InvalidByteError *)
| ErrHexLength                             (* hex.ErrLength *)
| ErrSyntax (s : string)                   (* strconv: invalid syntax *)
| ErrRange (s : string)                    (* strconv: value out of range *)
| ErrEOF                                   (* io.EOF *)
| ErrUnexpectedEOF                         (* io.ErrUnexpectedEOF *)
| ErrRuntime                               (* the value of a run-time panic *)
| ErrIO (msg : string).                    (* an error of the underlying sink *)

(** Outcome of a call that may panic. *)
Inductive go (A : Type) : Type :=
| Return (a : A)
| Panicked.
Arguments Return {A} a.
Arguments Panicked {A}.

Definition bind {A B : Type} (m : go A) (k : A -> go B) : go B :=
  match m with
  | Return a => k a
  | Panicked => Panicked
  end.

(** [recover()] in a deferred function: a panic becomes the value [d]. *)
Definition recover {A : Type} (d : A) (m : go A) : A :=
  match m with
  | Return a => a
  | Panicked => d
  end.

(** Conversions between bytes and integers. *)
Definition b2z (b : byte) : Z := Z.of_N (Byte.to_N b).

Definition z2b (z : Z) : byte :=
  match Byte.of_N (Z.to_N (z mod 256)) with
  | Some b => b
  | None => x00
  end.

Definition c2z (c : ascii) : Z := Z.of_N (N_of_ascii c).

Definition len {A : Type} (l : list A) : Z := Z.of_nat (List.length l).

Definition slen (s : string) : Z := Z.of_nat (String.length s).

(** String slicing.  [s[lo:hi]] panics unless [0 <= lo <= hi <= len(s)];
    [None] stands for that panic. *)
Fixpoint take (n : nat) (s : string) : option string :=
  match n, s with
  | O, _ => Some EmptyString
  | S _, EmptyString => None
  | S n', String c s' =>
      match take n' s' with
      | Some t => Some (String c t)
      | None => None
      end
  end.

Fixpoint drop (n : nat) (s : string) : option string :=
  match n, s with
  | O, _ => Some s
  | S _, EmptyString => None
  | S n', String _ s' => drop n' s'
  end.

Definition str_slice (lo hi : Z) (s : string) : go string :=
  if (lo <? 0) || (hi <? lo) then Panicked
  else match take (Z.to_nat hi) s with
       | None => Panicked
       | Some t => match drop (Z.to_nat lo) t with
                   | None => Panicked
                   | Some u => Return u
                   end
       end.

Definition str_slice_from (lo : Z) (s : string) : go string :=
  str_slice lo (slen s) s.

Definition str_slice_to (hi : Z) (s : string) : go string :=
  str_slice 0 hi s.

(** [encoding/hex]. *)
Definition fromHexChar (c : ascii) : option Z :=
  let n := c2z c in
  if (48 <=? n) && (n <=? 57) then Some (n - 48)            (* '0'..'9' *)
  else if (97 <=? n) && (n <=? 102) then Some (n - 97 + 10) (* 'a'..'f' *)
  else if (65 <=? n) && (n <=? 70) then Some (n - 65 + 10)  (* 'A'..'F' *)
  else None.

(** [hex.DecodeString]: pairs of hex digits, most significant first.  An
    invalid character is reported before an odd length. *)
Fixpoint hex_DecodeString (s : string) : error + list byte :=
  match s with
  | EmptyString => inr []
  | String p EmptyString =>
      match fromHexChar p with
      | None => inl (ErrHexInvalidByte p)
      | Some _ => inl ErrHexLength
      end
  | String p (String q rest) =>
      match fromHexChar p with
      | None => inl (ErrHexInvalidByte p)
      | Some a =>
          match fromHexChar q with
          | None => inl (ErrHexInvalidByte q)
          | Some b =>
              match hex_DecodeString rest with
              | inl e => inl e
              | inr bs => inr (z2b (Z.lor (Z.shiftl a 4) b) :: bs)
              end
          end
      end
  end.

Definition hextable : string := "0123456789abcdef".

Definition hexdigit (v : Z) : ascii :=
  match String.get (Z.to_nat v) hextable with
  | Some c => c
  | None => "0"%char
  end.

(** [hex.EncodeToString]: two lower-case digits per byte. *)
Fixpoint hex_EncodeToString (bs : list byte) : string :=
  match bs with
  | [] => EmptyString
  | b :: rest =>
      String (hexdigit (Z.shiftr (b2z b) 4))
        (String (hexdigit (Z.land (b2z b) 15)) (hex_EncodeToString rest))
  end.

(** [strings.ToUpper], on the ASCII letters (the writers apply it to the
    output of [hex.EncodeToString] only). *)
Definition upper (c : ascii) : ascii :=
  let n := c2z c in
  if (97 <=? n) && (n <=? 122) then ascii_of_N (Z.to_N (n - 32)) else c.

Fixpoint strings_ToUpper (s : string) : string :=
  match s with
  | EmptyString => EmptyString
  | String c s' => String (upper c) (strings_ToUpper s')
  end.

(** [strconv.ParseUint(s, 16, bitSize)]: no sign, no prefix, no
    underscores; at least one digit. *)
Fixpoint parse_digits (s0 s : string) (maxVal n : Z) : error + Z :=
  match s with
  | EmptyString => inr n
  | String c s' =>
      match fromHexChar c with
      | None => inl (ErrSyntax s0)
      | Some d =>
          let n1 := n * 16 + d in
          if maxVal <? n1 then inl (ErrRange s0)
          else parse_digits s0 s' maxVal n1
      end
  end.

Definition strconv_ParseUint16 (s : string) (bitSize : Z) : error + Z :=
  match s with
  | EmptyString => inl (ErrSyntax s)
  | _ => parse_digits s s (2 ^ bitSize - 1) 0
  end.

(** [strings.Split(s, "\n")]. *)
Definition newline : ascii := ascii_of_N 10.

Fixpoint split_lines (s : string) : list string :=
  match s with
  | EmptyString => [EmptyString]
  | String c s' =>
      if Ascii.eqb c newline then EmptyString :: split_lines s'
      else match split_lines s' with
           | l :: ls => String c l :: ls
           | [] => [String c EmptyString]
           end
  end.

(** [io.Writer]: the sink a writer emits to.  A write returns the new state
    of the sink and the error, if any. *)
Class IoWriter (W : Type) := io_Write : W -> string -> W * option error.

(** An in-memory sink (such as a [bytes.Buffer] or a file): the text written
    so far; writes never fail. *)
#[export] Instance MemSink : IoWriter string :=
  fun w s => ((w ++ s)%string, None).

(** A sink that accepts a given number of writes and then fails. *)
Record Flaky : Type := mkFlaky { flaky_text : string; flaky_left : nat }.

#[export] Instance FlakySink : IoWriter Flaky :=
  fun w s =>
    match flaky_left w with
    | O => (w, Some (ErrIO "write failed"))
    | S n => (mkFlaky (flaky_text w ++ s)%string n, None)
    end.

(** [io.ReadFull] on a [bytes.Reader] holding [avail]: the [n] bytes read
    and the rest, or the error. *)
Definition io_ReadFull (n : nat) (avail : list byte)
  : error + (list byte * list byte) :=
  if Nat.leb n (List.length avail) then inr (firstn n avail, skipn n avail)
  else match avail with
       | [] => inl ErrEOF
       | _ => inl ErrUnexpectedEOF
       end.

(** [encoding/binary], big endian: the values the writers hand to
    [binary.Write] and the bytes they become. *)
Inductive field : Type :=
| U8 (b : byte)
| U16 (v : Z)
| U32 (v : Z)
| Bytes (p : list byte).

Definition binary_Write (f : field) : list byte :=
  match f with
  | U8 b => [b]
  | U16 v => [z2b (Z.shiftr v 8); z2b v]
  | U32 v => [z2b (Z.shiftr v 24); z2b (Z.shiftr v 16); z2b (Z.shiftr v 8); z2b v]
  | Bytes p => p
  end.

Definition BigEndian_Uint16 (bs : list byte) : Z :=
  Z.lor (b2z (nth 1 bs x00)) (Z.shiftl (b2z (nth 0 bs x00)) 8).

(** *** [bytes.Buffer] with its backing arrays

    The coalescers keep the slice returned by [Bytes()] in the record they
    emit and go on using the buffer.  The documentation of [Bytes] says that
    the slice aliases the buffer content and is valid only until the next
    modification of the buffer; [Reset] keeps the backing array ("retains
    the underlying storage for use by future writes"), and a [Write] that
    fits in the capacity stores into that same array.  So the model keeps
    the arrays: a [heap] of backing arrays, in allocation order, the length
    of an array being its capacity; and a slice is an array index and a
    length (the offset is always 0: nothing is read from these buffers). *)
Definition heap : Type := list (list byte).

Record slice : Type := mkSlice { s_arr : nat; s_len : nat }.

(** [b.buf]: [None] is the nil slice of a zero [Buffer]. *)
Definition Buffer : Type := option slice.

Definition array_of (h : heap) (i : nat) : list byte := nth i h [].

Definition Buffer_cap (h : heap) (b : Buffer) : nat :=
  match b with
  | None => O
  | Some s => List.length (array_of h (s_arr s))
  end.

Definition Buffer_Len (b : Buffer) : nat :=
  match b with
  | None => O
  | Some s => s_len s
  end.

(** [Reset]: [b.buf = b.buf[:0]]. *)
Definition Buffer_Reset (b : Buffer) : Buffer :=
  match b with
  | None => None
  | Some s => Some (mkSlice (s_arr s) 0)
  end.

(** [Bytes]: [b.buf[b.off:]], the same array. *)
Definition Buffer_Bytes (b : Buffer) : option slice := b.

(** The bytes a slice denotes in a heap. *)
Definition resolve (h : heap) (s : option slice) : list byte :=
  match s with
  | None => []
  | Some s => firstn (s_len s) (array_of h (s_arr s))
  end.

Fixpoint heap_set (h : heap) (i : nat) (a : list byte) : heap :=
  match h, i with
  | [], _ => []
  | _ :: t, O => a :: t
  | x :: t, S i' => x :: heap_set t i' a
  end.

(** [copy(arr[at:], p)] *)
Definition overwrite (at_ : nat) (p arr : list byte) : list byte :=
  firstn at_ arr ++ p ++ skipn (at_ + List.length p) arr.

Section BufferWrite.

(** The capacity [Buffer.grow] asks for when a write of [n] bytes does not
    fit in a buffer of capacity [c] holding [l] bytes. *)
Variable growCap : nat -> nat -> nat -> nat.

(** [Write]: in place when [n <= cap - len] ([tryGrowByReslice]), otherwise
    into a new array that receives the [l] bytes held so far. *)
Definition Buffer_Write (h : heap) (b : Buffer) (p : list byte)
  : heap * Buffer :=
  let l := Buffer_Len b in
  let c := Buffer_cap h b in
  let n := List.length p in
  if Nat.leb n (c - l) then
    match b with
    | None => (h, None)
    | Some s =>
        (heap_set h (s_arr s) (overwrite l p (array_of h (s_arr s))),
         Some (mkSlice (s_arr s) (l + n)))
    end
  else
    let c' := Nat.max (growCap c l n) (l + n) in
    let arr := resolve h b ++ p ++ repeat x00 (c' - (l + n)) in
    (h ++ [arr], Some (mkSlice (List.length h) (l + n))).

End BufferWrite.

(** The growth rule of [bytes.Buffer]: a first write of at most 64 bytes
    allocates 64 ([smallBufferSize]); otherwise [growSlice] asks for
    [max(len+n, 2*cap)].  (The allocator may round the request up to a size
    class; 64, 80, 128, 160 and 256 are size classes.) *)
Definition go_growCap (c l n : nat) : nat :=
  if Nat.eqb c 0 && Nat.leb n 64 then 64%nat
  else Nat.max (l + n) (2 * c).

(** The rule of the releases up to Go 1.9: the 64-byte [bootstrap] array for
    a first small write, otherwise [makeSlice(2*cap + n)]. *)
Definition go_growCap_legacy (c l n : nat) : nat :=
  if Nat.eqb c 0 && Nat.leb n 64 then 64%nat
  else (2 * c + n)%nat.

End Go.

Import Go.

(* ================================================================= *)
(** ** Package ihex: Intel Hex *)

Module Ihex.

(** [type RecTyp byte] *)
Definition RecTyp : Type := byte.

Definition Data : RecTyp := x00.
Definition EndOfFile : RecTyp := x01.
Definition ExtSegAddr : RecTyp := x02.
Definition StartSegAddr : RecTyp := x03.
Definition ExtLinAddr : RecTyp := x04.
Definition StartLinAddr : RecTyp := x05.

Record HexRec : Type := mkHexRec {
  Address : Z;            (* uint16 *)
  RecordType : RecTyp;
  Data_ : list byte       (* the field Data *)
}.

(** [calcChecksum]: the two's complement of the sum of the bytes. *)
Definition calcChecksum (buf : list byte) : byte :=
  z2b (- fold_left (fun cs b => cs + b2z b) buf 0).

(** [decodeRecord], as in read.go (both versions) and in the draft of the
    main package. *)
Definition decodeRecord (s : string) : go (error + HexRec) :=
  match s with
  | EmptyString => Return (inl (ErrNew "Empty record detected"))
  | String _ s1 =>                                    (* s = s[1:] *)
      match hex_DecodeString s1 with
      | inl e => Return (inl (ErrWrap "Unable to decode hex record" e))
      | inr b0 =>
          match b0 with
          | [] => Panicked                            (* b[len(b)-1] *)
          | _ :: _ =>
              let checksum := last b0 x00 in
              let b := removelast b0 in
              if negb (Byte.eqb checksum (calcChecksum b)) then
                Return (inl (ErrNew "Bad checksum detected"))
              else
                match io_ReadFull 1 b with
                | inl e => Return (inl (ErrWrap "Bad field #1 in hex record" e))
                | inr (recLen, r1) =>
                match io_ReadFull 2 r1 with
                | inl e => Return (inl (ErrWrap "Bad field #2 in hex record" e))
                | inr (address, r2) =>
                match io_ReadFull 1 r2 with
                | inl e => Return (inl (ErrWrap "Bad field #3 in hex record" e))
                | inr (recordType, r3) =>
                match io_ReadFull (Z.to_nat (b2z (nth 0 recLen x00))) r3 with
                | inl e => Return (inl (ErrWrap "Bad data field in hex record" e))
                | inr (data, _) =>
                    Return (inr (mkHexRec (BigEndian_Uint16 address)
                                          (nth 0 recordType x00) data))
                end end end end
          end
      end
  end.

(** [ReadFile], first version of read.go: the loop returns right after the
    first call of [decodeRecord]; the [append] below the [return] is never
    reached.  [file] is what [ioutil.ReadFile] returned. *)
Fixpoint ReadFile_draft_loop (records : list string) (hrecs : list HexRec)
  : go (list HexRec * option error) :=
  match records with
  | [] => Return (hrecs, None)
  | rec :: rest =>
      if 0 <? slen rec then
        match decodeRecord rec with
        | Panicked => Panicked
        | Return (inl err) => Return (hrecs, Some err)
        | Return (inr _) => Return (hrecs, None)
        end
      else ReadFile_draft_loop rest hrecs
  end.

Definition ReadFile_draft (file : error + string)
  : go (list HexRec * option error) :=
  match file with
  | inl err => Return ([], Some err)
  | inr content => ReadFile_draft_loop (split_lines content) []
  end.

(** [ReadFile], second version of read.go. *)
Fixpoint ReadFile_loop (records : list string) (hrecs : list HexRec)
  : go (list HexRec * option error) :=
  match records with
  | [] => Return (hrecs, None)
  | rec :: rest =>
      if 0 <? slen rec then
        match decodeRecord rec with
        | Panicked => Panicked
        | Return (inl err) => Return ([], Some err)
        | Return (inr hr) => ReadFile_loop rest (hrecs ++ [hr])
        end
      else ReadFile_loop rest hrecs
  end.

Definition ReadFile (file : error + string)
  : go (list HexRec * option error) :=
  match file with
  | inl err => Return ([], Some err)
  | inr content => ReadFile_loop (split_lines content) []
  end.

(** *** CoalesceDataRecs *)

(** What [outList] points to: an input record, or a new record whose
    [Data] is the slice [data.Bytes()] returned when it was emitted. *)
Inductive outrec : Type :=
| Passed (r : HexRec)
| Jumbo (address : Z) (typ : RecTyp) (d : option slice).

(** The variables captured by the two closures. *)
Record cstate : Type := mkC {
  dataRecGroup : bool;
  addressCounter : Z;
  outList : list outrec;
  data : Buffer;
  mem : heap;
  dataBaseAddr : Z
}.

Definition uint16 (z : Z) : Z := z mod 65536.

Section Coalesce.

Variable growCap : nat -> nat -> nat -> nat.

Definition emitJumboDataRec (st : cstate) : cstate :=
  let newRec := Jumbo (dataBaseAddr st) Data (Buffer_Bytes (data st)) in
  mkC (dataRecGroup st) (addressCounter st)
      (outList st ++ [newRec])
      (Buffer_Reset (data st)) (mem st) (dataBaseAddr st).

(** The first branch of [processDataRec]: a new run of data records. *)
Definition startGroup (st : cstate) (r : HexRec) : cstate :=
  let '(m, d) := Buffer_Write growCap (mem st) (Buffer_Reset (data st))
                              (Data_ r) in
  mkC true (uint16 (Address r + uint16 (len (Data_ r))))
      (outList st) d m (Address r).

(** [processDataRec].  Its recursive call is made with [dataRecGroup]
    just set to false, so it runs the first branch and returns. *)
Definition processDataRec (st : cstate) (r : HexRec) : cstate :=
  if negb (dataRecGroup st) then startGroup st r
  else if Address r =? addressCounter st then
    let '(m, d) := Buffer_Write growCap (mem st) (data st) (Data_ r) in
    mkC (dataRecGroup st)
        (uint16 (addressCounter st + uint16 (len (Data_ r))))
        (outList st) d m (dataBaseAddr st)
  else
    let st1 := emitJumboDataRec st in
    let st2 := mkC false (addressCounter st1) (outList st1) (data st1)
                   (mem st1) (dataBaseAddr st1) in
    startGroup st2 r.

(** The body of the [for] loop over the input list. *)
Definition step (st : cstate) (rec : HexRec) : cstate :=
  if Byte.eqb (RecordType rec) Data then processDataRec st rec
  else
    let st1 := if Nat.ltb 0 (Buffer_Len (data st))
               then emitJumboDataRec st else st in
    mkC false (addressCounter st1) (outList st1 ++ [Passed rec])
        (data st1) (mem st1) (dataBaseAddr st1).

Definition initial : cstate := mkC false 0 [] None [] 0.

(** The loop and the last jumbo record. *)
Definition run (lst : list HexRec) : cstate :=
  let st := fold_left step lst initial in
  if Nat.ltb 0 (Buffer_Len (data st)) then emitJumboDataRec st else st.

(** The records the returned pointers lead to, read in the final
    memory. *)
Definition deref (h : heap) (o : outrec) : HexRec :=
  match o with
  | Passed r => r
  | Jumbo a t d => mkHexRec a t (resolve h d)
  end.

Definition CoalesceDataRecs (lst : list HexRec) : list HexRec :=
  let st := run lst in
  map (deref (mem st)) (outList st).

End Coalesce.

(** *** Writer (write.go) *)

Record Writer (W : Type) : Type := mkWriter {
  w : W;                (* underlying writer object *)
  width : Z;            (* standard length for data records *)
  addr : Z;             (* address counter, uint16 *)
  fifo : list byte      (* the unread bytes of the FIFO *)
}.
Arguments mkWriter {W}.
Arguments w {W}.
Arguments width {W}.
Arguments addr {W}.
Arguments fifo {W}.

Section WriterOps.

Context {W : Type} `{IoWriter W}.

Definition NewWriterWidth (w0 : W) (width0 : Z) : Writer W :=
  mkWriter w0 width0 0 [].

Definition NewWriter (w0 : W) : Writer W := NewWriterWidth w0 16.

Definition SetAddress (x : Writer W) (a : Z) : Writer W :=
  mkWriter (w x) (width x) a (fifo x).

(** Generic emit-record. *)
Definition emitRecord (x : Writer W) (data : list field)
  : Writer W * option error :=
  let buf := List.concat (map binary_Write data) in
  let buf := buf ++ [calcChecksum buf] in
  let s := strings_ToUpper (hex_EncodeToString buf) in
  let '(w', err) := io_Write (w x) (":" ++ s ++ String newline "")%string in
  (mkWriter w' (width x) (addr x) (fifo x),
   option_map (ErrWrap "emitRecord: Failure formatting Intel Hex record") err).

Definition emitDataRecord (x : Writer W) (p : list byte)
  : Writer W * option error :=
  let data := [U8 (z2b (len p)); U16 (addr x); U8 Data; Bytes p] in
  match emitRecord x data with
  | (x', Some err) => (x', Some (ErrWrap "emitDataRecord" err))
  | (x', None) =>
      (mkWriter (w x') (width x') (uint16 (addr x' + uint16 (len p)))
                (fifo x'), None)
  end.

(** [x.fifo.Next(n)]: the next [n] bytes (all of them when fewer are
    left); a negative [n] panics on the slice expression. *)
Definition fifo_Next (x : Writer W) (n : Z) : go (list byte * Writer W) :=
  if n <? 0 then Panicked
  else
    let k := Nat.min (Z.to_nat n) (List.length (fifo x)) in
    Return (firstn k (fifo x),
            mkWriter (w x) (width x) (addr x) (skipn k (fifo x))).

(** The [for] loop of [Write]; [None] when [fuel] iterations were not
    enough. *)
Fixpoint Write_loop (fuel : nat) (x : Writer W) (xferLen originalXferLen : Z)
  : option (go (Writer W * (Z * option error))) :=
  if width x <=? len (fifo x) then
    match fuel with
    | O => None
    | S fuel' =>
        match fifo_Next x (width x) with
        | Panicked => Some Panicked
        | Return (p, x1) =>
            match emitDataRecord x1 p with
            | (x2, Some err) => Some (Return (x2, (xferLen, Some err)))
            | (x2, None) =>
                Write_loop fuel' x2 (xferLen + width x) originalXferLen
            end
        end
    end
  else Some (Return (x, (originalXferLen, None))).

Definition Write (fuel : nat) (x : Writer W) (p : list byte)
  : option (go (Writer W * (Z * option error))) :=
  let x1 := mkWriter (w x) (width x) (addr x) (fifo x ++ p) in
  Write_loop fuel x1 0 (len p).

Definition Flush (x : Writer W) : Writer W * option error :=
  if 0 <? len (fifo x) then
    let x1 := mkWriter (w x) (width x) (addr x) [] in
    emitDataRecord x1 (fifo x)              (* x.fifo.Next(x.fifo.Len()) *)
  else (x, None).

(** [Close]: the result of [Flush] is dropped; then the EOF record. *)
Definition Close (x : Writer W) : Writer W * option error :=
  let '(x1, _) := Flush x in
  emitRecord x1 [U8 x00; U16 0; U8 x01].

(** [WriteExSegAddr] writes an Extended Segment Address record. *)
Definition WriteExSegAddr (x : Writer W) (sa : Z) : Writer W * option error :=
  emitRecord x [U8 x02; U16 0; U8 ExtSegAddr; U16 sa].

(** [WriteStartSegAddr] writes a Start Segment Address record. *)
Definition WriteStartSegAddr (x : Writer W) (cs ip : Z)
  : Writer W * option error :=
  emitRecord x [U8 x04; U16 0; U8 StartSegAddr; U16 cs; U16 ip].

(** [WriteExtLinAddr] writes an Extended Linear Address record. *)
Definition WriteExtLinAddr (x : Writer W) (ela : Z) : Writer W * option error :=
  emitRecord x [U8 x02; U16 0; U8 ExtLinAddr; U16 ela].

(** [WriteStartLinAddr] writes a Start Extended Linear Address record. *)
Definition WriteStartLinAddr (x : Writer W) (eip : Z)
  : Writer W * option error :=
  emitRecord x [U8 x04; U16 0; U8 StartLinAddr; U32 eip].

End WriterOps.

End Ihex.

(** *** The earlier draft of the ihex writer (package ihex, file without a
    guard in [Flush]) *)

Module IhexDraft.

Import Ihex.

Section WriterOps.

Context {W : Type} `{IoWriter W}.

Definition emitRecord (x : Writer W) (data : list field)
  : Writer W * option error :=
  let buf := List.concat (map binary_Write data) in
  let buf := buf ++ [calcChecksum buf] in
  let s := strings_ToUpper (hex_EncodeToString buf) in
  let '(w', err) := io_Write (w x) (":" ++ s ++ String newline "")%string in
  (mkWriter w' (width x) (addr x) (fifo x),
   option_map (ErrWrap "Failure formatting Intel Hex record") err).

Definition emitDataRecord (x : Writer W) (p : list byte)
  : Writer W * option error :=
  let data := [U8 (z2b (len p)); U16 (addr x); U8 x00; Bytes p] in
  match emitRecord x data with
  | (x', Some err) => (x', Some (ErrWrap "emitDataRecord" err))
  | (x', None) =>
      (mkWriter (w x') (width x') (uint16 (addr x' + uint16 (len p)))
                (fifo x'), None)
  end.

(** [Flush]: emits whatever the FIFO holds, also when it holds nothing. *)
Definition Flush (x : Writer W) : Writer W * option error :=
  let x1 := mkWriter (w x) (width x) (addr x) [] in
  emitDataRecord x1 (fifo x).               (* x.fifo.Next(x.fifo.Len()) *)

(** [Close]: the EOF record only. *)
Definition Close (x : Writer W) : Writer W * option error :=
  emitRecord x [U8 x00; U16 0; U8 x01].

(** [Write]: the FIFO and the loop are those of write.go. *)
Fixpoint Write_loop (fuel : nat) (x : Writer W) (xferLen originalXferLen : Z)
  : option (go (Writer W * (Z * option error))) :=
  if width x <=? len (fifo x) then
    match fuel with
    | O => None
    | S fuel' =>
        match fifo_Next x (width x) with
        | Panicked => Some Panicked
        | Return (p, x1) =>
            match emitDataRecord x1 p with
            | (x2, Some err) => Some (Return (x2, (xferLen, Some err)))
            | (x2, None) =>
                Write_loop fuel' x2 (xferLen + width x) originalXferLen
            end
        end
    end
  else Some (Return (x, (originalXferLen, None))).

Definition Write (fuel : nat) (x : Writer W) (p : list byte)
  : option (go (Writer W * (Z * option error))) :=
  let x1 := mkWriter (w x) (width x) (addr x) (fifo x ++ p) in
  Write_loop fuel x1 0 (len p).

End WriterOps.

End IhexDraft.

(** *** The first draft (package main): a writer without FIFO and a reader
    that panics

    The draft's [decodeRecord], [calcChecksum] and record types are, line
    for line, those of package ihex, whose definitions are used. *)

Module IhexMain.

Record Writer (W : Type) : Type := mkWriter {
  w : W;
  width : Z;
  addr : Z              (* uint16 *)
}.
Arguments mkWriter {W}.
Arguments w {W}.
Arguments width {W}.
Arguments addr {W}.

Section WriterOps.

Context {W : Type} `{IoWriter W}.

Definition NewWriterWidth (w0 : W) (width0 : Z) : Writer W :=
  mkWriter w0 width0 0.

Definition NewWriter (w0 : W) : Writer W := NewWriterWidth w0 16.

Definition SetAddress (x : Writer W) (a : Z) : Writer W :=
  mkWriter (w x) (width x) a.

Definition emitRecord (x : Writer W) (data : list field)
  : Writer W * option error :=
  let buf := List.concat (map binary_Write data) in
  let buf := buf ++ [Ihex.calcChecksum buf] in
  let s := strings_ToUpper (hex_EncodeToString buf) in
  let '(w', err) := io_Write (w x) (":" ++ s ++ String newline "")%string in
  (mkWriter w' (width x) (addr x),
   option_map (ErrWrap "Failure formatting Intel Hex record") err).

Definition emitDataRecord (x : Writer W) (p : list byte)
  : Writer W * option error :=
  let data := [U8 (z2b (len p)); U16 (addr x); U8 x00; Bytes p] in
  match emitRecord x data with
  | (x', Some err) => (x', Some (ErrWrap "emitDataRecord" err))
  | (x', None) =>
      (mkWriter (w x') (width x') (Ihex.uint16 (addr x' + Ihex.uint16 (len p))),
       None)
  end.

(** The [for] loop of [Write] over the rest [b] of the caller's slice;
    [b[0:x.width]] panics when the width is negative.  [None] when [fuel]
    iterations were not enough. *)
Fixpoint Write_loop (fuel : nat) (x : Writer W) (b : list byte) (count : Z)
  : option (go (Writer W * (Z * option error))) :=
  if 0 <? len b then
    match fuel with
    | O => None
    | S fuel' =>
        if width x <=? len b then
          if width x <? 0 then Some Panicked
          else
            match emitDataRecord x (firstn (Z.to_nat (width x)) b) with
            | (x', Some err) => Some (Return (x', (count, Some err)))
            | (x', None) =>
                Write_loop fuel' x' (skipn (Z.to_nat (width x)) b)
                           (count + width x)
            end
        else
          match emitDataRecord x b with
          | (x', Some err) => Some (Return (x', (count, Some err)))
          | (x', None) => Write_loop fuel' x' [] (count + len b)
          end
    end
  else Some (Return (x, (count, None))).

Definition Write (fuel : nat) (x : Writer W) (p : list byte)
  : option (go (Writer W * (Z * option error))) :=
  Write_loop fuel x p 0.

Definition Close (x : Writer W) : Writer W * option error :=
  emitRecord x [U8 x00; U16 0; U8 x01].

End WriterOps.

(** [checkErr] panics on an error. *)
Definition checkErr (e : option error) : go unit :=
  match e with
  | Some _ => Panicked
  | None => Return tt
  end.

(** [ReadFile]: every error is handed to [checkErr]. *)
Fixpoint ReadFile_loop (records : list string) (hrecs : list Ihex.HexRec)
  : go (list Ihex.HexRec * option error) :=
  match records with
  | [] => Return (hrecs, None)
  | rec :: rest =>
      if 0 <? slen rec then
        match Ihex.decodeRecord rec with
        | Panicked => Panicked
        | Return res =>
            let err := match res with inl e => Some e | inr _ => None end in
            bind (checkErr err) (fun _ =>
              match res with
              | inr hr => ReadFile_loop rest (hrecs ++ [hr])
              | inl _ => Panicked          (* not reached *)
              end)
        end
      else ReadFile_loop rest hrecs
  end.

Definition ReadFile (file : error + string)
  : go (list Ihex.HexRec * option error) :=
  let err := match file with inl e => Some e | inr _ => None end in
  bind (checkErr err) (fun _ =>
    match file with
    | inr content => ReadFile_loop (split_lines content) []
    | inl _ => Panicked                    (* not reached *)
    end).

End IhexMain.

(* ================================================================= *)
(** ** Package srec: Motorola S-Record *)

Module Srec.

(** [type srecType int] and its enumeration. *)
Definition srecType : Type := Z.

Definition S_Unknown : srecType := -1.
Definition S0Header : srecType := 0.
Definition S1Data : srecType := 1.
Definition S2Data : srecType := 2.
Definition S3Data : srecType := 3.
Definition S5Count : srecType := 5.
Definition S6Count : srecType := 6.
Definition S7Start : srecType := 7.
Definition S8Start : srecType := 8.
Definition S9Start : srecType := 9.

Record HexRec : Type := mkHexRec {
  Address : Z;              (* uint32 *)
  RecordType : srecType;
  Data : list byte
}.

Definition uint32 (z : Z) : Z := z mod 4294967296.

(** A Go map with string keys: indexing a missing key gives the zero value
    of the element type. *)
Definition strmap : Type := string -> option srecType.

Definition strmap_empty : strmap := fun _ => None.

Definition strmap_set (m : strmap) (k : string) (v : srecType) : strmap :=
  fun k' => if String.eqb k' k then Some v else m k'.

Definition strmap_index (m : strmap) (k : string) : srecType :=
  match m k with
  | Some v => v
  | None => 0
  end.

(** [fmt.Sprintf("S%d", v)] *)
Definition Sprintf_S (v : srecType) : string :=
  String "S" (NilZero.string_of_int (Z.to_int v)).

Definition srecEnums : list srecType :=
  [S0Header; S1Data; S2Data; S3Data; S5Count; S6Count;
   S7Start; S8Start; S9Start].

(** [srecTypeMap] after [init]. *)
Definition srecTypeMap : strmap :=
  fold_left (fun m v => strmap_set m (Sprintf_S v) v) srecEnums strmap_empty.

(** S-Record checksum algorithm: the one's complement of the byte sum. *)
Definition calcChecksum (b : list byte) : byte :=
  let cs := fold_left (fun cs v => (cs + b2z v) mod 256) b 0 in
  z2b (Z.lxor cs 255).

Definition calcChecksumHexAscii (s : string) : error + byte :=
  match hex_DecodeString s with
  | inl err => inl err
  | inr b => inr (calcChecksum b)
  end.

Definition is16 (t : srecType) : bool :=
  (t =? S0Header) || (t =? S1Data) || (t =? S5Count) || (t =? S9Start).
Definition is24 (t : srecType) : bool :=
  (t =? S2Data) || (t =? S6Count) || (t =? S8Start).
Definition is32 (t : srecType) : bool :=
  (t =? S3Data) || (t =? S7Start).

(** The [switch] of [decodeRecord]: the address field, the rest of the line
    and the overhead; [None] is the [default] case. *)
Definition fields (recTyp : srecType) (r : string)
  : option (go (string * string * Z)) :=
  let cut hi ovhd :=
    bind (str_slice 4 hi r) (fun address =>
    bind (str_slice_from hi r) (fun data =>
    Return (address, data, ovhd))) in
  if is16 recTyp then Some (cut 8 (2 + 1))
  else if is24 recTyp then Some (cut 10 (3 + 1))
  else if is32 recTyp then Some (cut 12 (4 + 1))
  else None.

(** The body of [decodeRecord], before the deferred [recover]. *)
Definition decodeRecord_body (r : string) : go (error + HexRec) :=
  bind (str_slice_to 2 r) (fun header =>
  bind (str_slice 2 4 r) (fun byteCount =>
  let recTyp := strmap_index srecTypeMap header in
  bind (str_slice 2 (slen r - 2) r) (fun csData =>
  match fields recTyp r with
  | None => Return (inl (ErrNew "Unknown SREC type"))
  | Some flds =>
  bind flds (fun '(address, data0, ovhd) =>
  bind (str_slice_from (slen data0 - 2) data0) (fun checksum =>
  bind (str_slice_to (slen data0 - 2) data0) (fun data =>
  match strconv_ParseUint16 checksum 8 with
  | inl err => Return (inl err)
  | inr cs =>
  match calcChecksumHexAscii csData with
  | inl err => Return (inl err)
  | inr csCalc =>
  if negb (Byte.eqb (z2b cs) csCalc) then Return (inl (ErrNew "Checksum error"))
  else
  match hex_DecodeString data with
  | inl err => Return (inl (ErrWrap "Data chars bad" err))
  | inr binData =>
  match strconv_ParseUint16 address 32 with
  | inl err => Return (inl (ErrWrap "Address field error" err))
  | inr addrBin =>
  match strconv_ParseUint16 byteCount 8 with
  | inl err => Return (inl (ErrWrap "Byte-count field error" err))
  | inr bc =>
  if negb (bc =? len binData + ovhd) then Return (inl (ErrNew "byte-count error"))
  else Return (inr (mkHexRec (uint32 addrBin) recTyp binData))
  end end end end end)))
  end))).

(** [decodeRecord]: a panic of the body is recovered into an error. *)
Definition decodeRecord (r : string) : go (error + HexRec) :=
  Return (recover (inl (ErrWrap "run time panic" ErrRuntime))
                  (decodeRecord_body r)).

Fixpoint processRecords_loop (records : list string) (hrecs : list HexRec)
  : go (list HexRec * option error) :=
  match records with
  | [] => Return (hrecs, None)
  | rec :: rest =>
      if 0 <? slen rec then
        match decodeRecord rec with
        | Panicked => Panicked
        | Return (inl err) => Return ([], Some err)
        | Return (inr hr) => processRecords_loop rest (hrecs ++ [hr])
        end
      else processRecords_loop rest hrecs
  end.

Definition processRecords (records : list string)
  : go (list HexRec * option error) :=
  processRecords_loop records [].

(** [ReadFile]; [file] is what [ioutil.ReadFile] returned. *)
Definition ReadFile (file : error + string)
  : go (list HexRec * option error) :=
  match file with
  | inl err => Return ([], Some err)
  | inr content => processRecords (split_lines content)
  end.

(** *** CoalesceDataRecs *)

Inductive outrec : Type :=
| Passed (r : HexRec)
| Jumbo (address : Z) (typ : srecType) (d : option slice).

Record cstate : Type := mkC {
  dataRecGroup : bool;
  addressCounter : Z;
  outList : list outrec;
  data : Buffer;
  mem : heap;
  dataBaseAddr : Z
}.

Definition isData (t : srecType) : bool :=
  (t =? S1Data) || (t =? S2Data) || (t =? S3Data).

Section Coalesce.

Variable growCap : nat -> nat -> nat -> nat.

Definition emitJumboDataRec (st : cstate) (pt : srecType) : cstate :=
  let r := Jumbo (dataBaseAddr st) pt (Buffer_Bytes (data st)) in
  mkC (dataRecGroup st) (addressCounter st)
      (outList st ++ [r])
      (Buffer_Reset (data st)) (mem st) (dataBaseAddr st).

(** The first branch of [processDataRec]. *)
Definition startGroup (st : cstate) (r : HexRec) : cstate :=
  let '(m, d) := Buffer_Write growCap (mem st) (Buffer_Reset (data st))
                              (Data r) in
  mkC true (uint32 (Address r + uint32 (len (Data r))))
      (outList st) d m (Address r).

(** [processDataRec]; the recursive call runs the first branch. *)
Definition processDataRec (st : cstate) (r : HexRec) (pt : srecType)
  : cstate :=
  if negb (dataRecGroup st) then startGroup st r
  else if Address r =? addressCounter st then
    let '(m, d) := Buffer_Write growCap (mem st) (data st) (Data r) in
    mkC (dataRecGroup st)
        (uint32 (addressCounter st + uint32 (len (Data r))))
        (outList st) d m (dataBaseAddr st)
  else
    let st1 := emitJumboDataRec st pt in
    let st2 := mkC false (addressCounter st1) (outList st1) (data st1)
                   (mem st1) (dataBaseAddr st1) in
    startGroup st2 r.

(** Survey of the data record types. *)
Definition count_type (t : srecType) (lst : list HexRec) : Z :=
  len (filter (fun r => RecordType r =? t) lst).

Definition preferredDataRecType (lst : list HexRec) : srecType :=
  if 0 <? count_type S3Data lst then S3Data
  else if 0 <? count_type S2Data lst then S2Data
  else S1Data.

Definition step (pt : srecType) (st : cstate) (r : HexRec) : cstate :=
  if isData (RecordType r) then processDataRec st r pt
  else
    let st1 := if Nat.ltb 0 (Buffer_Len (data st))
               then emitJumboDataRec st pt else st in
    mkC false (addressCounter st1) (outList st1 ++ [Passed r])
        (data st1) (mem st1) (dataBaseAddr st1).

Definition initial : cstate := mkC false 0 [] None [] 0.

Definition run (lst : list HexRec) : cstate :=
  let pt := preferredDataRecType lst in
  let st := fold_left (step pt) lst initial in
  if Nat.ltb 0 (Buffer_Len (data st)) then emitJumboDataRec st pt else st.

Definition deref (h : heap) (o : outrec) : HexRec :=
  match o with
  | Passed r => r
  | Jumbo a t d => mkHexRec a t (resolve h d)
  end.

Definition CoalesceDataRecs (lst : list HexRec) : list HexRec :=
  let st := run lst in
  map (deref (mem st)) (outList st).

End Coalesce.

(** *** Writer *)

(** [type AddrMode int] *)
Definition AddrMode : Type := Z.
Definition Addr16 : AddrMode := 16.
Definition Addr24 : AddrMode := 24.
Definition Addr32 : AddrMode := 32.

Record Writer (W : Type) : Type := mkWriter {
  (* state *)
  w : W;                        (* where to channel text output *)
  addr : Z;                     (* address counter for writes, uint32 *)
  count : Z;                    (* S1/S2/S3 records emitted, uint32 *)
  fin : bool;                   (* Close() has been called *)
  fifo : list byte;             (* the unread bytes of the write FIFO *)
  (* configuration *)
  emitCountRec : bool;
  emitStartRec : bool;
  startAddr : Z;
  addrMode : AddrMode;
  width : Z;
  header : option (list byte);  (* None: nil *)
  headerEmitted : bool
}.
Arguments mkWriter {W}.
Arguments w {W}.
Arguments addr {W}.
Arguments count {W}.
Arguments fin {W}.
Arguments fifo {W}.
Arguments emitCountRec {W}.
Arguments emitStartRec {W}.
Arguments startAddr {W}.
Arguments addrMode {W}.
Arguments width {W}.
Arguments header {W}.
Arguments headerEmitted {W}.

(** uint32 to []byte big-endian *)
Definition bigEndianBin (x : Z) : list byte :=
  [z2b (Z.shiftr x 24); z2b (Z.shiftr x 16); z2b (Z.shiftr x 8); z2b x].

(** [byte(n) + k] *)
Definition byte_add (n k : Z) : byte := z2b (b2z (z2b n) + k).

Section WriterOps.

Context {W : Type} `{IoWriter W}.

Definition set_w (x : Writer W) (w' : W) : Writer W :=
  mkWriter w' (addr x) (count x) (fin x) (fifo x) (emitCountRec x)
           (emitStartRec x) (startAddr x) (addrMode x) (width x)
           (header x) (headerEmitted x).

Definition set_fifo (x : Writer W) (f : list byte) : Writer W :=
  mkWriter (w x) (addr x) (count x) (fin x) f (emitCountRec x)
           (emitStartRec x) (startAddr x) (addrMode x) (width x)
           (header x) (headerEmitted x).

Definition set_fin (x : Writer W) (b : bool) : Writer W :=
  mkWriter (w x) (addr x) (count x) b (fifo x) (emitCountRec x)
           (emitStartRec x) (startAddr x) (addrMode x) (width x)
           (header x) (headerEmitted x).

Definition NewWriter (w0 : W) (aMode : AddrMode) : Writer W :=
  mkWriter w0 0 0 false [] false false 0 aMode 10 None false.

Definition SetStartAddress (x : Writer W) (a : Z) : Writer W :=
  mkWriter (w x) (addr x) (count x) (fin x) (fifo x) (emitCountRec x)
           true a (addrMode x) (width x) (header x) (headerEmitted x).

Definition SetAddrMode (x : Writer W) (m : AddrMode) : Writer W :=
  mkWriter (w x) (addr x) (count x) (fin x) (fifo x) (emitCountRec x)
           (emitStartRec x) (startAddr x) m (width x)
           (header x) (headerEmitted x).

Definition SetCountEmit (x : Writer W) : Writer W :=
  mkWriter (w x) (addr x) (count x) (fin x) (fifo x) true
           (emitStartRec x) (startAddr x) (addrMode x) (width x)
           (header x) (headerEmitted x).

Definition SetHeader (x : Writer W) (h : list byte) : Writer W :=
  mkWriter (w x) (addr x) (count x) (fin x) (fifo x) (emitCountRec x)
           (emitStartRec x) (startAddr x) (addrMode x) (width x)
           (Some h) (headerEmitted x).

(** [fmt.Fprintln(x.w, asciiBuf)] with
    [asciiBuf = fmt.Sprintf("S%c%s", recTyp, hex.EncodeToString(binBuf))],
    [binBuf] completed by its checksum. *)
Definition emitLine (x : Writer W) (recTyp : byte) (binBuf : list byte)
  : Writer W * option error :=
  let binBuf := binBuf ++ [calcChecksum binBuf] in
  let asciiBuf := String "S" (String (ascii_of_byte recTyp)
                                     (hex_EncodeToString binBuf)) in
  let '(w', err) := io_Write (w x) (asciiBuf ++ String newline "")%string in
  (set_w x w', err).

Definition emitHeaderRecord (x : Writer W) : Writer W * option error :=
  let h := match header x with Some h => h | None => [] end in
  emitLine x "0"%byte ([byte_add (len h) 3] ++ [x00; x00] ++ h).

Definition emitDataRecord (x : Writer W) (p : list byte)
  : Writer W * option error :=
  let a := bigEndianBin (addr x) in
  let '(binBuf, recTyp) :=
    if addrMode x =? Addr16 then
      ([byte_add (len p) 3] ++ skipn 2 a, "1"%byte)
    else if addrMode x =? Addr24 then
      ([byte_add (len p) 4] ++ skipn 1 a, "2"%byte)
    else if addrMode x =? Addr32 then
      ([byte_add (len p) 4] ++ a, "3"%byte)
    else ([], x00) in
  match emitLine x recTyp (binBuf ++ p) with
  | (x', Some err) => (x', Some err)
  | (x', None) =>
      (mkWriter (w x') (uint32 (addr x' + uint32 (len p)))
                (uint32 (count x' + 1)) (fin x') (fifo x')
                (emitCountRec x') (emitStartRec x') (startAddr x')
                (addrMode x') (width x') (header x') (headerEmitted x'),
       None)
  end.

Definition emitCountRecord (x : Writer W) : Writer W * option error :=
  let bigFile := 65535 <? count x in
  let c := bigEndianBin (count x) in
  if bigFile then emitLine x "6"%byte ([z2b (3 + 1)] ++ skipn 1 c)
  else emitLine x "5"%byte ([z2b (2 + 1)] ++ skipn 2 c).

Definition emitStartAddrRec (x : Writer W) : Writer W * option error :=
  let a := bigEndianBin (startAddr x) in
  let '(binBuf, recTyp) :=
    if addrMode x =? Addr16 then ([z2b 3] ++ skipn 2 a, "9"%byte)
    else if addrMode x =? Addr24 then ([z2b 4] ++ skipn 1 a, "8"%byte)
    else if addrMode x =? Addr32 then ([z2b 5] ++ a, "7"%byte)
    else ([], x00) in
  emitLine x recTyp binBuf.

Definition fifo_Next (x : Writer W) (n : Z) : go (list byte * Writer W) :=
  if n <? 0 then Panicked
  else
    let k := Nat.min (Z.to_nat n) (List.length (fifo x)) in
    Return (firstn k (fifo x), set_fifo x (skipn k (fifo x))).

(** The [for] loop of [Write]; [None] when [fuel] iterations were not
    enough. *)
Fixpoint Write_loop (fuel : nat) (x : Writer W) (writeCount origXferLen : Z)
  : option (go (Writer W * (Z * option error))) :=
  if width x <=? len (fifo x) then
    match fuel with
    | O => None
    | S fuel' =>
        match fifo_Next x (width x) with
        | Panicked => Some Panicked
        | Return (p, x1) =>
            match emitDataRecord x1 p with
            | (x2, Some err) => Some (Return (x2, (writeCount, Some err)))
            | (x2, None) =>
                Write_loop fuel' x2 (writeCount + width x) origXferLen
            end
        end
    end
  else Some (Return (x, (origXferLen, None))).

Definition Write (fuel : nat) (x : Writer W) (p : list byte)
  : option (go (Writer W * (Z * option error))) :=
  if fin x then Some (Return (x, (0, Some (ErrNew "Writer closed"))))
  else
    let x1 :=
      match header x with
      | Some _ =>
          if negb (headerEmitted x) then
            let x0 := mkWriter (w x) (addr x) (count x) (fin x) (fifo x)
                        (emitCountRec x) (emitStartRec x) (startAddr x)
                        (addrMode x) (width x) (header x) true in
            fst (emitHeaderRecord x0)          (* its error is dropped *)
          else x
      | None => x
      end in
    let x2 := set_fifo x1 (fifo x1 ++ p) in
    Write_loop fuel x2 0 (len p).

Definition Flush (x : Writer W) : Writer W * option error :=
  let remaining := len (fifo x) in
  if 0 <? remaining then
    emitDataRecord (set_fifo x []) (fifo x)   (* x.fifo.Next(remaining) *)
  else (x, None).

Definition SetAddress (x : Writer W) (a : Z) : Writer W :=
  let x1 := fst (Flush x) in
  mkWriter (w x1) a (count x1) (fin x1) (fifo x1) (emitCountRec x1)
           (emitStartRec x1) (startAddr x1) (addrMode x1) (width x1)
           (header x1) (headerEmitted x1).

(** The part of [Close] that runs once the deferred [x.fin = true] is in
    place. *)
Definition Close_body (x : Writer W) : Writer W * option error :=
  match Flush x with
  | (x1, Some err) => (x1, Some err)
  | (x1, None) =>
      let '(x2, err2) :=
        if emitCountRec x1 then emitCountRecord x1 else (x1, None) in
      match err2 with
      | Some err => (x2, Some err)
      | None =>
          if emitStartRec x2 then
            match emitStartAddrRec x2 with
            | (x3, Some err) => (x3, Some err)
            | (x3, None) => (x3, None)
            end
          else (x2, None)
      end
  end.

Definition Close (x : Writer W) : Writer W * option error :=
  if fin x then (x, Some (ErrNew "Writer already closed"))
  else
    let '(x1, err) := Close_body x in
    (set_fin x1 true, err).

End WriterOps.

End Srec.

(* ================================================================= *)
(** ** Inputs and reference definitions used by the statements *)

Definition nl : string := String newline "".

(** The two lines of [TestCoalesceDataRecs]. *)
Definition line_0000 : string :=
  "S11F00007C0802A6900100049421FFF07C6C1B787C8C23783C6000003863000026".
Definition line_0038 : string :=
  "S111003848656C6C6F20776F726C642E0A0042".

Definition payload_0000 : list byte :=
  [x7c; x08; x02; xa6; x90; x01; x00; x04; x94; x21; xff; xf0; x7c; x6c;
   x1b; x78; x7c; x8c; x23; x78; x3c; x60; x00; x00; x38; x63; x00; x00].
Definition payload_0038 : list byte :=
  [x48; x65; x6c; x6c; x6f; x20; x77; x6f; x72; x6c; x64; x2e; x0a; x00].

(** What an in-memory srec writer of the given address mode leaves in its
    sink after [Write(p)] and [Close()]. *)
Definition srec_encode (fuel : nat) (m : Srec.AddrMode) (p : list byte)
  : option string :=
  match Srec.Write fuel (Srec.NewWriter "" m) p with
  | Some (Return (x, (_, None))) =>
      match Srec.Close x with
      | (x', None) => Some (Srec.w x')
      | _ => None
      end
  | _ => None
  end.

(** The concatenated payloads of the data records of a sequence. *)
Definition srec_payload (l : list Srec.HexRec) : list byte :=
  List.concat (map Srec.Data (filter (fun r => Srec.isData (Srec.RecordType r)) l)).

(** Four data records: a run of 64 + 16 bytes at 0, 96 bytes at 1000 and
    150 bytes at 2000. *)
Definition ihex_runs : list Ihex.HexRec :=
  [Ihex.mkHexRec 0 Ihex.Data (repeat x01 64);
   Ihex.mkHexRec 64 Ihex.Data (repeat x02 16);
   Ihex.mkHexRec 1000 Ihex.Data (repeat x03 96);
   Ihex.mkHexRec 2000 Ihex.Data (repeat x04 150)].

Definition srec_runs : list Srec.HexRec :=
  [Srec.mkHexRec 0 Srec.S1Data (repeat x01 64);
   Srec.mkHexRec 64 Srec.S1Data (repeat x02 16);
   Srec.mkHexRec 1000 Srec.S1Data (repeat x03 96);
   Srec.mkHexRec 2000 Srec.S1Data (repeat x04 150)].

(** [readAll] as the specification words it: decode every non-empty line in
    order; the first failure ends the read and nothing else is returned;
    otherwise all the records, in order. *)
Fixpoint readAll_spec {R : Type} (decodeLine : string -> go (error + R))
  (lines : list string) : go (error + list R) :=
  match lines with
  | [] => Return (inr [])
  | l :: rest =>
      if String.eqb l "" then readAll_spec decodeLine rest
      else
        match decodeLine l with
        | Panicked => Panicked
        | Return (inl e) => Return (inl e)
        | Return (inr r) =>
            match readAll_spec decodeLine rest with
            | Return (inr rs) => Return (inr (r :: rs))
            | other => other
            end
        end
  end.

(** How a Go result pair [(records, err)] reads as an outcome. *)
Definition as_outcome {R : Type} (res : go (list R * option error))
  : go (error + list R) :=
  match res with
  | Panicked => Panicked
  | Return (_, Some e) => Return (inl e)
  | Return (rs, None) => Return (inr rs)
  end.

(** The byte two hex digits denote. *)
Definition hexbyte (a b : Z) : byte := z2b (Z.lor (Z.shiftl a 4) b).

(** The sum of the values of a byte sequence. *)
Fixpoint sumz (l : list byte) : Z :=
  match l with
  | [] => 0
  | b :: l' => b2z b + sumz l'
  end.

(** Where the address field of an S-record of type [t] ends in the line,
    and the overhead the reader adds for it. *)
Definition addr_end (t : Srec.srecType) : Z :=
  if Srec.is16 t then 8 else if Srec.is24 t then 10 else 12.

Definition ovhd_of (t : Srec.srecType) : Z :=
  if Srec.is16 t then 2 + 1 else if Srec.is24 t then 3 + 1 else 4 + 1.

Definition is_hex_error (e : error) : Prop :=
  match e with
  | ErrHexInvalidByte _ | ErrHexLength => True
  | _ => False
  end.

Definition is_strconv_error (e : error) : Prop :=
  match e with
  | ErrSyntax _ | ErrRange _ => True
  | _ => False
  end.

(** A string without a newline character. *)
Fixpoint no_newline (s : string) : bool :=
  match s with
  | EmptyString => true
  | String c s' => negb (Ascii.eqb c newline) && no_newline s'
  end.

(** The number a byte sequence denotes, most significant byte first,
    continuing from [n]. *)
Definition be_value (bs : list byte) (n : Z) : Z :=
  fold_left (fun acc b => acc * 256 + b2z b) bs n.

(** The line [Srec.emitDataRecord] writes (without its newline) for the
    payload [p] at the address [a] in the address mode [m]. *)
Definition srec_dataLine (m : Srec.AddrMode) (a : Z) (p : list byte) : string :=
  let a4 := Srec.bigEndianBin a in
  let '(binBuf, recTyp) :=
    if m =? Srec.Addr16 then
      ([Srec.byte_add (len p) 3] ++ skipn 2 a4, "1"%byte)
    else if m =? Srec.Addr24 then
      ([Srec.byte_add (len p) 4] ++ skipn 1 a4, "2"%byte)
    else if m =? Srec.Addr32 then
      ([Srec.byte_add (len p) 4] ++ a4, "3"%byte)
    else ([], x00) in
  let binBuf := binBuf ++ p in
  String "S" (String (ascii_of_byte recTyp)
                     (hex_EncodeToString (binBuf ++ [Srec.calcChecksum binBuf]))).

(** The data records an srec writer of width 10 emits for the FIFO content
    [f] from the address [a]: full records while ten bytes are left, then
    the runt. *)
Fixpoint srec_records (fuel : nat) (a : Z) (f : list byte)
  : list (Z * list byte) :=
  match fuel with
  | O => []
  | S k =>
      if 10 <=? len f then
        (a, firstn 10 f) :: srec_records k (a + 10) (skipn 10 f)
      else if 0 <? len f then [(a, f)]
      else []
  end.

Fixpoint srec_text (m : Srec.AddrMode) (recs : list (Z * list byte)) : string :=
  match recs with
  | [] => ""
  | (a, c) :: rest => (srec_dataLine m a c ++ nl ++ srec_text m rest)%string
  end.

(** A buffer whose slice lies within an array of the heap. *)
Definition buf_ok (h : heap) (b : Buffer) : Prop :=
  match b with
  | None => True
  | Some s => (s_arr s < List.length h)%nat /\
              (s_len s <= List.length (array_of h (s_arr s)))%nat
  end.

(** The state of the srec coalescer inside a run of contiguous data records
    that started at [a0], holds [acc] and expects [cur] next; or before any
    record, when [acc] is empty. *)
Definition in_run (st : Srec.cstate) (a0 cur : Z) (acc : list byte) : Prop :=
  Srec.outList st = [] /\
  buf_ok (Srec.mem st) (Srec.data st) /\
  resolve (Srec.mem st) (Srec.data st) = acc /\
  ((Srec.dataRecGroup st = true /\ Srec.addressCounter st = cur /\
    Srec.dataBaseAddr st = a0) \/
   (Srec.dataRecGroup st = false /\ acc = [] /\ a0 = cur)).

(** *** The shape of a coalesced sequence

    What the two [CoalesceDataRecs] do to the address, the type and the
    payload length of the records, with the payload bytes left aside.  [M]
    is the modulus of the address counter and [pt] the type given to merged
    records. *)

Section Shape.

Variable T : Type.
Variable isData : T -> bool.
Variable M : Z.
Variable pt : T.

(** Address, type and payload length of a record. *)
Definition shape : Type := Z * T * nat.

(** The run being accumulated: base address, expected next address and
    number of bytes held. *)
Definition run_state : Type := option (Z * Z * nat).

Definition wrap (z : Z) : Z := z mod M.

Definition open_run (a : Z) (l : nat) : run_state :=
  Some (a, wrap (a + wrap (Z.of_nat l)), l).

Definition flush (r : run_state) : list shape :=
  match r with
  | Some (b, _, n) => if Nat.ltb 0 n then [(b, pt, n)] else []
  | None => []
  end.

(** What the coalescers do to addresses, types and payload lengths. *)
Fixpoint merge (r : run_state) (xs : list shape) : list shape :=
  match xs with
  | [] => flush r
  | (a, t, l) :: xs' =>
      if isData t then
        match r with
        | None => merge (open_run a l) xs'
        | Some (b, c, n) =>
            if a =? c then
              merge (Some (b, wrap (c + wrap (Z.of_nat l)), (n + l)%nat)) xs'
            else (b, pt, n) :: merge (open_run a l) xs'
        end
      else flush r ++ (a, t, l) :: merge None xs'
  end.

Definition wf_run (r : run_state) : Prop :=
  match r with
  | None => True
  | Some (b, c, n) => (0 < n)%nat /\ c = wrap (b + wrap (Z.of_nat n))
  end.

Definition nonempty_data (x : shape) : Prop :=
  isData (snd (fst x)) = true -> (0 < snd x)%nat.

End Shape.

Arguments merge {T}.
Arguments flush {T}.
Arguments nonempty_data {T}.

(** Arrays never shrink, and a kept slice stays inside its array. *)
Definition heap_le (h h' : heap) : Prop :=
  forall i, (List.length (array_of h i) <= List.length (array_of h' i))%nat.

Definition slice_ok (h : heap) (d : option slice) : Prop :=
  match d with
  | None => True
  | Some s => (s_len s <= List.length (array_of h (s_arr s)))%nat
  end.

Definition ihex_shape (r : Ihex.HexRec) : shape byte :=
  (Ihex.Address r, Ihex.RecordType r, List.length (Ihex.Data_ r)).

Definition ihex_isData (t : byte) : bool := Byte.eqb t Ihex.Data.

Definition ihex_sh (o : Ihex.outrec) : shape byte :=
  match o with
  | Ihex.Passed r => ihex_shape r
  | Ihex.Jumbo a t d => (a, t, Buffer_Len d)
  end.

Definition ihex_out_ok (h : heap) (o : Ihex.outrec) : Prop :=
  match o with
  | Ihex.Passed _ => True
  | Ihex.Jumbo _ _ d => slice_ok h d
  end.

Definition ihex_run_of (st : Ihex.cstate) : run_state :=
  if Ihex.dataRecGroup st
  then Some (Ihex.dataBaseAddr st, Ihex.addressCounter st,
             Buffer_Len (Ihex.data st))
  else None.

Definition ihex_inv (st : Ihex.cstate) : Prop :=
  buf_ok (Ihex.mem st) (Ihex.data st) /\
  Forall (ihex_out_ok (Ihex.mem st)) (Ihex.outList st) /\
  (Ihex.dataRecGroup st = false -> Buffer_Len (Ihex.data st) = O).

Definition srec_shape (r : Srec.HexRec) : shape Z :=
  (Srec.Address r, Srec.RecordType r, List.length (Srec.Data r)).

Definition srec_sh (o : Srec.outrec) : shape Z :=
  match o with
  | Srec.Passed r => srec_shape r
  | Srec.Jumbo a t d => (a, t, Buffer_Len d)
  end.

Definition srec_out_ok (h : heap) (o : Srec.outrec) : Prop :=
  match o with
  | Srec.Passed _ => True
  | Srec.Jumbo _ _ d => slice_ok h d
  end.

Definition srec_run_of (st : Srec.cstate) : run_state :=
  if Srec.dataRecGroup st
  then Some (Srec.dataBaseAddr st, Srec.addressCounter st,
             Buffer_Len (Srec.data st))
  else None.

Definition srec_inv (st : Srec.cstate) : Prop :=
  buf_ok (Srec.mem st) (Srec.data st) /\
  Forall (srec_out_ok (Srec.mem st)) (Srec.outList st) /\
  (Srec.dataRecGroup st = false -> Buffer_Len (Srec.data st) = O).


(* ================================================================= *)
(** ** Reference definitions for the writers, the readers and the
       coalescers *)

(** *** The bytes of an Intel Hex record *)

(** The bytes of an Intel Hex record before its checksum: the count, the
    address, the type and the payload, as [emitDataRecord] lays them out. *)
Definition ihex_image (a : Z) (t : byte) (d : list byte) : list byte :=
  List.concat (map binary_Write [U8 (z2b (len d)); U16 a; U8 t; Bytes d]).

(** *** Hex digits and the lines of the ihex writer *)

(** Strings of hex digits. *)
Fixpoint all_hex (s : string) : bool :=
  match s with
  | EmptyString => true
  | String c s' =>
      match fromHexChar c with Some _ => all_hex s' | None => false end
  end.

(** The line [emitRecord] writes for a record, without its newline. *)
Definition ihex_line (a : Z) (t : byte) (d : list byte) : string :=
  let buf := ihex_image a t d in
  String ":" (strings_ToUpper (hex_EncodeToString (buf ++ [Ihex.calcChecksum buf]))).

(** *** Runs of contiguous ihex data records *)

(** A chain of data records: each one starts where the one before it ended,
    counted as the coalescer counts. *)
Fixpoint ihex_chain (a : Z) (recs : list Ihex.HexRec) : Prop :=
  match recs with
  | [] => True
  | r :: rest =>
      Ihex.RecordType r = Ihex.Data /\ Ihex.Address r = a /\
      ihex_chain (Ihex.uint16 (a + Ihex.uint16 (len (Ihex.Data_ r)))) rest
  end.

(** The merged record of a run, if the run holds a byte. *)
Definition ihex_jumbo (a : Z) (d : list byte) : list Ihex.HexRec :=
  match d with
  | [] => []
  | _ :: _ => [Ihex.mkHexRec a Ihex.Data d]
  end.

(** The state of the ihex coalescer inside a run that started at [a0], holds
    [acc] and expects [cur] next; or before the run, when [acc] is empty. *)
Definition ihex_in_run (st : Ihex.cstate) (out : list Ihex.outrec) (a0 cur : Z)
           (acc : list byte) : Prop :=
  Ihex.outList st = out /\
  buf_ok (Ihex.mem st) (Ihex.data st) /\
  resolve (Ihex.mem st) (Ihex.data st) = acc /\
  ((Ihex.dataRecGroup st = true /\ Ihex.addressCounter st = cur /\
    Ihex.dataBaseAddr st = a0) \/
   (Ihex.dataRecGroup st = false /\ acc = [] /\ a0 = cur)).

(** The state between runs: nothing pending in the buffer. *)
Definition ihex_quiet (st : Ihex.cstate) (out : list Ihex.outrec) (h : heap)
  : Prop :=
  Ihex.outList st = out /\ Buffer_Len (Ihex.data st) = O /\ Ihex.mem st = h.

(** *** What the ihex writer leaves in a sink *)

(** Lines, each followed by a newline. *)
Definition unlines (ls : list string) : string :=
  fold_right (fun l t => (l ++ nl ++ t)%string) "" ls.

(** The first [n] full records an ihex writer of width [wd] cuts from the
    FIFO content [f], from the address [a]. *)
Fixpoint ihex_records (n : nat) (wd a : Z) (f : list byte)
  : list (Z * list byte) :=
  match n with
  | O => []
  | S k =>
      (a, firstn (Z.to_nat wd) f)
        :: ihex_records k wd (Ihex.uint16 (a + Ihex.uint16 wd))
                        (skipn (Z.to_nat wd) f)
  end.

(** The data record of an address and a payload. *)
Definition ihex_data_rec (r : Z * list byte) : Ihex.HexRec :=
  Ihex.mkHexRec (fst r) Ihex.Data (snd r).

(** The lines of data records, as the writer leaves them in a sink. *)
Definition ihex_text (recs : list (Z * list byte)) : string :=
  unlines (map (fun r => ihex_line (fst r) Ihex.Data (snd r)) recs).

(** What an in-memory ihex writer of width [wd] leaves in its sink after
    [SetAddress(a)], [Write(p)] and [Close()]. *)
Definition ihex_encode (fuel : nat) (wd a : Z) (p : list byte) : option string :=
  match Ihex.Write fuel (Ihex.SetAddress (Ihex.NewWriterWidth "" wd) a) p with
  | Some (Return (x, (_, None))) =>
      match Ihex.Close x with
      | (x', None) => Some (Ihex.w x')
      | _ => None
      end
  | _ => None
  end.

(** The records an ihex writer emits for [f]: the full ones and the runt. *)
Definition ihex_all_records (wd a : Z) (f : list byte) : list (Z * list byte) :=
  let j := len f / wd in
  let rest := skipn (Z.to_nat (wd * j)) f in
  ihex_records (Z.to_nat j) wd a f ++
  (if 0 <? len rest then [(Ihex.uint16 (a + wd * j), rest)] else []).

(** *** The bytes of an S-record *)

(** The bytes of an S-record before its checksum: the count, the address
    bytes and the payload. *)
Definition srec_image (t : Srec.srecType) (ab p : list byte) : list byte :=
  [z2b (len p + ovhd_of t)] ++ ab ++ p.

(** *** Runs of contiguous S-record data records *)

(** A chain of S-record data records: each one starts where the one before
    it ended, counted as the coalescer counts. *)
Fixpoint srec_chain (a : Z) (recs : list Srec.HexRec) : Prop :=
  match recs with
  | [] => True
  | r :: rest =>
      Srec.isData (Srec.RecordType r) = true /\ Srec.Address r = a /\
      srec_chain (Srec.uint32 (a + Srec.uint32 (len (Srec.Data r)))) rest
  end.

(** The merged record of a run, of type [pt], if the run holds a byte. *)
Definition srec_jumbo (a : Z) (pt : Srec.srecType) (d : list byte)
  : list Srec.HexRec :=
  match d with
  | [] => []
  | _ :: _ => [Srec.mkHexRec a pt d]
  end.

(** The state of the srec coalescer inside a run that started at [a0],
    holds [acc] and expects [cur] next; or before the run. *)
Definition srec_in_run (st : Srec.cstate) (out : list Srec.outrec) (a0 cur : Z)
           (acc : list byte) : Prop :=
  Srec.outList st = out /\
  buf_ok (Srec.mem st) (Srec.data st) /\
  resolve (Srec.mem st) (Srec.data st) = acc /\
  ((Srec.dataRecGroup st = true /\ Srec.addressCounter st = cur /\
    Srec.dataBaseAddr st = a0) \/
   (Srec.dataRecGroup st = false /\ acc = [] /\ a0 = cur)).

(** The state between runs: nothing pending in the buffer. *)
Definition srec_quiet (st : Srec.cstate) (out : list Srec.outrec) (h : heap)
  : Prop :=
  Srec.outList st = out /\ Buffer_Len (Srec.data st) = O /\ Srec.mem st = h.

(** *** What the srec writer leaves in a sink *)

(** The line [emitLine] writes, without its newline. *)
Definition srec_line (c : byte) (binBuf : list byte) : string :=
  String "S" (String (ascii_of_byte c)
                     (hex_EncodeToString (binBuf ++ [Srec.calcChecksum binBuf]))).

(** The first [n] full records an srec writer of width [wd] cuts from the
    FIFO content [f], from the address [a]. *)
Fixpoint srec_cut (n : nat) (wd a : Z) (f : list byte) : list (Z * list byte) :=
  match n with
  | O => []
  | S k =>
      (a, firstn (Z.to_nat wd) f)
        :: srec_cut k wd (Srec.uint32 (a + Srec.uint32 wd))
                    (skipn (Z.to_nat wd) f)
  end.

(** All the records it emits for [f]: the full ones and the runt. *)
Definition srec_all_records (wd a : Z) (f : list byte) : list (Z * list byte) :=
  let j := len f / wd in
  let rest := skipn (Z.to_nat (wd * j)) f in
  srec_cut (Z.to_nat j) wd a f ++
  (if 0 <? len rest then [(Srec.uint32 (a + wd * j), rest)] else []).

(** The lines of data records in the mode [m]. *)
Definition srec_data_text (m : Srec.AddrMode) (recs : list (Z * list byte))
  : string :=
  unlines (map (fun r => srec_dataLine m (fst r) (snd r)) recs).

(** The record types [emitDataRecord] and [emitStartAddrRec] pick for an
    address mode, and [emitCountRecord] for a count. *)
Definition srec_data_type (m : Srec.AddrMode) : Srec.srecType :=
  if m =? Srec.Addr16 then Srec.S1Data
  else if m =? Srec.Addr24 then Srec.S2Data else Srec.S3Data.

Definition srec_start_type (m : Srec.AddrMode) : Srec.srecType :=
  if m =? Srec.Addr16 then Srec.S9Start
  else if m =? Srec.Addr24 then Srec.S8Start else Srec.S7Start.

Definition srec_count_type (n : Z) : Srec.srecType :=
  if n <=? 65535 then Srec.S5Count else Srec.S6Count.

(** What an in-memory srec writer leaves in its sink when it is given an
    address, a start address, a header and the count option, then a payload,
    and is closed. *)
Definition srec_encode_file (fuel : nat) (m : Srec.AddrMode) (a sa : Z)
           (h p : list byte) : option string :=
  let x0 := Srec.SetHeader
              (Srec.SetCountEmit
                 (Srec.SetStartAddress
                    (Srec.SetAddress (Srec.NewWriter "" m) a) sa)) h in
  match Srec.Write fuel x0 p with
  | Some (Return (x, (_, None))) =>
      match Srec.Close x with
      | (x', None) => Some (Srec.w x')
      | _ => None
      end
  | _ => None
  end.

(** The lines [emitHeaderRecord], [emitCountRecord] and [emitStartAddrRec]
    write, without their newlines. *)
Definition srec_header_line (h : list byte) : string :=
  srec_line "0" ([Srec.byte_add (len h) 3] ++ [x00; x00] ++ h).

Definition srec_count_line (n : Z) : string :=
  if 65535 <? n
  then srec_line "6" ([z2b (3 + 1)] ++ skipn 1 (Srec.bigEndianBin n))
  else srec_line "5" ([z2b (2 + 1)] ++ skipn 2 (Srec.bigEndianBin n)).

Definition srec_start_line (m : Srec.AddrMode) (sa : Z) : string :=
  let a := Srec.bigEndianBin sa in
  if m =? Srec.Addr16 then srec_line "9" ([z2b 3] ++ skipn 2 a)
  else if m =? Srec.Addr24 then srec_line "8" ([z2b 4] ++ skipn 1 a)
  else if m =? Srec.Addr32 then srec_line "7" ([z2b 5] ++ a)
  else srec_line x00 [].

(** The data record of type [t] of an address and a payload. *)
Definition srec_data_rec (t : Srec.srecType) (r : Z * list byte) : Srec.HexRec :=
  Srec.mkHexRec (fst r) t (snd r).

(** *** Order and size of a coalesced sequence *)

Section ShapeOrder.

Variable T : Type.
Variable isData : T -> bool.
Variable M : Z.

(** Two data records, the second starting where the first ends. *)
Definition contiguous (x y : shape T) : Prop :=
  isData (snd (fst x)) = true /\ isData (snd (fst y)) = true /\
  fst (fst y) = wrap M (fst (fst x) + wrap M (Z.of_nat (snd x))).

(** No record is contiguous with the one before it. *)
Fixpoint separated (l : list (shape T)) : Prop :=
  match l with
  | x :: ((y :: _) as l') => ~ contiguous x y /\ separated l'
  | _ => True
  end.

(** The run a state holds counts from its base address. *)
Definition run_counts (r : run_state) : Prop :=
  match r with
  | None => True
  | Some (b, c, n) => c = wrap M (b + wrap M (Z.of_nat n))
  end.

(** The payload bytes and the records a pending run stands for. *)
Definition run_bytes (r : run_state) : nat :=
  match r with
  | None => O
  | Some (_, _, n) => n
  end.

Definition run_records (r : run_state) : nat :=
  match r with
  | None => O
  | Some _ => 1%nat
  end.

End ShapeOrder.

Arguments contiguous {T}.
Arguments separated {T}.

(** *** The records a coalescer passes on *)

(** The records that are not data records. *)
Definition ihex_other (r : Ihex.HexRec) : bool :=
  negb (Byte.eqb (Ihex.RecordType r) Ihex.Data).

Definition srec_other (r : Srec.HexRec) : bool :=
  negb (Srec.isData (Srec.RecordType r)).

(** *** Lines a reader gets past *)

(** A line the ihex reader gets past: empty, or one that decodes. *)
Definition ihex_line_passes (l : string) : Prop :=
  l = "" \/ exists r, Ihex.decodeRecord l = Return (inr r).


Ltac break_match :=
  match goal with
  | |- context [match ?x with _ => _ end] => destruct x eqn:?
  end.

(* ================================================================= *)
(** ** Properties *)

(** *** Reading whole files (C4) *)

Lemma slen_pos_eqb (l : string) : (0 <? slen l) = negb (String.eqb l "").
Proof.
  destruct l as [|c l]; [reflexivity|].
  unfold slen. cbn [String.length String.eqb negb].
  apply Z.ltb_lt. lia.
Qed.

(** The loop of the second version of [ihex.ReadFile] follows the
    specification of [readAll]. *)
Lemma ihex_ReadFile_loop_spec (lines : list string) :
  forall acc,
    Ihex.ReadFile_loop lines acc =
    match readAll_spec Ihex.decodeRecord lines with
    | Panicked => Panicked
    | Return (inl e) => Return ([], Some e)
    | Return (inr rs) => Return (acc ++ rs, None)
    end.
Proof.
  induction lines as [|l rest IH]; intros acc; cbn [Ihex.ReadFile_loop readAll_spec].
  - now rewrite app_nil_r.
  - rewrite slen_pos_eqb.
    destruct (String.eqb l ""); cbn [negb]; [apply IH|].
    destruct (Ihex.decodeRecord l) as [[e|r]|]; try reflexivity.
    rewrite IH.
    destruct (readAll_spec Ihex.decodeRecord rest) as [[e|rs]|]; try reflexivity.
    now rewrite <- app_assoc.
Qed.

(** [srec.processRecords] follows the specification of [readAll]. *)
Lemma srec_processRecords_loop_spec (lines : list string) :
  forall acc,
    Srec.processRecords_loop lines acc =
    match readAll_spec Srec.decodeRecord lines with
    | Panicked => Panicked
    | Return (inl e) => Return ([], Some e)
    | Return (inr rs) => Return (acc ++ rs, None)
    end.
Proof.
  induction lines as [|l rest IH]; intros acc;
    cbn [Srec.processRecords_loop readAll_spec].
  - now rewrite app_nil_r.
  - rewrite slen_pos_eqb.
    destruct (String.eqb l ""); cbn [negb]; [apply IH|].
    destruct (Srec.decodeRecord l) as [[e|r]|]; try reflexivity.
    rewrite IH.
    destruct (readAll_spec Srec.decodeRecord rest) as [[e|rs]|]; try reflexivity.
    now rewrite <- app_assoc.
Qed.

Lemma ihex_ReadFile_spec (content : string) :
  as_outcome (Ihex.ReadFile (inr content)) =
  readAll_spec Ihex.decodeRecord (split_lines content).
Proof.
  unfold Ihex.ReadFile. rewrite ihex_ReadFile_loop_spec.
  now destruct (readAll_spec _ _) as [[e|rs]|].
Qed.

Lemma srec_processRecords_spec (lines : list string) :
  as_outcome (Srec.processRecords lines) =
  readAll_spec Srec.decodeRecord lines.
Proof.
  unfold Srec.processRecords. rewrite srec_processRecords_loop_spec.
  now destruct (readAll_spec _ _) as [[e|rs]|].
Qed.

Lemma ihex_ReadFile_draft_loop_no_records lines l e :
  Ihex.ReadFile_draft_loop lines [] = Return (l, e) -> l = [].
Proof.
  induction lines as [|rec rest IH]; cbn [Ihex.ReadFile_draft_loop].
  - now intros [= <- _].
  - destruct (0 <? slen rec); [|exact IH].
    destruct (Ihex.decodeRecord rec) as [[err|hr]|]; [| |discriminate];
      now intros [= <- _].
Qed.

(** The first version of [ihex.ReadFile] never returns a record. *)
Lemma ihex_ReadFile_draft_no_records file l e :
  Ihex.ReadFile_draft file = Return (l, e) -> l = [].
Proof.
  destruct file as [err|content]; cbn [Ihex.ReadFile_draft].
  - now intros [= <- _].
  - apply ihex_ReadFile_draft_loop_no_records.
Qed.

(** C4.  The first version of [ihex.ReadFile] in read.go returns right after
    the first non-empty line: on a file holding one valid EOF record and one
    valid data record it returns no record and no error, where [readAll]
    (and the second version of the function) returns both records. *)
Theorem C4_ihex_ReadFile_draft_returns_early :
  let content := (":00000001FF" ++ nl ++ ":0300300002337A1E" ++ nl)%string in
  Ihex.ReadFile_draft (inr content) = Return ([], None) /\
  Ihex.ReadFile (inr content) =
    Return ([Ihex.mkHexRec 0 Ihex.EndOfFile [];
             Ihex.mkHexRec 48 Ihex.Data [x02; x33; x7a]], None) /\
  readAll_spec Ihex.decodeRecord (split_lines content) =
    Return (inr [Ihex.mkHexRec 0 Ihex.EndOfFile [];
                 Ihex.mkHexRec 48 Ihex.Data [x02; x33; x7a]]).
Proof. repeat split; vm_compute; reflexivity. Qed.

(** *** Flush on an empty buffer (C6) *)

Lemma len_nil_iff {A : Type} (l : list A) : (0 <? len l) = false -> l = [].
Proof.
  destruct l; [reflexivity|]. unfold len. cbn [List.length].
  intros H. apply Z.ltb_ge in H. lia.
Qed.

(** The [Flush] of write.go and the [Flush] of the srec writer do nothing
    on an empty FIFO. *)
Lemma ihex_Flush_empty {W : Type} `{IoWriter W} (x : Ihex.Writer W) :
  Ihex.fifo x = [] -> Ihex.Flush x = (x, None).
Proof. intros E. unfold Ihex.Flush. now rewrite E. Qed.

Lemma srec_Flush_empty {W : Type} `{IoWriter W} (x : Srec.Writer W) :
  Srec.fifo x = [] -> Srec.Flush x = (x, None).
Proof. intros E. unfold Srec.Flush. now rewrite E. Qed.

(** C6.  The [Flush] of the earlier ihex writer has no guard: on a new
    writer, whose FIFO is empty, it emits a data record of length zero. *)
Theorem C6_ihex_draft_Flush_emits_empty_record :
  let x := Ihex.NewWriter "" in
  Ihex.fifo x = [] /\
  IhexDraft.Flush x =
    (Ihex.mkWriter (":0000000000" ++ nl)%string 16 0 [], None) /\
  Ihex.Flush x = (x, None).
Proof. repeat split. Qed.

(** *** Close after Close (C3) *)

Lemma srec_Close_sets_fin {W : Type} `{IoWriter W} (x : Srec.Writer W) :
  Srec.fin (fst (Srec.Close x)) = true.
Proof.
  unfold Srec.Close. destruct (Srec.fin x) eqn:E; [exact E|].
  now destruct (Srec.Close_body x).
Qed.

Lemma ihex_emitRecord_fifo {W : Type} `{IoWriter W} (x : Ihex.Writer W) d :
  Ihex.fifo (fst (Ihex.emitRecord x d)) = Ihex.fifo x.
Proof.
  unfold Ihex.emitRecord. now destruct (io_Write _ _).
Qed.

Lemma ihex_Flush_fifo {W : Type} `{IoWriter W} (x : Ihex.Writer W) :
  Ihex.fifo (fst (Ihex.Flush x)) = [].
Proof.
  unfold Ihex.Flush. destruct (0 <? len (Ihex.fifo x)) eqn:E.
  - unfold Ihex.emitDataRecord.
    match goal with |- context [Ihex.emitRecord ?a ?b] =>
      pose proof (ihex_emitRecord_fifo a b) as F;
      destruct (Ihex.emitRecord a b) as [x' [e|]] end; exact F.
  - now apply len_nil_iff.
Qed.

Lemma ihex_Close_fifo {W : Type} `{IoWriter W} (x : Ihex.Writer W) :
  Ihex.fifo (fst (Ihex.Close x)) = [].
Proof.
  unfold Ihex.Close.
  pose proof (ihex_Flush_fifo x) as F.
  destruct (Ihex.Flush x) as [x1 e1]. cbn [fst] in F.
  now rewrite ihex_emitRecord_fifo.
Qed.

(** C3, against the claim: a second [Close] of an ihex writer returns no
    error and writes a second EOF record. *)
Lemma C3_ihex_second_Close_emits :
  let x1 := fst (Ihex.Close (Ihex.NewWriter "")) in
  Ihex.w x1 = (":00000001FF" ++ nl)%string /\
  Ihex.Close x1 =
    (Ihex.mkWriter (":00000001FF" ++ nl ++ ":00000001FF" ++ nl)%string 16 0 [],
     None).
Proof. split; reflexivity. Qed.

(** C3, as amended.  A [Close] of an srec writer that follows a [Close]
    returns the error "Writer already closed" and leaves the writer and its
    sink as they were, whatever the sink and whatever the first [Close]
    returned.  The ihex writer keeps no closed state: a [Close] that follows
    a [Close] writes the EOF record to the sink once more. *)
Theorem C3_second_Close {W : Type} `{IoWriter W} :
  (forall x : Srec.Writer W,
      let x1 := fst (Srec.Close x) in
      Srec.Close x1 = (x1, Some (ErrNew "Writer already closed"))) /\
  (forall x : Ihex.Writer W,
      let x1 := fst (Ihex.Close x) in
      Ihex.Close x1 =
        (Ihex.mkWriter (fst (io_Write (Ihex.w x1) (":00000001FF" ++ nl)%string))
                       (Ihex.width x1) (Ihex.addr x1) [],
         option_map (ErrWrap "emitRecord: Failure formatting Intel Hex record")
                    (snd (io_Write (Ihex.w x1) (":00000001FF" ++ nl)%string)))).
Proof.
  split; intros x x1.
  - unfold Srec.Close at 1.
    now rewrite (srec_Close_sets_fin x : Srec.fin x1 = true).
  - pose proof (ihex_Close_fifo x : Ihex.fifo x1 = []) as F.
    unfold Ihex.Close. rewrite (ihex_Flush_empty x1 F).
    unfold Ihex.emitRecord.
    change (strings_ToUpper _) with "00000001FF".
    change (":" ++ "00000001FF" ++ String newline "")%string
      with (":00000001FF" ++ nl)%string.
    destruct (io_Write _ _) as [w' e]. cbn [fst snd]. now rewrite F.
Qed.

(** *** Totality of the decoders (C9) *)

Lemma srec_decodeRecord_returns (r : string) :
  exists res, Srec.decodeRecord r = Return res.
Proof. unfold Srec.decodeRecord. eexists. reflexivity. Qed.

Lemma hex_DecodeString_nil s : hex_DecodeString s = inr [] -> s = "".
Proof.
  destruct s as [|a [|b s]]; [reflexivity| |]; cbn.
  - destruct (fromHexChar a); discriminate.
  - destruct (fromHexChar a); [|discriminate].
    destruct (fromHexChar b); [|discriminate].
    destruct (hex_DecodeString s); discriminate.
Qed.

(** The ihex decoder panics on the lines that hold one character, and on
    no other line. *)
Lemma ihex_decodeRecord_panics_iff (s : string) :
  Ihex.decodeRecord s = Panicked <-> exists m, s = String m "".
Proof.
  split.
  - unfold Ihex.decodeRecord. destruct s as [|m s1]; [discriminate|].
    destruct (hex_DecodeString s1) as [e|[|b0 bs]] eqn:D; [discriminate| |].
    + intros _. exists m. f_equal. now apply hex_DecodeString_nil.
    + repeat (break_match; try discriminate).
  - intros (m & ->). reflexivity.
Qed.

(** C9.  The srec decoder returns on every line: a panic of its body comes
    back as the error "run time panic".  The ihex decoder has no [recover]
    and panics on the line that holds the marker only. *)
Theorem C9_ihex_decodeRecord_panics_on_marker :
  Ihex.decodeRecord ":" = Panicked /\
  (forall r, exists res, Srec.decodeRecord r = Return res) /\
  Srec.decodeRecord "S" = Return (inl (ErrWrap "run time panic" ErrRuntime)).
Proof.
  split; [reflexivity|]. split; [apply srec_decodeRecord_returns|reflexivity].
Qed.

(** *** Bytes, hex digits, strings *)

(** Induction on a string two characters at a time. *)
Lemma string_pair_ind (P : string -> Prop) :
  P "" -> (forall a, P (String a "")) ->
  (forall a b s, P s -> P (String a (String b s))) ->
  forall s, P s.
Proof.
  intros H0 H1 H2.
  fix IH 1. intros [|a [|b s]]; [exact H0|apply H1|apply H2, IH].
Qed.

(** *** Bytes and integers *)

Lemma b2z_range (b : byte) : 0 <= b2z b < 256.
Proof.
  unfold b2z. pose proof (Byte.to_N_bounded b). lia.
Qed.

Lemma b2z_z2b (z : Z) : b2z (z2b z) = z mod 256.
Proof.
  unfold z2b, b2z.
  pose proof (Z.mod_pos_bound z 256 ltac:(lia)) as R.
  destruct (Byte.of_N (Z.to_N (z mod 256))) as [b|] eqn:E.
  - apply Byte.to_of_N in E. rewrite E. lia.
  - apply Byte.of_N_None_iff in E. lia.
Qed.

Lemma z2b_b2z (b : byte) : z2b (b2z b) = b.
Proof.
  unfold z2b, b2z.
  pose proof (Byte.to_N_bounded b) as R.
  rewrite Z.mod_small by lia. rewrite N2Z.id. now rewrite Byte.of_to_N.
Qed.

Lemma b2z_inj (a b : byte) : b2z a = b2z b -> a = b.
Proof. intros E. rewrite <- (z2b_b2z a), <- (z2b_b2z b). now rewrite E. Qed.

Lemma z2b_inj_small (x y : Z) :
  0 <= x < 256 -> 0 <= y < 256 -> z2b x = z2b y -> x = y.
Proof.
  intros Hx Hy E. apply (f_equal b2z) in E. rewrite !b2z_z2b in E.
  rewrite !Z.mod_small in E by lia. exact E.
Qed.

Lemma fromHexChar_range (c : ascii) (v : Z) :
  fromHexChar c = Some v -> 0 <= v < 16.
Proof.
  unfold fromHexChar. set (n := c2z c). intros H.
  destruct ((48 <=? n) && (n <=? 57)) eqn:E1.
  { injection H as <-. apply andb_true_iff in E1. lia. }
  destruct ((97 <=? n) && (n <=? 102)) eqn:E2.
  { injection H as <-. apply andb_true_iff in E2. lia. }
  destruct ((65 <=? n) && (n <=? 70)) eqn:E3.
  { injection H as <-. apply andb_true_iff in E3. lia. }
  discriminate.
Qed.

Lemma lor_shiftl_4 (a b : Z) :
  0 <= a < 16 -> 0 <= b < 16 -> Z.lor (Z.shiftl a 4) b = 16 * a + b.
Proof.
  intros Ha Hb.
  assert (Ea : a = 0 \/ a = 1 \/ a = 2 \/ a = 3 \/ a = 4 \/ a = 5 \/ a = 6 \/
               a = 7 \/ a = 8 \/ a = 9 \/ a = 10 \/ a = 11 \/ a = 12 \/
               a = 13 \/ a = 14 \/ a = 15) by lia.
  assert (Eb : b = 0 \/ b = 1 \/ b = 2 \/ b = 3 \/ b = 4 \/ b = 5 \/ b = 6 \/
               b = 7 \/ b = 8 \/ b = 9 \/ b = 10 \/ b = 11 \/ b = 12 \/
               b = 13 \/ b = 14 \/ b = 15) by lia.
  repeat (destruct Ea as [-> | Ea]); try subst a;
    repeat (destruct Eb as [-> | Eb]); try subst b; reflexivity.
Qed.


Lemma hexbyte_inj (a b a' b' : Z) :
  0 <= a < 16 -> 0 <= b < 16 -> 0 <= a' < 16 -> 0 <= b' < 16 ->
  hexbyte a b = hexbyte a' b' -> a = a' /\ b = b'.
Proof.
  intros Ha Hb Ha' Hb' E. unfold hexbyte in E.
  rewrite !lor_shiftl_4 in E by assumption.
  apply z2b_inj_small in E; lia.
Qed.

(** *** Changing one hex digit changes one decoded byte *)

Lemma hex_DecodeString_cons2 a b s :
  hex_DecodeString (String a (String b s)) =
  match fromHexChar a with
  | None => inl (ErrHexInvalidByte a)
  | Some x =>
      match fromHexChar b with
      | None => inl (ErrHexInvalidByte b)
      | Some y =>
          match hex_DecodeString s with
          | inl e => inl e
          | inr bs => inr (hexbyte x y :: bs)
          end
      end
  end.
Proof. reflexivity. Qed.

Lemma hex_digit_change (pre post : string) (c c' : ascii) (v' : Z) (bs : list byte) :
  hex_DecodeString (pre ++ String c post) = inr bs ->
  fromHexChar c' = Some v' ->
  fromHexChar c <> Some v' ->
  exists bs1 x x' bs2,
    bs = bs1 ++ x :: bs2 /\
    hex_DecodeString (pre ++ String c' post) = inr (bs1 ++ x' :: bs2) /\
    x <> x'.
Proof.
  intros H Hc' Hne. revert bs H.
  induction pre as [|a|a b pre IH] using string_pair_ind; intros bs H.
  - (* the digit is the high half of a byte *)
    cbn [append] in *. destruct post as [|d post]; [cbn in H; destruct (fromHexChar c); discriminate|].
    rewrite hex_DecodeString_cons2 in *. rewrite Hc'.
    destruct (fromHexChar c) as [v|] eqn:Hc; [|discriminate].
    destruct (fromHexChar d) as [y|] eqn:Hd; [|discriminate].
    destruct (hex_DecodeString post) as [e|bs2]; [discriminate|].
    injection H as <-.
    exists [], (hexbyte v y), (hexbyte v' y), bs2. repeat split.
    intros E. apply hexbyte_inj in E; eauto using fromHexChar_range.
    destruct E as [-> _]. now apply Hne.
  - (* the digit is the low half of a byte *)
    cbn [append] in *.
    rewrite hex_DecodeString_cons2 in *. rewrite Hc'.
    destruct (fromHexChar a) as [x|] eqn:Ha; [|discriminate].
    destruct (fromHexChar c) as [v|] eqn:Hc; [|discriminate].
    destruct (hex_DecodeString post) as [e|bs2]; [discriminate|].
    injection H as <-.
    exists [], (hexbyte x v), (hexbyte x v'), bs2. repeat split.
    intros E. apply hexbyte_inj in E; eauto using fromHexChar_range.
    destruct E as [_ ->]. now apply Hne.
  - cbn [append] in *. rewrite hex_DecodeString_cons2 in *.
    destruct (fromHexChar a) as [x|]; [|discriminate].
    destruct (fromHexChar b) as [y|]; [|discriminate].
    destruct (hex_DecodeString (pre ++ String c post)) as [e|bs0] eqn:E0;
      [discriminate|].
    injection H as <-.
    destruct (IH bs0 eq_refl) as (bs1 & u & u' & bs2 & -> & E' & Hu).
    rewrite E'.
    exists (hexbyte x y :: bs1), u, u', bs2. repeat split. exact Hu.
Qed.

(** *** The checksums see every byte *)


Lemma sumz_app l1 l2 : sumz (l1 ++ l2) = sumz l1 + sumz l2.
Proof. induction l1 as [|b l1 IH]; cbn [app sumz]; lia. Qed.

Lemma ihex_sum_fold l acc :
  fold_left (fun cs b => cs + b2z b) l acc = acc + sumz l.
Proof.
  revert acc. induction l as [|b l IH]; intros acc; cbn [fold_left sumz].
  - lia.
  - rewrite IH. lia.
Qed.

Lemma ihex_calcChecksum_sum l : Ihex.calcChecksum l = z2b (- sumz l).
Proof. unfold Ihex.calcChecksum. now rewrite ihex_sum_fold. Qed.

Lemma srec_sum_fold l acc :
  fold_left (fun cs v => (cs + b2z v) mod 256) l (acc mod 256) =
  (acc + sumz l) mod 256.
Proof.
  revert acc. induction l as [|b l IH]; intros acc; cbn [fold_left sumz].
  - now rewrite Z.add_0_r.
  - rewrite IH. rewrite Z.add_assoc.
    rewrite <- (Zplus_mod_idemp_l (acc mod 256 + b2z b)).
    rewrite (Zplus_mod_idemp_l acc). rewrite Zplus_mod_idemp_l. reflexivity.
Qed.

Lemma lxor_255 (b : byte) : Z.lxor (b2z b) 255 = 255 - b2z b.
Proof. destruct b; reflexivity. Qed.

Lemma srec_calcChecksum_sum l :
  Srec.calcChecksum l = z2b (255 - sumz l mod 256).
Proof.
  unfold Srec.calcChecksum.
  change 0 with (0 mod 256) at 1. rewrite srec_sum_fold. cbn [Z.add].
  rewrite <- (b2z_z2b (sumz l)). now rewrite lxor_255.
Qed.

Lemma ihex_checksum_change l1 l2 (x x' : byte) :
  x <> x' ->
  Ihex.calcChecksum (l1 ++ x :: l2) <> Ihex.calcChecksum (l1 ++ x' :: l2).
Proof.
  intros Hx E. rewrite !ihex_calcChecksum_sum in E.
  apply (f_equal b2z) in E. rewrite !b2z_z2b in E.
  rewrite !sumz_app in E. cbn [sumz] in E.
  pose proof (b2z_range x). pose proof (b2z_range x').
  apply Hx, b2z_inj. Z.to_euclidean_division_equations. lia.
Qed.

Lemma srec_checksum_change l1 l2 (x x' : byte) :
  x <> x' ->
  Srec.calcChecksum (l1 ++ x :: l2) <> Srec.calcChecksum (l1 ++ x' :: l2).
Proof.
  intros Hx E. rewrite !srec_calcChecksum_sum in E.
  apply (f_equal b2z) in E. rewrite !b2z_z2b in E.
  rewrite !sumz_app in E. cbn [sumz] in E.
  pose proof (b2z_range x). pose proof (b2z_range x').
  apply Hx, b2z_inj. Z.to_euclidean_division_equations. lia.
Qed.

Lemma split_last_or_nil {A} (l : list A) : l = [] \/ exists l' z, l = l' ++ [z].
Proof.
  destruct l as [|a l]; [now left|right].
  destruct (@exists_last _ (a :: l)) as (l' & z & E); [discriminate|].
  now exists l', z.
Qed.

Lemma ihex_pop_mismatch (bs1 bs2 : list byte) (x x' : byte) :
  x <> x' ->
  last (bs1 ++ x :: bs2) x00 = Ihex.calcChecksum (removelast (bs1 ++ x :: bs2)) ->
  last (bs1 ++ x' :: bs2) x00 <> Ihex.calcChecksum (removelast (bs1 ++ x' :: bs2)).
Proof.
  intros Hx E.
  destruct (split_last_or_nil bs2) as [-> | (bs2' & z & ->)].
  - rewrite last_last, removelast_last in *. congruence.
  - change (?a :: ?l ++ [z]) with ((a :: l) ++ [z]) in *.
    rewrite !app_assoc in *. rewrite last_last, removelast_last in *.
    rewrite E. apply ihex_checksum_change. exact Hx.
Qed.

Lemma ihex_digit_change (m : ascii) (pre post : string) (c c' : ascii)
      (v' : Z) (rec : Ihex.HexRec) :
  Ihex.decodeRecord (String m (pre ++ String c post)) = Return (inr rec) ->
  fromHexChar c' = Some v' ->
  fromHexChar c <> Some v' ->
  Ihex.decodeRecord (String m (pre ++ String c' post)) =
    Return (inl (ErrNew "Bad checksum detected")).
Proof.
  intros H Hc' Hne. unfold Ihex.decodeRecord in *.
  destruct (hex_DecodeString (pre ++ String c post)) as [e|b0] eqn:D;
    [discriminate|].
  destruct (hex_digit_change _ _ _ _ _ _ D Hc' Hne)
    as (bs1 & x & x' & bs2 & -> & D' & Hx).
  rewrite D'.
  destruct (bs1 ++ x :: bs2) as [|y0 l0] eqn:E0; [discriminate|]. rewrite <- E0 in *.
  destruct (bs1 ++ x' :: bs2) as [|y1 l1] eqn:E1;
    [now destruct bs1|]. rewrite <- E1 in *.
  destruct (Byte.eqb (last (bs1 ++ x :: bs2) x00) _) eqn:C; cbn [negb] in H;
    [|discriminate].
  apply Byte.byte_dec_bl in C.
  pose proof (ihex_pop_mismatch bs1 bs2 x x' Hx C) as N.
  destruct (Byte.eqb (last (bs1 ++ x' :: bs2) x00) _) eqn:C'; cbn [negb];
    [|reflexivity].
  apply Byte.byte_dec_bl in C'. contradiction.
Qed.

(** *** Strings and their slices *)

Lemma slen_nonneg s : 0 <= slen s.
Proof. unfold slen. lia. Qed.

Lemma slen_cons c s : slen (String c s) = slen s + 1.
Proof. unfold slen. cbn [String.length]. lia. Qed.

Lemma slen_app (p q : string) : slen (p ++ q)%string = slen p + slen q.
Proof.
  induction p as [|c p IH]; cbn [append].
  - unfold slen at 2. cbn. lia.
  - rewrite !slen_cons, IH. lia.
Qed.

Lemma slen_0 s : slen s = 0 -> s = "".
Proof. destruct s; [reflexivity|]. rewrite slen_cons. pose proof (slen_nonneg s). lia. Qed.

Lemma sapp_nil_r (s : string) : (s ++ "")%string = s.
Proof. induction s as [|c s IH]; cbn [append]; congruence. Qed.

Lemma sapp_assoc (a b c : string) : ((a ++ b) ++ c = a ++ b ++ c)%string.
Proof. induction a as [|x a IH]; cbn [append]; congruence. Qed.

Lemma take_app (p q : string) : take (String.length p) (p ++ q) = Some p.
Proof.
  induction p as [|c p IH]; cbn [append String.length take]; [reflexivity|].
  now rewrite IH.
Qed.

Lemma drop_app (p q : string) : drop (String.length p) (p ++ q) = Some q.
Proof. induction p as [|c p IH]; cbn [append String.length drop]; auto. Qed.

Lemma take_spec n s t : take n s = Some t -> exists q, s = (t ++ q)%string /\ String.length t = n.
Proof.
  revert s t. induction n as [|n IH]; intros s t; cbn [take].
  - intros [= <-]. now exists s.
  - destruct s as [|c s]; [discriminate|].
    destruct (take n s) as [t'|] eqn:E; [|discriminate].
    intros [= <-]. destruct (IH _ _ E) as (q & -> & L).
    exists q. cbn [append String.length]. now rewrite L.
Qed.

Lemma drop_spec n s u : drop n s = Some u -> exists p, s = (p ++ u)%string /\ String.length p = n.
Proof.
  revert s u. induction n as [|n IH]; intros s u; cbn [drop].
  - intros [= <-]. now exists "".
  - destruct s as [|c s]; [discriminate|]. intros E.
    destruct (IH _ _ E) as (p & -> & L).
    exists (String c p). cbn [append String.length]. now rewrite L.
Qed.

(** What a slice expression that does not panic returns. *)
Lemma str_slice_inv lo hi s u :
  str_slice lo hi s = Return u ->
  exists p q, s = (p ++ u ++ q)%string /\ slen p = lo /\ slen u = hi - lo.
Proof.
  unfold str_slice.
  destruct (Z.ltb_spec lo 0) as [|Hlo]; [discriminate|].
  destruct (Z.ltb_spec hi lo) as [|Hhi]; [discriminate|]. cbn [orb].
  destruct (take (Z.to_nat hi) s) as [t|] eqn:T; [|discriminate].
  destruct (drop (Z.to_nat lo) t) as [u'|] eqn:D; [|discriminate].
  intros [= <-].
  destruct (take_spec _ _ _ T) as (q & -> & Lt).
  destruct (drop_spec _ _ _ D) as (p & -> & Lp).
  exists p, q. rewrite sapp_assoc. split; [reflexivity|].
  assert (slen (p ++ u') = hi) by (unfold slen; lia).
  rewrite slen_app in *. unfold slen in *. lia.
Qed.

(** A slice expression within bounds returns the part it names. *)
Lemma str_slice_app (p u q : string) :
  str_slice (slen p) (slen p + slen u) (p ++ u ++ q) = Return u.
Proof.
  unfold str_slice.
  pose proof (slen_nonneg p). pose proof (slen_nonneg u).
  replace (slen p <? 0) with false by (symmetry; apply Z.ltb_ge; lia).
  replace (slen p + slen u <? slen p) with false by (symmetry; apply Z.ltb_ge; lia).
  cbn [orb]. rewrite <- slen_app. unfold slen. rewrite !Nat2Z.id.
  rewrite <- sapp_assoc, take_app, drop_app. reflexivity.
Qed.

Lemma sapp_split (p q p' q' : string) :
  (p ++ q = p' ++ q')%string -> slen p <= slen p' ->
  exists w, p' = (p ++ w)%string /\ q = (w ++ q')%string.
Proof.
  revert p'. induction p as [|c p IH]; intros p' E L; cbn [append] in *.
  - exists p'. auto.
  - destruct p' as [|c' p'].
    + rewrite slen_cons in L. pose proof (slen_nonneg p). unfold slen in L at 2. cbn in L. lia.
    + cbn [append] in E. injection E as -> E. rewrite !slen_cons in L.
      destruct (IH p' E) as (w & -> & ->); [lia|]. now exists w.
Qed.

Lemma string_split_nat (n : nat) (s : string) :
  (n <= String.length s)%nat ->
  exists p q, s = (p ++ q)%string /\ String.length p = n.
Proof.
  revert s. induction n as [|n IH]; intros s Hn.
  - now exists "", s.
  - destruct s as [|c s]; cbn [String.length] in Hn; [lia|].
    destruct (IH s) as (p & q & -> & L); [lia|].
    exists (String c p), q. cbn [append String.length]. now rewrite L.
Qed.

Lemma string_split (n : Z) (s : string) :
  0 <= n <= slen s -> exists p q, s = (p ++ q)%string /\ slen p = n.
Proof.
  intros Hn. destruct (string_split_nat (Z.to_nat n) s) as (p & q & -> & L).
  - unfold slen in Hn. lia.
  - exists p, q. split; [reflexivity|]. unfold slen. lia.
Qed.

Lemma str_slice_eq lo hi (s p u q : string) :
  s = (p ++ u ++ q)%string -> slen p = lo -> slen p + slen u = hi ->
  str_slice lo hi s = Return u.
Proof. intros -> <- <-. apply str_slice_app. Qed.

Lemma str_slice_bounds lo hi s u :
  str_slice lo hi s = Return u -> 0 <= lo /\ lo <= hi /\ hi <= slen s /\ slen u = hi - lo.
Proof.
  intros H. destruct (str_slice_inv _ _ _ _ H) as (p & q & -> & Lp & Lu).
  rewrite !slen_app. pose proof (slen_nonneg p). pose proof (slen_nonneg u).
  pose proof (slen_nonneg q). lia.
Qed.

(** *** The frame of an S-record line *)



Lemma addr_end_cases t : addr_end t = 8 \/ addr_end t = 10 \/ addr_end t = 12.
Proof. unfold addr_end. destruct (Srec.is16 t), (Srec.is24 t); auto. Qed.

Lemma srecTypeMap_values h :
  let t := Srec.strmap_index Srec.srecTypeMap h in
  Srec.is16 t || Srec.is24 t || Srec.is32 t = true.
Proof.
  unfold Srec.strmap_index, Srec.srecTypeMap, Srec.srecEnums.
  cbn [fold_left]. unfold Srec.strmap_set, Srec.strmap_empty.
  repeat match goal with
         | |- context [String.eqb h ?k] => destruct (String.eqb h k)
         end; reflexivity.
Qed.

Lemma srec_fields_eq h r :
  let t := Srec.strmap_index Srec.srecTypeMap h in
  Srec.fields t r =
  Some (bind (str_slice 4 (addr_end t) r) (fun address =>
        bind (str_slice_from (addr_end t) r) (fun data =>
        Return (address, data, ovhd_of t)))).
Proof.
  pose proof (srecTypeMap_values h) as V. cbv zeta in *.
  unfold Srec.fields, addr_end, ovhd_of.
  destruct (Srec.is16 _); [reflexivity|].
  destruct (Srec.is24 _); [reflexivity|].
  destruct (Srec.is32 _); [reflexivity|discriminate].
Qed.

(** What the body of [decodeRecord] computes on a line cut into its
    fields. *)
Lemma srec_body_frame (t1 t2 : ascii) (u1 u2 v ck : string) :
  let h := String t1 (String t2 "") in
  let t := Srec.strmap_index Srec.srecTypeMap h in
  slen u1 = 2 -> slen u2 = addr_end t - 4 -> slen ck = 2 ->
  Srec.decodeRecord_body (String t1 (String t2 (u1 ++ u2 ++ v ++ ck))) =
  match strconv_ParseUint16 ck 8 with
  | inl err => Return (inl err)
  | inr cs =>
  match Srec.calcChecksumHexAscii (u1 ++ u2 ++ v) with
  | inl err => Return (inl err)
  | inr csCalc =>
  if negb (Byte.eqb (z2b cs) csCalc) then Return (inl (ErrNew "Checksum error"))
  else
  match hex_DecodeString v with
  | inl err => Return (inl (ErrWrap "Data chars bad" err))
  | inr binData =>
  match strconv_ParseUint16 u2 32 with
  | inl err => Return (inl (ErrWrap "Address field error" err))
  | inr addrBin =>
  match strconv_ParseUint16 u1 8 with
  | inl err => Return (inl (ErrWrap "Byte-count field error" err))
  | inr bc =>
  if negb (bc =? len binData + ovhd_of t) then Return (inl (ErrNew "byte-count error"))
  else Return (inr (Srec.mkHexRec (Srec.uint32 addrBin) t binData))
  end end end end end.
Proof.
  intros h t L1 L2 Lck.
  set (r := String t1 (String t2 (u1 ++ u2 ++ v ++ ck))).
  assert (Lh : slen h = 2) by reflexivity.
  assert (Lr : slen r = slen v + addr_end t + 2).
  { change r with (h ++ u1 ++ u2 ++ v ++ ck)%string. rewrite !slen_app. lia. }
  pose proof (slen_nonneg v) as Nv.
  unfold Srec.decodeRecord_body.
  assert (E1 : str_slice_to 2 r = Return h).
  { apply (str_slice_eq 0 2 r "" h (u1 ++ u2 ++ v ++ ck)); [reflexivity|reflexivity|].
    rewrite Lh. reflexivity. }
  assert (E2 : str_slice 2 4 r = Return u1).
  { apply (str_slice_eq 2 4 r h u1 (u2 ++ v ++ ck)); [reflexivity|exact Lh|lia]. }
  assert (E3 : str_slice 2 (slen r - 2) r = Return (u1 ++ u2 ++ v)%string).
  { apply (str_slice_eq _ _ r h (u1 ++ u2 ++ v) ck); [|exact Lh|].
    - unfold r, h. cbn [append]. now rewrite !sapp_assoc.
    - rewrite !slen_app. lia. }
  assert (E4 : str_slice 4 (addr_end t) r = Return u2).
  { apply (str_slice_eq _ _ r (h ++ u1) u2 (v ++ ck)).
    - unfold r, h. cbn [append]. reflexivity.
    - rewrite slen_app. lia.
    - rewrite slen_app. lia. }
  assert (E5 : str_slice_from (addr_end t) r = Return (v ++ ck)%string).
  { unfold str_slice_from.
    apply (str_slice_eq _ _ r (h ++ u1 ++ u2) (v ++ ck) "").
    - unfold r, h. cbn [append]. now rewrite !sapp_assoc, sapp_nil_r.
    - rewrite !slen_app. lia.
    - rewrite !slen_app. lia. }
  assert (E6 : str_slice_from (slen (v ++ ck) - 2) (v ++ ck) = Return ck).
  { unfold str_slice_from.
    apply (str_slice_eq _ _ _ v ck ""); [now rewrite sapp_nil_r| |];
      rewrite slen_app; lia. }
  assert (E7 : str_slice_to (slen (v ++ ck) - 2) (v ++ ck) = Return v).
  { unfold str_slice_to.
    apply (str_slice_eq _ _ _ "" v ck); [reflexivity|reflexivity|].
    rewrite slen_app. change (slen "") with 0. lia. }
  rewrite E1. cbn [bind]. rewrite E2. cbn [bind]. rewrite E3. cbn [bind].
  pose proof (srec_fields_eq h r) as F. cbv zeta in F.
  change (Srec.strmap_index Srec.srecTypeMap h) with t in F |- *.
  rewrite F.
  rewrite E4. cbn [bind]. rewrite E5. cbn [bind]. rewrite E6. cbn [bind].
  rewrite E7. cbn [bind].
  reflexivity.
Qed.

Lemma srec_body_canon (t1 t2 : ascii) (u1 u2 v ck : string) :
  let h := String t1 (String t2 "") in
  let t := Srec.strmap_index Srec.srecTypeMap h in
  slen u1 = 2 -> slen u2 = addr_end t - 4 -> slen ck = 2 ->
  exists K,
    Srec.decodeRecord_body (String t1 (String t2 (u1 ++ u2 ++ v ++ ck))) =
    match strconv_ParseUint16 ck 8 with
    | inl err => Return (inl err)
    | inr cs =>
        match Srec.calcChecksumHexAscii (u1 ++ u2 ++ v) with
        | inl err => Return (inl err)
        | inr csCalc =>
            if negb (Byte.eqb (z2b cs) csCalc)
            then Return (inl (ErrNew "Checksum error"))
            else K
        end
    end.
Proof.
  intros h t L1 L2 Lck. eexists.
  rewrite (srec_body_frame t1 t2 u1 u2 v ck L1 L2 Lck). reflexivity.
Qed.

Lemma split_frame (k : Z) (csData : string) :
  k = 8 \/ k = 10 \/ k = 12 -> k - 2 <= slen csData ->
  exists u1 u2 v, csData = (u1 ++ u2 ++ v)%string /\ slen u1 = 2 /\ slen u2 = k - 4.
Proof.
  intros Hk L.
  destruct (string_split 2 csData) as (u1 & w & -> & L1); [lia|].
  rewrite slen_app in L.
  destruct (string_split (k - 4) w) as (u2 & v & -> & L2); [lia|].
  now exists u1, u2, v.
Qed.

(** A line whose checksum field disagrees with its body is rejected with
    "Checksum error", provided it is long enough for its address field. *)
Lemma srec_gate (t1 t2 : ascii) (csData ck : string) (cs : Z) (bs : list byte) :
  let t := Srec.strmap_index Srec.srecTypeMap (String t1 (String t2 "")) in
  slen ck = 2 -> addr_end t - 2 <= slen csData ->
  strconv_ParseUint16 ck 8 = inr cs ->
  hex_DecodeString csData = inr bs ->
  z2b cs <> Srec.calcChecksum bs ->
  Srec.decodeRecord (String t1 (String t2 (csData ++ ck))) =
    Return (inl (ErrNew "Checksum error")).
Proof.
  intros t Lck L P D N.
  destruct (split_frame (addr_end t) csData (addr_end_cases t) L)
    as (u1 & u2 & v & -> & L1 & L2).
  destruct (srec_body_canon t1 t2 u1 u2 v ck L1 L2 Lck) as (K & E).
  unfold Srec.decodeRecord. rewrite !sapp_assoc. rewrite E, P.
  unfold Srec.calcChecksumHexAscii. rewrite D.
  destruct (Byte.eqb (z2b cs) (Srec.calcChecksum bs)) eqn:C.
  - apply Byte.byte_dec_bl in C. contradiction.
  - reflexivity.
Qed.

(** What a line that decodes is made of. *)
Lemma srec_frame (t1 t2 : ascii) (body : string) (rec : Srec.HexRec) :
  let t := Srec.strmap_index Srec.srecTypeMap (String t1 (String t2 "")) in
  Srec.decodeRecord (String t1 (String t2 body)) = Return (inr rec) ->
  exists csData ck cs bs,
    body = (csData ++ ck)%string /\ slen ck = 2 /\
    addr_end t - 2 <= slen csData /\
    strconv_ParseUint16 ck 8 = inr cs /\
    hex_DecodeString csData = inr bs /\
    z2b cs = Srec.calcChecksum bs.
Proof.
  intros t H.
  set (r := String t1 (String t2 body)) in *.
  (* the line is long enough *)
  assert (Len : addr_end t + 2 <= slen r).
  { revert H. unfold Srec.decodeRecord, Srec.decodeRecord_body.
    change (str_slice_to 2 r) with (Return (String t1 (String t2 ""))).
    cbn [bind].
    destruct (str_slice 2 4 r) as [byteCount|]; [|discriminate]. cbn [bind].
    destruct (str_slice 2 (slen r - 2) r) as [csData|]; [|discriminate].
    cbn [bind].
    pose proof (srec_fields_eq (String t1 (String t2 "")) r) as F.
    cbv zeta in F. change (Srec.strmap_index _ _) with t in F |- *.
    rewrite F.
    destruct (str_slice 4 (addr_end t) r) as [address|]; [|discriminate].
    cbn [bind].
    destruct (str_slice_from (addr_end t) r) as [data0|] eqn:E5; [|discriminate].
    cbn [bind].
    destruct (str_slice_from (slen data0 - 2) data0) as [ck|] eqn:E6;
      [|discriminate].
    intros _.
    apply str_slice_bounds in E5. apply str_slice_bounds in E6. lia. }
  assert (Lb : slen r = slen body + 2).
  { unfold r. rewrite !slen_cons. lia. }
  destruct (string_split (slen body - 2) body) as (csData & ck & -> & Lcs).
  { pose proof (addr_end_cases t). lia. }
  rewrite slen_app in Lb, Lcs.
  assert (Lck : slen ck = 2) by lia.
  assert (L : addr_end t - 2 <= slen csData) by lia.
  destruct (split_frame (addr_end t) csData (addr_end_cases t) L)
    as (u1 & u2 & v & -> & L1 & L2).
  destruct (srec_body_canon t1 t2 u1 u2 v ck L1 L2 Lck) as (K & E).
  unfold Srec.decodeRecord in H. unfold r in H. rewrite !sapp_assoc in H.
  rewrite E in H.
  destruct (strconv_ParseUint16 ck 8) as [e|cs] eqn:P; [discriminate|].
  unfold Srec.calcChecksumHexAscii in H.
  destruct (hex_DecodeString (u1 ++ u2 ++ v)) as [e|bs] eqn:D; [discriminate|].
  destruct (Byte.eqb (z2b cs) (Srec.calcChecksum bs)) eqn:C; [|discriminate].
  apply Byte.byte_dec_bl in C.
  exists (u1 ++ u2 ++ v)%string, ck, cs, bs.
  rewrite !sapp_assoc. repeat split; auto.
Qed.

Lemma slen_1 s : slen s = 1 -> exists d, s = String d "".
Proof.
  destruct s as [|d s]; [discriminate|]. rewrite slen_cons. intros H.
  exists d. f_equal. apply slen_0. lia.
Qed.

Lemma ParseUint16_2 (a b : ascii) (x y : Z) :
  fromHexChar a = Some x -> fromHexChar b = Some y ->
  strconv_ParseUint16 (String a (String b "")) 8 = inr (x * 16 + y).
Proof.
  intros Ha Hb. pose proof (fromHexChar_range _ _ Ha).
  pose proof (fromHexChar_range _ _ Hb).
  unfold strconv_ParseUint16. cbn [parse_digits]. rewrite Ha, Hb.
  change (2 ^ 8 - 1) with 255. cbn [Z.mul Z.add].
  replace (255 <? x) with false by (symmetry; apply Z.ltb_ge; lia).
  replace (255 <? x * 16 + y) with false by (symmetry; apply Z.ltb_ge; lia).
  reflexivity.
Qed.

Lemma ParseUint16_2_inv (a b : ascii) (cs : Z) :
  strconv_ParseUint16 (String a (String b "")) 8 = inr cs ->
  exists x y, fromHexChar a = Some x /\ fromHexChar b = Some y /\
              cs = x * 16 + y.
Proof.
  destruct (fromHexChar a) as [x|] eqn:Ha.
  2:{ unfold strconv_ParseUint16. cbn [parse_digits]. rewrite Ha. discriminate. }
  destruct (fromHexChar b) as [y|] eqn:Hb.
  2:{ unfold strconv_ParseUint16. cbn [parse_digits]. rewrite Ha, Hb.
      destruct (_ <? _); discriminate. }
  rewrite (ParseUint16_2 a b x y Ha Hb). intros [= <-]. now exists x, y.
Qed.

Lemma srec_digit_change (t1 t2 : ascii) (pre post : string) (c c' : ascii)
      (v' : Z) (rec : Srec.HexRec) :
  Srec.decodeRecord (String t1 (String t2 (pre ++ String c post))) =
    Return (inr rec) ->
  fromHexChar c' = Some v' ->
  fromHexChar c <> Some v' ->
  Srec.decodeRecord (String t1 (String t2 (pre ++ String c' post))) =
    Return (inl (ErrNew "Checksum error")).
Proof.
  intros H Hc' Hne.
  destruct (srec_frame _ _ _ _ H)
    as (csData & ck & cs & bs & Eb & Lck & L & P & D & C).
  cbv zeta in L.
  destruct (Z.lt_ge_cases (slen pre) (slen csData)) as [Hpos|Hpos].
  - (* the digit lies in the part the checksum covers *)
    assert (Eb' : ((pre ++ String c "") ++ post = csData ++ ck)%string).
    { rewrite sapp_assoc. exact Eb. }
    destruct (sapp_split _ _ _ _ Eb') as (w & -> & ->).
    { rewrite slen_app, slen_cons. change (slen "") with 0. lia. }
    rewrite sapp_assoc in D. cbn [append] in D.
    destruct (hex_digit_change _ _ _ _ _ _ D Hc' Hne)
      as (bs1 & x & x' & bs2 & -> & D' & Hx).
    replace (pre ++ String c' (w ++ ck))%string
      with ((pre ++ String c' w) ++ ck)%string
      by (now rewrite sapp_assoc).
    apply (srec_gate t1 t2 _ ck cs (bs1 ++ x' :: bs2) Lck);
      [|exact P|exact D'|].
    + rewrite !slen_app, !slen_cons in *. change (slen "") with 0 in L. lia.
    + rewrite C. apply srec_checksum_change. exact Hx.
  - (* the digit lies in the checksum field *)
    symmetry in Eb.
    destruct (sapp_split _ _ _ _ Eb Hpos) as (w & -> & ->).
    rewrite sapp_assoc.
    rewrite slen_app, slen_cons in Lck.
    pose proof (slen_nonneg w). pose proof (slen_nonneg post).
    assert (Hw : slen w = 0 /\ slen post = 1 \/ slen w = 1 /\ slen post = 0) by lia.
    destruct Hw as [[Hw Hp] | [Hw Hp]].
    + apply slen_0 in Hw. subst w. destruct (slen_1 _ Hp) as (d & ->).
      cbn [append] in *.
      destruct (ParseUint16_2_inv _ _ _ P) as (x & y & Hx & Hy & ->).
      apply (srec_gate t1 t2 csData _ (v' * 16 + y) bs);
        [reflexivity|exact L|now apply ParseUint16_2|exact D|].
      rewrite <- C. intros E.
      pose proof (fromHexChar_range _ _ Hx). pose proof (fromHexChar_range _ _ Hy).
      pose proof (fromHexChar_range _ _ Hc').
      apply z2b_inj_small in E; [|lia|lia].
      apply Hne. rewrite Hx. f_equal. lia.
    + apply slen_0 in Hp. subst post. destruct (slen_1 _ Hw) as (d & ->).
      cbn [append] in *.
      destruct (ParseUint16_2_inv _ _ _ P) as (x & y & Hx & Hy & ->).
      apply (srec_gate t1 t2 csData _ (x * 16 + v') bs);
        [reflexivity|exact L|now apply ParseUint16_2|exact D|].
      rewrite <- C. intros E.
      pose proof (fromHexChar_range _ _ Hx). pose proof (fromHexChar_range _ _ Hy).
      pose proof (fromHexChar_range _ _ Hc').
      apply z2b_inj_small in E; [|lia|lia].
      apply Hne. rewrite Hy. f_equal. lia.
Qed.

(** C5, against the claim: changing the last character of the EOF line from
    F to f leaves a line that decodes, to the same record. *)
Lemma C5_case_change_still_decodes :
  Ihex.decodeRecord ":00000001FF" =
    Return (inr (Ihex.mkHexRec 0 Ihex.EndOfFile [])) /\
  Ihex.decodeRecord ":00000001Ff" =
    Return (inr (Ihex.mkHexRec 0 Ihex.EndOfFile [])).
Proof. split; reflexivity. Qed.

(** C5, as amended.  In a line that decodes, replacing one hex digit (any
    character after the marker of an Intel Hex line, any character after the
    two-character type of an S-record line) by a hex digit of another value
    gives a line that the decoder rejects with its checksum error. *)
Theorem C5_digit_change_fails_checksum :
  (forall (m : ascii) (pre post : string) (c c' : ascii) (v' : Z)
          (rec : Ihex.HexRec),
      Ihex.decodeRecord (String m (pre ++ String c post)) = Return (inr rec) ->
      fromHexChar c' = Some v' ->
      fromHexChar c <> Some v' ->
      Ihex.decodeRecord (String m (pre ++ String c' post)) =
        Return (inl (ErrNew "Bad checksum detected"))) /\
  (forall (t1 t2 : ascii) (pre post : string) (c c' : ascii) (v' : Z)
          (rec : Srec.HexRec),
      Srec.decodeRecord (String t1 (String t2 (pre ++ String c post))) =
        Return (inr rec) ->
      fromHexChar c' = Some v' ->
      fromHexChar c <> Some v' ->
      Srec.decodeRecord (String t1 (String t2 (pre ++ String c' post))) =
        Return (inl (ErrNew "Checksum error"))).
Proof.
  split.
  - exact ihex_digit_change.
  - exact srec_digit_change.
Qed.

Lemma C5_digit_change_witness :
  Ihex.decodeRecord ":0300300102337A1E" =
    Return (inl (ErrNew "Bad checksum detected")) /\
  Srec.decodeRecord "S111003848656C6C6F20776F726C642E0A0043" =
    Return (inl (ErrNew "Checksum error")).
Proof.
  split.
  - apply (proj1 C5_digit_change_fails_checksum
             ":"%char "0300300" "02337A1E" "0"%char "1"%char 1
             (Ihex.mkHexRec 48 Ihex.Data [x02; x33; x7a]));
      [reflexivity|reflexivity|discriminate].
  - apply (proj2 C5_digit_change_fails_checksum
             "S"%char "1"%char "11003848656C6C6F20776F726C642E0A004" ""
             "2"%char "3"%char 3
             (Srec.mkHexRec 56 Srec.S1Data payload_0038));
      [reflexivity|reflexivity|discriminate].
Defined.

(** *** The type map of the S-record reader (C10) *)

Lemma take_SS n a b rest :
  take (S (S n)) (String a (String b rest)) =
  match take n rest with Some t => Some (String a (String b t)) | None => None end.
Proof. cbn [take]. now destruct (take n rest). Qed.

Lemma str_slice_skip2 lo hi a b rest :
  2 <= lo ->
  str_slice lo hi (String a (String b rest)) = str_slice (lo - 2) (hi - 2) rest.
Proof.
  intros Hlo. unfold str_slice.
  replace (lo <? 0) with false by (symmetry; apply Z.ltb_ge; lia).
  replace (lo - 2 <? 0) with false by (symmetry; apply Z.ltb_ge; lia).
  cbn [orb].
  destruct (Z.ltb_spec hi lo) as [H|H].
  - replace (hi - 2 <? lo - 2) with true by (symmetry; apply Z.ltb_lt; lia).
    reflexivity.
  - replace (hi - 2 <? lo - 2) with false by (symmetry; apply Z.ltb_ge; lia).
    replace (Z.to_nat hi) with (S (S (Z.to_nat (hi - 2)))) by lia.
    replace (Z.to_nat lo) with (S (S (Z.to_nat (lo - 2)))) by lia.
    rewrite take_SS. destruct (take _ rest) as [t|]; reflexivity.
Qed.

Lemma slen_SS a b rest : slen (String a (String b rest)) = slen rest + 2.
Proof. unfold slen. cbn [String.length]. lia. Qed.

Lemma str_slice_to_2 a b rest :
  str_slice_to 2 (String a (String b rest)) = Return (String a (String b "")).
Proof. reflexivity. Qed.

(** The decoder looks at the first two characters only to index the type map. *)
Lemma srec_body_header a b a' b' rest :
  Srec.strmap_index Srec.srecTypeMap (String a (String b "")) =
  Srec.strmap_index Srec.srecTypeMap (String a' (String b' "")) ->
  Srec.decodeRecord_body (String a (String b rest)) =
  Srec.decodeRecord_body (String a' (String b' rest)).
Proof.
  intros E. unfold Srec.decodeRecord_body.
  rewrite !str_slice_to_2. cbn [bind]. rewrite E.
  rewrite !(str_slice_skip2 2) by lia.
  rewrite !slen_SS.
  unfold Srec.fields, str_slice_from.
  rewrite !slen_SS.
  rewrite !(str_slice_skip2 4), !(str_slice_skip2 8), !(str_slice_skip2 10),
    !(str_slice_skip2 12) by lia.
  reflexivity.
Qed.

Lemma srec_fields_known h r : Srec.fields (Srec.strmap_index Srec.srecTypeMap h) r <> None.
Proof.
  pose proof (srecTypeMap_values h) as V. cbv zeta in V.
  unfold Srec.fields.
  destruct (Srec.is16 _); [discriminate|].
  destruct (Srec.is24 _); [discriminate|].
  destruct (Srec.is32 _); [discriminate|]. discriminate V.
Qed.

Lemma hex_DecodeString_error s e :
  hex_DecodeString s = inl e -> is_hex_error e.
Proof.
  revert e. induction s as [|a|a b s IH] using string_pair_ind; intros e.
  - discriminate.
  - cbn. destruct (fromHexChar a); intros [= <-]; exact I.
  - cbn. destruct (fromHexChar a); [|intros [= <-]; exact I].
    destruct (fromHexChar b); [|intros [= <-]; exact I].
    destruct (hex_DecodeString s); [|discriminate].
    intros [= <-]. now apply IH.
Qed.

Lemma parse_digits_error s0 s m n e :
  parse_digits s0 s m n = inl e -> is_strconv_error e.
Proof.
  revert n. induction s as [|c s IH]; intros n; cbn.
  - discriminate.
  - destruct (fromHexChar c); [|intros [= <-]; exact I].
    destruct (m <? _); [intros [= <-]; exact I|apply IH].
Qed.

Lemma strconv_ParseUint16_error s n e :
  strconv_ParseUint16 s n = inl e -> is_strconv_error e.
Proof.
  destruct s; cbn - [parse_digits]; [intros [= <-]; exact I|].
  apply parse_digits_error.
Qed.

Lemma srec_never_unknown_type (r : string) :
  Srec.decodeRecord r <> Return (inl (ErrNew "Unknown SREC type")).
Proof.
  unfold Srec.decodeRecord, Srec.decodeRecord_body, bind.
  destruct (str_slice_to 2 r) as [header|]; [|discriminate].
  destruct (str_slice 2 4 r) as [byteCount|]; [|discriminate].
  destruct (str_slice 2 (slen r - 2) r) as [csData|]; [|discriminate].
  pose proof (srec_fields_known header r) as K.
  destruct (Srec.fields _ r) as [flds|]; [|congruence].
  destruct flds as [[[address data0] ovhd]|]; [|discriminate].
  repeat (break_match; try discriminate); cbn [recover]; try discriminate;
    intros [= ->];
    match goal with
    | H : strconv_ParseUint16 _ _ = inl _ |- _ =>
        exact (strconv_ParseUint16_error _ _ _ H)
    | H : Srec.calcChecksumHexAscii _ = inl _ |- _ =>
        unfold Srec.calcChecksumHexAscii in H;
        destruct (hex_DecodeString csData) eqn:D; [|discriminate];
        injection H as ->; exact (hex_DecodeString_error _ _ D)
    end.
Qed.

Lemma srec_success_type r rec :
  Srec.decodeRecord r = Return (inr rec) ->
  exists h, str_slice_to 2 r = Return h /\
            Srec.RecordType rec = Srec.strmap_index Srec.srecTypeMap h.
Proof.
  unfold Srec.decodeRecord, Srec.decodeRecord_body, bind.
  destruct (str_slice_to 2 r) as [header|]; [|discriminate].
  intros H. exists header. split; [reflexivity|]. revert H.
  repeat (break_match; try discriminate).
  cbn [recover]. intros H. injection H as <-. reflexivity.
Qed.



(** *** Coalescing (C2, C7, C8) *)

Lemma firstn_length_app {A} (p q : list A) : firstn (List.length p) (p ++ q) = p.
Proof.
  rewrite firstn_app, Nat.sub_diag, firstn_all. cbn. apply app_nil_r.
Qed.

(** A first write of a non-empty payload into a zero buffer. *)
Lemma Buffer_Write_first g (p : list byte) :
  p <> [] ->
  exists arr,
    Buffer_Write g [] None p = ([arr], Some (mkSlice 0 (List.length p))) /\
    firstn (List.length p) arr = p /\
    (List.length p <= List.length arr)%nat.
Proof.
  intros Hp. unfold Buffer_Write. cbn [Buffer_Len Buffer_cap Nat.sub].
  destruct p as [|b p]; [congruence|]. cbn [List.length Nat.leb].
  eexists. split; [reflexivity|]. cbn [resolve app Nat.add].
  split.
  - change (b :: p ++ ?q) with ((b :: p) ++ q).
    apply (firstn_length_app (b :: p)).
  - cbn [List.length]. rewrite length_app. lia.
Qed.

Lemma ihex_single g a d :
  d <> [] ->
  Ihex.CoalesceDataRecs g [Ihex.mkHexRec a Ihex.Data d] = [Ihex.mkHexRec a Ihex.Data d].
Proof.
  intros Hd. destruct (Buffer_Write_first g d Hd) as (arr & E & F & _).
  unfold Ihex.CoalesceDataRecs, Ihex.run, Ihex.initial.
  cbn [fold_left]. unfold Ihex.step, Ihex.processDataRec, Ihex.startGroup.
  cbn [Ihex.RecordType Ihex.dataRecGroup negb Ihex.mem Ihex.data Buffer_Reset Ihex.Data_ Ihex.Address Ihex.outList].
  change (Byte.eqb Ihex.Data Ihex.Data) with true. cbv iota.
  rewrite E. cbn [Ihex.data Buffer_Len s_len].
  assert (L : (0 <? List.length d)%nat = true)
    by (destruct d; [congruence|reflexivity]).
  rewrite L.
  cbn [Ihex.emitJumboDataRec Ihex.outList Ihex.mem app map Ihex.deref Ihex.dataBaseAddr Ihex.data Buffer_Bytes resolve s_len s_arr array_of nth].
  now rewrite F.
Qed.

Lemma srec_isData_cases t : Srec.isData t = true -> t = 1 \/ t = 2 \/ t = 3.
Proof.
  unfold Srec.isData, Srec.S1Data, Srec.S2Data, Srec.S3Data. 
  intros H. apply orb_true_iff in H. destruct H as [H|H].
  - apply orb_true_iff in H. destruct H as [H|H]; apply Z.eqb_eq in H; auto.
  - apply Z.eqb_eq in H; auto.
Qed.

Lemma srec_single g a t d :
  Srec.isData t = true -> d <> [] ->
  Srec.CoalesceDataRecs g [Srec.mkHexRec a t d] = [Srec.mkHexRec a t d].
Proof.
  intros Ht Hd. destruct (Buffer_Write_first g d Hd) as (arr & E & F & _).
  assert (P : Srec.preferredDataRecType [Srec.mkHexRec a t d] = t).
  { destruct (srec_isData_cases t Ht) as [-> | [-> | ->]]; reflexivity. }
  unfold Srec.CoalesceDataRecs, Srec.run, Srec.initial. rewrite P.
  cbn [fold_left]. unfold Srec.step, Srec.processDataRec, Srec.startGroup.
  cbn [Srec.RecordType Srec.dataRecGroup negb Srec.mem Srec.data Buffer_Reset Srec.Data Srec.Address Srec.outList].
  rewrite Ht, E. cbn [Srec.data Buffer_Len s_len].
  assert (L : (0 <? List.length d)%nat = true)
    by (destruct d; [congruence|reflexivity]).
  rewrite L.
  cbn [Srec.emitJumboDataRec Srec.outList Srec.mem app map Srec.deref Srec.dataBaseAddr Srec.data Buffer_Bytes resolve s_len s_arr array_of nth].
  now rewrite F.
Qed.

Lemma srec_lines_decode :
  Srec.processRecords [""; line_0000; line_0038; ""] =
  Return ([Srec.mkHexRec 0 Srec.S1Data payload_0000;
           Srec.mkHexRec 56 Srec.S1Data payload_0038], None).
Proof. vm_compute. reflexivity. Qed.

Lemma overwrite_0 (p arr : list byte) :
  overwrite 0 p arr = p ++ skipn (List.length p) arr.
Proof. reflexivity. Qed.

Lemma srec_coalesce_two_lines (g : nat -> nat -> nat -> nat) :
  exists d1,
    Srec.CoalesceDataRecs g [Srec.mkHexRec 0 Srec.S1Data payload_0000;
                             Srec.mkHexRec 56 Srec.S1Data payload_0038] =
      [Srec.mkHexRec 0 Srec.S1Data d1;
       Srec.mkHexRec 56 Srec.S1Data payload_0038] /\
    List.length d1 = 28%nat.
Proof.
  destruct (Buffer_Write_first g payload_0000) as (arr & E & F & L);
    [discriminate|].
  change (List.length payload_0000) with 28%nat in *.
  exists (firstn 28 (overwrite 0 payload_0038 arr)).
  unfold Srec.CoalesceDataRecs, Srec.run, Srec.initial.
  change (Srec.preferredDataRecType _) with Srec.S1Data.
  cbn [fold_left]. unfold Srec.step, Srec.processDataRec, Srec.startGroup.
  cbn [Srec.RecordType Srec.dataRecGroup negb Srec.mem Srec.data Buffer_Reset
       Srec.Data Srec.Address Srec.outList].
  change (Srec.isData Srec.S1Data) with true. cbv iota.
  rewrite E.
  cbn [Srec.RecordType Srec.dataRecGroup negb Srec.mem Srec.data Buffer_Reset
       Srec.Data Srec.Address Srec.outList Srec.addressCounter
       Srec.emitJumboDataRec Srec.dataBaseAddr s_arr s_len Buffer_Bytes].
  change (56 =? _) with false. cbv iota.
  unfold Buffer_Write.
  cbn [Buffer_Len Buffer_cap s_len s_arr array_of nth Nat.sub].
  change (List.length payload_0038) with 14%nat.
  rewrite Nat.sub_0_r.
  replace (Nat.leb 14 (List.length arr)) with true
    by (symmetry; apply Nat.leb_le; lia).
  cbn [heap_set Srec.data Srec.mem Srec.outList Buffer_Len s_len Nat.ltb Nat.leb
       Nat.add Srec.emitJumboDataRec Srec.dataBaseAddr Buffer_Bytes Buffer_Reset
       app map Srec.deref resolve s_arr array_of nth].
  rewrite overwrite_0.
  change 14%nat with (List.length payload_0038) at 2.
  rewrite firstn_length_app.
  split; [reflexivity|].
  rewrite length_firstn, length_app, length_skipn.
  change (List.length payload_0038) with 14%nat. lia.
Qed.

(** C8, against the claim: a single data record with an empty payload is
    not emitted again; the output is empty. *)
Lemma C8_empty_payload_dropped :
  Ihex.CoalesceDataRecs go_growCap [Ihex.mkHexRec 16 Ihex.Data []] = [] /\
  Srec.CoalesceDataRecs go_growCap [Srec.mkHexRec 16 Srec.S1Data []] = [].
Proof. split; reflexivity. Qed.

(** C8, as amended.  Coalescing a sequence that consists of one data record
    with a non-empty payload gives exactly that record: same address, same
    type, same payload; in both families and whatever the growth rule of
    the buffer. *)
Theorem C8_single_data_record (g : nat -> nat -> nat -> nat) (a : Z)
        (t : Srec.srecType) (d : list byte) :
  d <> [] ->
  Srec.isData t = true ->
  Ihex.CoalesceDataRecs g [Ihex.mkHexRec a Ihex.Data d] =
    [Ihex.mkHexRec a Ihex.Data d] /\
  Srec.CoalesceDataRecs g [Srec.mkHexRec a t d] = [Srec.mkHexRec a t d].
Proof.
  intros Hd Ht. split; [now apply ihex_single|now apply srec_single].
Qed.

Lemma C8_single_data_record_witness :
  Ihex.CoalesceDataRecs go_growCap [Ihex.mkHexRec 48 Ihex.Data [x02; x33]] =
    [Ihex.mkHexRec 48 Ihex.Data [x02; x33]] /\
  Srec.CoalesceDataRecs go_growCap [Srec.mkHexRec 48 Srec.S2Data [x02; x33]] =
    [Srec.mkHexRec 48 Srec.S2Data [x02; x33]].
Proof.
  apply (C8_single_data_record go_growCap 48 Srec.S2Data [x02; x33]);
    [discriminate|reflexivity].
Defined.

(** C2, against the claim: the two lines do not coalesce to one record at
    address 0. *)
Lemma C2_not_one_merged_record :
  ~ (exists recs d,
        Srec.processRecords [line_0000; line_0038] = Return (recs, None) /\
        Srec.CoalesceDataRecs go_growCap recs =
          [Srec.mkHexRec 0 Srec.S1Data d]).
Proof.
  intros (recs & d & H1 & H2).
  vm_compute in H1. injection H1 as <-.
  apply (f_equal (@List.length _)) in H2. vm_compute in H2. discriminate.
Qed.

(** C2, as amended.  The two lines decode to data records at 0x0000 (28
    bytes) and 0x0038 (14 bytes); they are not contiguous, and coalescing
    gives two data records of type S1, at 0x0000 with 28 bytes and at 0x0038
    with the 14 bytes of the second line. *)
Theorem C2_two_lines_two_records (g : nat -> nat -> nat -> nat) :
  exists d1,
    Srec.processRecords [line_0000; line_0038] =
      Return ([Srec.mkHexRec 0 Srec.S1Data payload_0000;
               Srec.mkHexRec 56 Srec.S1Data payload_0038], None) /\
    Srec.CoalesceDataRecs g [Srec.mkHexRec 0 Srec.S1Data payload_0000;
                             Srec.mkHexRec 56 Srec.S1Data payload_0038] =
      [Srec.mkHexRec 0 Srec.S1Data d1;
       Srec.mkHexRec 56 Srec.S1Data payload_0038] /\
    List.length d1 = 28%nat.
Proof.
  destruct (srec_coalesce_two_lines g) as (d1 & E & L).
  exists d1. split; [vm_compute; reflexivity|]. split; assumption.
Qed.

(** The record a coalescer emits keeps the slice [data.Bytes()], and the
    buffer is reset and written again: the payload of an emitted record
    changes when a later run is written over the same backing array.  On
    [ihex_runs] the first pass returns the run at 1000 with the payload it
    had in the input and the run at 0 overwritten; the second pass, whose
    buffer grows at other moments, overwrites the run at 1000 with the
    bytes of the run at 2000.  So the payload bytes after two passes differ
    from those after one, under the growth rule of the current
    [bytes.Buffer] and under the rule of the older releases, and in both
    families. *)
Lemma coalesce_twice_payload_aliasing :
  Ihex.CoalesceDataRecs go_growCap ihex_runs =
    [Ihex.mkHexRec 0 Ihex.Data (repeat x03 80);
     Ihex.mkHexRec 1000 Ihex.Data (repeat x03 96);
     Ihex.mkHexRec 2000 Ihex.Data (repeat x04 150)] /\
  Ihex.CoalesceDataRecs go_growCap (Ihex.CoalesceDataRecs go_growCap ihex_runs) =
    [Ihex.mkHexRec 0 Ihex.Data (repeat x03 80);
     Ihex.mkHexRec 1000 Ihex.Data (repeat x04 96);
     Ihex.mkHexRec 2000 Ihex.Data (repeat x04 150)] /\
  Ihex.CoalesceDataRecs go_growCap_legacy
    (Ihex.CoalesceDataRecs go_growCap_legacy ihex_runs) <>
  Ihex.CoalesceDataRecs go_growCap_legacy ihex_runs /\
  Srec.CoalesceDataRecs go_growCap (Srec.CoalesceDataRecs go_growCap srec_runs) <>
  Srec.CoalesceDataRecs go_growCap srec_runs /\
  Srec.CoalesceDataRecs go_growCap_legacy
    (Srec.CoalesceDataRecs go_growCap_legacy srec_runs) <>
  Srec.CoalesceDataRecs go_growCap_legacy srec_runs.
Proof.
  split; [vm_compute; reflexivity|]. split; [vm_compute; reflexivity|].
  repeat split; intros H.
  - apply (f_equal (map (fun r => nth 0 (Ihex.Data_ r) x00))) in H.
    vm_compute in H. discriminate.
  - apply (f_equal (map (fun r => nth 0 (Srec.Data r) x00))) in H.
    vm_compute in H. discriminate.
  - apply (f_equal (map (fun r => nth 0 (Srec.Data r) x00))) in H.
    vm_compute in H. discriminate.
Qed.

(* ================================================================= *)
(** ** Round trip through the srec writer (C1) *)

(** *** Hex encoding and decoding are inverse *)

Lemma hex_nibbles (b : byte) :
  fromHexChar (hexdigit (Z.shiftr (b2z b) 4)) = Some (Z.shiftr (b2z b) 4) /\
  fromHexChar (hexdigit (Z.land (b2z b) 15)) = Some (Z.land (b2z b) 15) /\
  hexbyte (Z.shiftr (b2z b) 4) (Z.land (b2z b) 15) = b /\
  Z.shiftr (b2z b) 4 * 16 + Z.land (b2z b) 15 = b2z b.
Proof. destruct b; repeat split. Qed.

Lemma hex_newline_free (b : byte) :
  Ascii.eqb (hexdigit (Z.shiftr (b2z b) 4)) newline = false /\
  Ascii.eqb (hexdigit (Z.land (b2z b) 15)) newline = false.
Proof. destruct b; split; reflexivity. Qed.

Lemma hex_decode_encode (bs : list byte) :
  hex_DecodeString (hex_EncodeToString bs) = inr bs.
Proof.
  induction bs as [|b bs IH]; [reflexivity|].
  cbn [hex_EncodeToString]. rewrite hex_DecodeString_cons2.
  destruct (hex_nibbles b) as (-> & -> & E & _). now rewrite IH, E.
Qed.

Lemma hex_encode_app (a b : list byte) :
  hex_EncodeToString (a ++ b) = (hex_EncodeToString a ++ hex_EncodeToString b)%string.
Proof.
  induction a as [|x a IH]; [reflexivity|].
  cbn [app hex_EncodeToString append]. now rewrite IH.
Qed.

Lemma slen_hex (bs : list byte) : slen (hex_EncodeToString bs) = 2 * len bs.
Proof.
  induction bs as [|b bs IH]; [reflexivity|].
  cbn [hex_EncodeToString]. rewrite !slen_cons, IH. unfold len.
  cbn [List.length]. lia.
Qed.

Lemma no_newline_hex (bs : list byte) : no_newline (hex_EncodeToString bs) = true.
Proof.
  induction bs as [|b bs IH]; [reflexivity|].
  cbn [hex_EncodeToString no_newline].
  destruct (hex_newline_free b) as [-> ->]. exact IH.
Qed.

(** *** Lines *)

Lemma split_lines_line (l rest : string) :
  no_newline l = true ->
  split_lines (l ++ String newline rest) = l :: split_lines rest.
Proof.
  induction l as [|c l IH]; cbn [append no_newline].
  - intros _. cbn [split_lines]. now rewrite Ascii.eqb_refl.
  - intros H. apply andb_true_iff in H. destruct H as [Hc Hl].
    cbn [split_lines]. apply negb_true_iff in Hc. rewrite Hc.
    now rewrite (IH Hl).
Qed.

(** *** Numbers written in hex *)

Lemma be_value_ge bs n : 0 <= n -> n <= be_value bs n.
Proof.
  revert n. unfold be_value.
  induction bs as [|b bs IH]; intros n Hn; cbn [fold_left]; [lia|].
  pose proof (b2z_range b).
  etransitivity; [|apply IH; lia]. lia.
Qed.

Lemma parse_digits_hex s0 bs maxVal n :
  0 <= n -> be_value bs n <= maxVal ->
  parse_digits s0 (hex_EncodeToString bs) maxVal n = inr (be_value bs n).
Proof.
  revert n. induction bs as [|b bs IH]; intros n Hn Hmax; [reflexivity|].
  cbn [hex_EncodeToString parse_digits].
  destruct (hex_nibbles b) as (-> & -> & _ & E).
  pose proof (b2z_range b) as Rb.
  assert (0 <= Z.shiftr (b2z b) 4) by (apply Z.shiftr_nonneg; lia).
  assert (0 <= Z.land (b2z b) 15) by (apply Z.land_nonneg; lia).
  unfold be_value in *. cbn [fold_left] in Hmax |- *.
  pose proof (be_value_ge bs (n * 256 + b2z b) ltac:(lia)) as G.
  unfold be_value in G.
  replace (maxVal <? n * 16 + Z.shiftr (b2z b) 4) with false
    by (symmetry; apply Z.ltb_ge; lia).
  replace ((n * 16 + Z.shiftr (b2z b) 4) * 16 + Z.land (b2z b) 15)
    with (n * 256 + b2z b) by lia.
  replace (maxVal <? n * 256 + b2z b) with false
    by (symmetry; apply Z.ltb_ge; lia).
  apply IH; lia.
Qed.

Lemma ParseUint16_hex bs bits :
  bs <> [] -> be_value bs 0 <= 2 ^ bits - 1 ->
  strconv_ParseUint16 (hex_EncodeToString bs) bits = inr (be_value bs 0).
Proof.
  intros Hbs Hmax. unfold strconv_ParseUint16.
  destruct bs as [|b bs]; [congruence|].
  change (hex_EncodeToString (b :: bs)) with
    (String (hexdigit (Z.shiftr (b2z b) 4))
       (String (hexdigit (Z.land (b2z b) 15)) (hex_EncodeToString bs))).
  cbv iota.
  change (String (hexdigit (Z.shiftr (b2z b) 4))
            (String (hexdigit (Z.land (b2z b) 15)) (hex_EncodeToString bs)))
    with (hex_EncodeToString (b :: bs)).
  apply parse_digits_hex; [lia|exact Hmax].
Qed.

Lemma len_nonneg {A} (l : list A) : 0 <= len l.
Proof. unfold len. lia. Qed.

Lemma byte_add_small n k :
  0 <= n -> 0 <= k -> n + k < 256 -> b2z (Srec.byte_add n k) = n + k.
Proof.
  intros Hn Hk H. unfold Srec.byte_add. rewrite !b2z_z2b.
  rewrite (Z.mod_small n) by lia. apply Z.mod_small. lia.
Qed.

Lemma be_value_1 (b : byte) : be_value [b] 0 = b2z b.
Proof. reflexivity. Qed.

Lemma be_value_16 (a : Z) :
  0 <= a < 65536 -> be_value (skipn 2 (Srec.bigEndianBin a)) 0 = a.
Proof.
  intros Ha. unfold Srec.bigEndianBin, be_value. cbn [skipn fold_left].
  rewrite !b2z_z2b, Z.shiftr_div_pow2 by lia.
  change (2 ^ 8) with 256. Z.to_euclidean_division_equations. lia.
Qed.

Lemma be_value_24 (a : Z) :
  0 <= a < 16777216 -> be_value (skipn 1 (Srec.bigEndianBin a)) 0 = a.
Proof.
  intros Ha. unfold Srec.bigEndianBin, be_value. cbn [skipn fold_left].
  rewrite !b2z_z2b, !Z.shiftr_div_pow2 by lia.
  change (2 ^ 8) with 256. change (2 ^ 16) with 65536.
  Z.to_euclidean_division_equations. lia.
Qed.

(** The reader gives back the data record the writer emitted, in the 16-bit
    and 24-bit address modes. *)
Lemma srec_decode_dataLine_16 (a : Z) (p : list byte) :
  0 <= a < 65536 -> len p <= 252 ->
  Srec.decodeRecord (srec_dataLine Srec.Addr16 a p) =
    Return (inr (Srec.mkHexRec a Srec.S1Data p)).
Proof.
  intros Ha Hp. pose proof (len_nonneg p) as Np.
  unfold srec_dataLine. change (Srec.Addr16 =? Srec.Addr16) with true. cbv iota.
  set (bc := Srec.byte_add (len p) 3).
  set (ab := skipn 2 (Srec.bigEndianBin a)).
  set (cs := Srec.calcChecksum (([bc] ++ ab) ++ p)).
  change (ascii_of_byte "1") with "1"%char.
  rewrite <- !app_assoc, !hex_encode_app.
  unfold Srec.decodeRecord.
  rewrite (srec_body_frame "S" "1" (hex_EncodeToString [bc])
             (hex_EncodeToString ab) (hex_EncodeToString p)
             (hex_EncodeToString [cs])); try reflexivity.
  change (Srec.strmap_index Srec.srecTypeMap "S1") with Srec.S1Data.
  rewrite (ParseUint16_hex [cs] 8), be_value_1;
    [|discriminate|rewrite be_value_1; pose proof (b2z_range cs); change (2 ^ 8 - 1) with 255; lia].
  unfold Srec.calcChecksumHexAscii.
  rewrite <- !hex_encode_app, hex_decode_encode.
  rewrite z2b_b2z.
  replace (Byte.eqb cs (Srec.calcChecksum ([bc] ++ ab ++ p))) with true
    by (symmetry; apply Byte.byte_dec_lb; unfold cs; now rewrite <- app_assoc).
  cbn [negb]. rewrite hex_decode_encode.
  rewrite (ParseUint16_hex ab 32);
    [|discriminate|unfold ab; rewrite be_value_16 by lia; change (2 ^ 32 - 1) with 4294967295; lia].
  rewrite (ParseUint16_hex [bc] 8), be_value_1;
    [|discriminate|rewrite be_value_1; pose proof (b2z_range bc); change (2 ^ 8 - 1) with 255; lia].
  unfold bc. rewrite byte_add_small by lia.
  change (ovhd_of Srec.S1Data) with 3. rewrite Z.eqb_refl. cbn [negb recover].
  unfold ab. rewrite be_value_16 by lia.
  unfold Srec.uint32. rewrite Z.mod_small by lia. reflexivity.
Qed.

Lemma srec_decode_dataLine_24 (a : Z) (p : list byte) :
  0 <= a < 16777216 -> len p <= 251 ->
  Srec.decodeRecord (srec_dataLine Srec.Addr24 a p) =
    Return (inr (Srec.mkHexRec a Srec.S2Data p)).
Proof.
  intros Ha Hp. pose proof (len_nonneg p) as Np.
  unfold srec_dataLine. change (Srec.Addr24 =? Srec.Addr16) with false.
  change (Srec.Addr24 =? Srec.Addr24) with true. cbv iota.
  set (bc := Srec.byte_add (len p) 4).
  set (ab := skipn 1 (Srec.bigEndianBin a)).
  set (cs := Srec.calcChecksum (([bc] ++ ab) ++ p)).
  change (ascii_of_byte "2") with "2"%char.
  rewrite <- !app_assoc, !hex_encode_app.
  unfold Srec.decodeRecord.
  rewrite (srec_body_frame "S" "2" (hex_EncodeToString [bc])
             (hex_EncodeToString ab) (hex_EncodeToString p)
             (hex_EncodeToString [cs])); try reflexivity.
  change (Srec.strmap_index Srec.srecTypeMap "S2") with Srec.S2Data.
  rewrite (ParseUint16_hex [cs] 8), be_value_1;
    [|discriminate|rewrite be_value_1; pose proof (b2z_range cs); change (2 ^ 8 - 1) with 255; lia].
  unfold Srec.calcChecksumHexAscii.
  rewrite <- !hex_encode_app, hex_decode_encode.
  rewrite z2b_b2z.
  replace (Byte.eqb cs (Srec.calcChecksum ([bc] ++ ab ++ p))) with true
    by (symmetry; apply Byte.byte_dec_lb; unfold cs; now rewrite <- app_assoc).
  cbn [negb]. rewrite hex_decode_encode.
  rewrite (ParseUint16_hex ab 32);
    [|discriminate|unfold ab; rewrite be_value_24 by lia; change (2 ^ 32 - 1) with 4294967295; lia].
  rewrite (ParseUint16_hex [bc] 8), be_value_1;
    [|discriminate|rewrite be_value_1; pose proof (b2z_range bc); change (2 ^ 8 - 1) with 255; lia].
  unfold bc. rewrite byte_add_small by lia.
  change (ovhd_of Srec.S2Data) with 4. rewrite Z.eqb_refl. cbn [negb recover].
  unfold ab. rewrite be_value_24 by lia.
  unfold Srec.uint32. rewrite Z.mod_small by lia. reflexivity.
Qed.

(** *** The srec writer on an in-memory sink *)

Lemma srec_emitDataRecord_mem (x : Srec.Writer string) (p : list byte) :
  Srec.emitDataRecord x p =
  (Srec.mkWriter
     (Srec.w x ++ srec_dataLine (Srec.addrMode x) (Srec.addr x) p ++ nl)%string
     (Srec.uint32 (Srec.addr x + Srec.uint32 (len p)))
     (Srec.uint32 (Srec.count x + 1)) (Srec.fin x) (Srec.fifo x)
     (Srec.emitCountRec x) (Srec.emitStartRec x) (Srec.startAddr x)
     (Srec.addrMode x) (Srec.width x) (Srec.header x) (Srec.headerEmitted x),
   None).
Proof.
  unfold Srec.emitDataRecord, srec_dataLine, Srec.emitLine.
  destruct (Srec.addrMode x =? Srec.Addr16); [reflexivity|].
  destruct (Srec.addrMode x =? Srec.Addr24); [reflexivity|].
  destruct (Srec.addrMode x =? Srec.Addr32); reflexivity.
Qed.

Lemma len_firstn_10 (f : list byte) : 10 <= len f -> len (firstn 10 f) = 10.
Proof. unfold len. rewrite length_firstn. lia. Qed.

Lemma len_skipn_10 (f : list byte) : 10 <= len f -> len (skipn 10 f) = len f - 10.
Proof. unfold len. rewrite length_skipn. lia. Qed.

(** What [Write] and then [Flush] leave in the sink. *)
Lemma srec_Write_loop_mem (fuel : nat) :
  forall (x : Srec.Writer string) (wc n : Z),
    Srec.width x = 10 ->
    len (Srec.fifo x) < 10 * Z.of_nat fuel ->
    0 <= Srec.addr x -> Srec.addr x + len (Srec.fifo x) < 4294967296 ->
    exists x1,
      Srec.Write_loop fuel x wc n = Some (Return (x1, (n, None))) /\
      snd (Srec.Flush x1) = None /\
      Srec.w (fst (Srec.Flush x1)) =
        (Srec.w x ++ srec_text (Srec.addrMode x)
                       (srec_records fuel (Srec.addr x) (Srec.fifo x)))%string /\
      Srec.fin x1 = Srec.fin x /\
      Srec.emitCountRec x1 = Srec.emitCountRec x /\
      Srec.emitStartRec x1 = Srec.emitStartRec x.
Proof.
  induction fuel as [|k IH]; intros x wc n Hw Hf Ha Hb.
  - pose proof (len_nonneg (Srec.fifo x)). lia.
  - cbn [Srec.Write_loop srec_records]. rewrite Hw.
    destruct (Z.leb_spec 10 (len (Srec.fifo x))) as [Hfull|Hrunt].
    + unfold Srec.fifo_Next. change (10 <? 0) with false. cbv iota.
      replace (Nat.min (Z.to_nat 10) (List.length (Srec.fifo x))) with 10%nat
        by (unfold len in Hfull; lia).
      rewrite srec_emitDataRecord_mem.
      cbn [Srec.set_fifo Srec.w Srec.addr Srec.count Srec.fin Srec.fifo
           Srec.emitCountRec Srec.emitStartRec Srec.startAddr Srec.addrMode
           Srec.width Srec.header Srec.headerEmitted].
      rewrite len_firstn_10 by assumption.
      change (Srec.uint32 10) with 10.
      unfold Srec.uint32 at 1. rewrite Z.mod_small by lia.
      set (x2 := Srec.mkWriter _ _ _ _ _ _ _ _ _ _ _ _).
      destruct (IH x2 (wc + 10) n) as (x1 & E & F1 & F2 & F3 & F4 & F5).
      * exact Hw.
      * unfold x2. cbn [Srec.fifo]. rewrite len_skipn_10 by assumption. lia.
      * unfold x2. cbn [Srec.addr]. lia.
      * unfold x2. cbn [Srec.addr Srec.fifo].
        rewrite len_skipn_10 by assumption. lia.
      * exists x1. rewrite E. split; [reflexivity|]. split; [exact F1|].
        unfold x2 in F2, F3, F4, F5.
        cbn [Srec.w Srec.addr Srec.fifo Srec.addrMode Srec.emitCountRec
             Srec.emitStartRec Srec.fin] in F2, F3, F4, F5.
        rewrite F2. cbn [srec_text]. rewrite !sapp_assoc. auto.
    + exists x. split; [reflexivity|].
      unfold Srec.Flush.
      destruct (Z.ltb_spec 0 (len (Srec.fifo x))) as [Hpos|Hzero].
      * rewrite srec_emitDataRecord_mem. cbn [fst snd Srec.w Srec.set_fifo
          Srec.addr Srec.addrMode Srec.emitCountRec Srec.emitStartRec srec_text
          Srec.fifo].
        rewrite sapp_nil_r. auto.
      * cbn [fst snd srec_text]. rewrite sapp_nil_r. auto.
Qed.

Lemma srec_Flush_flags (x : Srec.Writer string) :
  Srec.emitCountRec (fst (Srec.Flush x)) = Srec.emitCountRec x /\
  Srec.emitStartRec (fst (Srec.Flush x)) = Srec.emitStartRec x.
Proof.
  unfold Srec.Flush. destruct (0 <? len (Srec.fifo x)); [|auto].
  rewrite srec_emitDataRecord_mem. auto.
Qed.

Lemma srec_encode_text (m : Srec.AddrMode) (p : list byte) :
  len p < 4294967296 ->
  srec_encode (S (List.length p)) m p =
    Some (srec_text m (srec_records (S (List.length p)) 0 p)).
Proof.
  intros Hp. unfold srec_encode, Srec.Write, Srec.NewWriter.
  cbn [Srec.fin Srec.header Srec.set_fifo Srec.fifo Srec.w Srec.addr
       Srec.count Srec.emitCountRec Srec.emitStartRec Srec.startAddr
       Srec.addrMode Srec.width Srec.headerEmitted app].
  unfold Srec.set_fifo.
  cbn [Srec.fin Srec.header Srec.fifo Srec.w Srec.addr
       Srec.count Srec.emitCountRec Srec.emitStartRec Srec.startAddr
       Srec.addrMode Srec.width Srec.headerEmitted app].
  set (x0 := Srec.mkWriter _ _ _ _ p _ _ _ _ _ _ _).
  destruct (srec_Write_loop_mem (S (List.length p)) x0 0 (len p))
    as (x1 & E & F1 & F2 & F3 & F4 & F5).
  { reflexivity. }
  { unfold x0, len. cbn [Srec.fifo]. lia. }
  { unfold x0. cbn [Srec.addr]. lia. }
  { unfold x0. cbn [Srec.addr Srec.fifo]. lia. }
  rewrite E. unfold x0 in F2, F3, F4, F5.
  cbn [Srec.w Srec.addr Srec.fifo Srec.addrMode Srec.emitCountRec
       Srec.emitStartRec Srec.fin append] in F2, F3, F4, F5.
  unfold Srec.Close, Srec.Close_body. rewrite F3.
  destruct (srec_Flush_flags x1) as [G1 G2].
  destruct (Srec.Flush x1) as [x3 e3]. cbn [fst snd] in *. subst e3.
  rewrite G1, F4. rewrite G2, F5. cbn [Srec.set_fin Srec.w]. now rewrite F2.
Qed.

(** *** Reading the text back *)

Lemma no_newline_dataLine m a p : no_newline (srec_dataLine m a p) = true.
Proof.
  unfold srec_dataLine.
  destruct (m =? Srec.Addr16); [cbn [no_newline]; now rewrite no_newline_hex|].
  destruct (m =? Srec.Addr24); [cbn [no_newline]; now rewrite no_newline_hex|].
  destruct (m =? Srec.Addr32); cbn [no_newline]; now rewrite no_newline_hex.
Qed.

Lemma dataLine_nonempty m a p : (0 <? slen (srec_dataLine m a p)) = true.
Proof.
  unfold srec_dataLine.
  destruct (m =? Srec.Addr16), (m =? Srec.Addr24), (m =? Srec.Addr32);
    cbv zeta iota; rewrite slen_cons; apply Z.ltb_lt;
    match goal with |- context [slen ?s] => pose proof (slen_nonneg s) end; lia.
Qed.

Lemma srec_read_text (m : Srec.AddrMode) (t : Srec.srecType) :
  (forall a c, 0 <= a < 65536 -> len c <= 10 ->
     Srec.decodeRecord (srec_dataLine m a c) = Return (inr (Srec.mkHexRec a t c))) ->
  forall fuel a f acc,
    0 <= a -> a + len f <= 65536 ->
    Srec.processRecords_loop
      (split_lines (srec_text m (srec_records fuel a f))) acc =
    Return (acc ++ map (fun r => Srec.mkHexRec (fst r) t (snd r))
                       (srec_records fuel a f), None).
Proof.
  intros Hdec. induction fuel as [|k IH]; intros a f acc Ha Hb.
  - cbn. now rewrite app_nil_r.
  - cbn [srec_records]. pose proof (len_nonneg f) as Nf.
    destruct (Z.leb_spec 10 (len f)) as [Hfull|Hrunt].
    + cbn [srec_text map fst snd]. unfold nl. cbn [append].
      rewrite split_lines_line by apply no_newline_dataLine.
      cbn [Srec.processRecords_loop]. rewrite dataLine_nonempty.
      rewrite Hdec by (rewrite ?len_firstn_10 by assumption; lia).
      rewrite IH by (rewrite ?len_skipn_10 by assumption; lia).
      now rewrite <- app_assoc.
    + destruct (Z.ltb_spec 0 (len f)) as [Hpos|Hzero].
      * cbn [srec_text map fst snd]. unfold nl. cbn [append].
        rewrite split_lines_line by apply no_newline_dataLine.
        cbn [Srec.processRecords_loop split_lines]. rewrite dataLine_nonempty.
        rewrite Hdec by lia. reflexivity.
      * cbn. now rewrite app_nil_r.
Qed.

(** *** Coalescing a contiguous run *)

Lemma heap_set_nth (h : heap) (i : nat) (a : list byte) :
  (i < List.length h)%nat -> array_of (heap_set h i a) i = a.
Proof.
  unfold array_of. revert i. induction h as [|x h IH]; intros i Hi;
    cbn [List.length] in Hi; [lia|].
  destruct i as [|i]; cbn [heap_set nth]; [reflexivity|]. apply IH. lia.
Qed.

Lemma heap_set_length (h : heap) (i : nat) (a : list byte) :
  List.length (heap_set h i a) = List.length h.
Proof.
  revert i. induction h as [|x h IH]; intros i; [reflexivity|].
  destruct i; cbn [heap_set List.length]; [reflexivity|]. now rewrite IH.
Qed.

(** A write appends to what the buffer holds. *)
Lemma Buffer_Write_resolve (g : nat -> nat -> nat -> nat) (h : heap)
      (b : Buffer) (p : list byte) :
  buf_ok h b ->
  buf_ok (fst (Buffer_Write g h b p)) (snd (Buffer_Write g h b p)) /\
  resolve (fst (Buffer_Write g h b p)) (snd (Buffer_Write g h b p)) =
    resolve h b ++ p.
Proof.
  intros Hok. unfold Buffer_Write.
  destruct (Nat.leb_spec (List.length p) (Buffer_cap h b - Buffer_Len b))
    as [Hfit|Hgrow].
  - destruct b as [[i l]|]; cbn [fst snd].
    + cbn [buf_ok s_arr s_len Buffer_cap Buffer_Len resolve] in *.
      destruct Hok as [Hi Hl].
      rewrite heap_set_length, heap_set_nth by assumption.
      unfold overwrite.
      split.
      * split; [assumption|].
        rewrite !length_app, length_firstn, length_skipn. lia.
      * rewrite firstn_app, length_firstn.
        replace (Nat.min l (List.length (array_of h i))) with l by lia.
        rewrite firstn_firstn. replace (Nat.min (l + List.length p) l) with l by lia.
        replace (l + List.length p - l)%nat with (List.length p) by lia.
        now rewrite firstn_length_app.
    + cbn [Buffer_cap Buffer_Len] in Hfit.
      assert (p = []) by (destruct p; [reflexivity|cbn in Hfit; lia]).
      subst p. cbn [resolve buf_ok]. auto.
  - cbn [fst snd].
    assert (Lr : List.length (resolve h b) = Buffer_Len b).
    { destruct b as [[i l]|]; [|reflexivity].
      cbn [buf_ok s_arr s_len resolve Buffer_Len] in *.
      rewrite length_firstn. lia. }
    cbn [buf_ok s_arr s_len resolve]. unfold array_of.
    rewrite nth_middle, !length_app, repeat_length.
    split.
    + cbn [List.length]. lia.
    + rewrite app_assoc, <- Lr, <- length_app. apply firstn_length_app.
Qed.

Lemma srec_step_contiguous (g : nat -> nat -> nat -> nat) (pt t : Srec.srecType)
      (st : Srec.cstate) (a0 cur : Z) (acc c : list byte) :
  Srec.isData t = true ->
  0 <= cur -> cur + len c < 4294967296 ->
  in_run st a0 cur acc ->
  in_run (Srec.step g pt st (Srec.mkHexRec cur t c)) a0 (cur + len c) (acc ++ c) /\
  Srec.dataRecGroup (Srec.step g pt st (Srec.mkHexRec cur t c)) = true.
Proof.
  intros Ht Hc Hb (Hout & Hok & Hres & Hst).
  pose proof (len_nonneg c) as Nc.
  assert (U : Srec.uint32 (cur + Srec.uint32 (len c)) = cur + len c).
  { unfold Srec.uint32. rewrite (Z.mod_small (len c)) by lia.
    apply Z.mod_small. lia. }
  unfold Srec.step. cbn [Srec.RecordType]. rewrite Ht.
  unfold Srec.processDataRec.
  destruct Hst as [(Hg & Hctr & Hbase) | (Hg & -> & ->)]; rewrite Hg; cbn [negb].
  - cbn [Srec.Address]. rewrite Hctr, Z.eqb_refl.
    pose proof (Buffer_Write_resolve g (Srec.mem st) (Srec.data st) c Hok)
      as [Wok Wres].
    cbn [Srec.Data].
    destruct (Buffer_Write g (Srec.mem st) (Srec.data st) c) as [m d].
    cbn [fst snd] in *. unfold in_run.
    cbn [Srec.outList Srec.mem Srec.data Srec.dataRecGroup Srec.addressCounter
         Srec.dataBaseAddr].
    rewrite U, Wres, Hres. auto 10.
  - unfold Srec.startGroup. cbn [Srec.Data Srec.Address].
    assert (Rok : buf_ok (Srec.mem st) (Buffer_Reset (Srec.data st))).
    { destruct (Srec.data st) as [[i l]|]; cbn in *; [|exact I].
      destruct Hok. split; [assumption|lia]. }
    assert (Rres : resolve (Srec.mem st) (Buffer_Reset (Srec.data st)) = []).
    { destruct (Srec.data st) as [[i l]|]; reflexivity. }
    pose proof (Buffer_Write_resolve g (Srec.mem st) (Buffer_Reset (Srec.data st))
                  c Rok) as [Wok Wres].
    destruct (Buffer_Write g (Srec.mem st) (Buffer_Reset (Srec.data st)) c)
      as [m d].
    cbn [fst snd] in *. unfold in_run.
    cbn [Srec.outList Srec.mem Srec.data Srec.dataRecGroup Srec.addressCounter
         Srec.dataBaseAddr].
    rewrite U, Wres, Rres. cbn [app]. auto 10.
Qed.

Lemma srec_fold_run (g : nat -> nat -> nat -> nat) (pt t : Srec.srecType) :
  Srec.isData t = true ->
  forall fuel a f st a0 acc,
    len f < 10 * Z.of_nat fuel ->
    0 <= a -> a + len f < 4294967296 ->
    in_run st a0 a acc ->
    in_run (fold_left (Srec.step g pt)
              (map (fun r => Srec.mkHexRec (fst r) t (snd r))
                   (srec_records fuel a f)) st)
           a0 (a + len f) (acc ++ f).
Proof.
  intros Ht. induction fuel as [|k IH]; intros a f st a0 acc Hf Ha Hb Hin.
  - pose proof (len_nonneg f). lia.
  - cbn [srec_records]. pose proof (len_nonneg f) as Nf.
    destruct (Z.leb_spec 10 (len f)) as [Hfull|Hrunt].
    + cbn [map fold_left fst snd].
      destruct (srec_step_contiguous g pt t st a0 a acc (firstn 10 f) Ht Ha)
        as [Hin' _]; [rewrite len_firstn_10 by assumption; lia|exact Hin|].
      rewrite len_firstn_10 in Hin' by assumption.
      specialize (IH (a + 10) (skipn 10 f) _ a0 _
                     ltac:(rewrite len_skipn_10 by assumption; lia)
                     ltac:(lia)
                     ltac:(rewrite len_skipn_10 by assumption; lia) Hin').
      rewrite len_skipn_10 in IH by assumption.
      replace (a + 10 + (len f - 10)) with (a + len f) in IH by lia.
      rewrite <- app_assoc, firstn_skipn in IH. exact IH.
    + destruct (Z.ltb_spec 0 (len f)) as [Hpos|Hzero].
      * cbn [map fold_left fst snd].
        now apply srec_step_contiguous.
      * cbn [map fold_left].
        assert (f = []) by (destruct f; [reflexivity|unfold len in Hzero; cbn in Hzero; lia]).
        subst f. rewrite app_nil_r. change (len []) with 0. now rewrite Z.add_0_r.
Qed.

Lemma srec_preferred_isData lst : Srec.isData (Srec.preferredDataRecType lst) = true.
Proof.
  unfold Srec.preferredDataRecType.
  destruct (0 <? _); [reflexivity|]. destruct (0 <? _); reflexivity.
Qed.

Lemma buf_ok_Len h b : buf_ok h b -> List.length (resolve h b) = Buffer_Len b.
Proof.
  destruct b as [[i l]|]; [|reflexivity].
  cbn [buf_ok s_arr s_len resolve Buffer_Len]. intros [_ H].
  rewrite length_firstn. lia.
Qed.

(** Coalescing the records of one write gives the payload back. *)
Lemma srec_coalesce_records (g : nat -> nat -> nat -> nat) (t : Srec.srecType)
      (fuel : nat) (f : list byte) :
  Srec.isData t = true ->
  len f < 10 * Z.of_nat fuel -> len f < 4294967296 ->
  srec_payload
    (Srec.CoalesceDataRecs g
       (map (fun r => Srec.mkHexRec (fst r) t (snd r)) (srec_records fuel 0 f))) = f.
Proof.
  intros Ht Hf Hb.
  unfold Srec.CoalesceDataRecs, Srec.run.
  set (recs := map (fun r => Srec.mkHexRec (fst r) t (snd r))
                   (srec_records fuel 0 f)).
  set (pt := Srec.preferredDataRecType recs).
  assert (I0 : in_run Srec.initial 0 0 []).
  { unfold in_run, Srec.initial. cbn. auto 10. }
  set (st := fold_left (Srec.step g pt) recs Srec.initial).
  assert (Hin : in_run st 0 (0 + len f) ([] ++ f)).
  { apply srec_fold_run; [exact Ht|exact Hf|lia|lia|exact I0]. }
  destruct Hin as (Hout & Hok & Hres & _). cbn [app] in Hres.
  pose proof (buf_ok_Len _ _ Hok) as HL. rewrite Hres in HL.
  destruct (Nat.ltb_spec 0 (Buffer_Len (Srec.data st))) as [Hpos|Hzero].
  - cbn [Srec.emitJumboDataRec Srec.outList Srec.mem]. rewrite Hout.
    cbn [app map Srec.deref]. unfold Buffer_Bytes. rewrite Hres.
    unfold srec_payload. cbn [filter Srec.RecordType].
    unfold pt. rewrite srec_preferred_isData. cbn [map List.concat Srec.Data].
    apply app_nil_r.
  - rewrite Hout. cbn [map]. unfold srec_payload. cbn.
    destruct f; [reflexivity|cbn in HL; lia].
Qed.

(** Round trip in the 16-bit and 24-bit address modes: what the writer
    emits for a payload of fewer than 65536 bytes is read back without
    error, and coalescing the records gives the payload. *)
Lemma srec_roundtrip_16_24 (g : nat -> nat -> nat -> nat) (m : Srec.AddrMode)
      (p : list byte) :
  m = Srec.Addr16 \/ m = Srec.Addr24 ->
  len p < 65536 ->
  exists text recs,
    srec_encode (S (List.length p)) m p = Some text /\
    Srec.ReadFile (inr text) = Return (recs, None) /\
    srec_payload (Srec.CoalesceDataRecs g recs) = p.
Proof.
  intros Hm Hp.
  set (t := if m =? Srec.Addr16 then Srec.S1Data else Srec.S2Data).
  assert (Ht : Srec.isData t = true) by (unfold t; destruct (m =? _); reflexivity).
  assert (Hdec : forall a c, 0 <= a < 65536 -> len c <= 10 ->
            Srec.decodeRecord (srec_dataLine m a c) =
            Return (inr (Srec.mkHexRec a t c))).
  { intros a c Ha Hc. unfold t. destruct Hm as [-> | ->].
    - apply srec_decode_dataLine_16; lia.
    - apply srec_decode_dataLine_24; lia. }
  exists (srec_text m (srec_records (S (List.length p)) 0 p)).
  eexists. split; [apply srec_encode_text; lia|]. split.
  - unfold Srec.ReadFile, Srec.processRecords.
    rewrite (srec_read_text m t Hdec) by lia. reflexivity.
  - apply srec_coalesce_records; [exact Ht|unfold len; lia|lia].
Qed.

Lemma be_value_32 (a : Z) :
  0 <= a < 4294967296 -> be_value (Srec.bigEndianBin a) 0 = a.
Proof.
  intros Ha. unfold Srec.bigEndianBin, be_value. cbn [fold_left].
  rewrite !b2z_z2b, !Z.shiftr_div_pow2 by lia.
  change (2 ^ 8) with 256. change (2 ^ 16) with 65536.
  change (2 ^ 24) with 16777216.
  Z.to_euclidean_division_equations. lia.
Qed.

(** In the 32-bit address mode the byte count the writer stores is one less
    than the reader requires: every data record is rejected. *)
Lemma srec_decode_dataLine_32 (a : Z) (p : list byte) :
  0 <= a < 4294967296 -> len p <= 251 ->
  Srec.decodeRecord (srec_dataLine Srec.Addr32 a p) =
    Return (inl (ErrNew "byte-count error")).
Proof.
  intros Ha Hp. pose proof (len_nonneg p) as Np.
  unfold srec_dataLine. change (Srec.Addr32 =? Srec.Addr16) with false.
  change (Srec.Addr32 =? Srec.Addr24) with false.
  change (Srec.Addr32 =? Srec.Addr32) with true. cbv iota.
  set (bc := Srec.byte_add (len p) 4).
  set (ab := Srec.bigEndianBin a).
  set (cs := Srec.calcChecksum (([bc] ++ ab) ++ p)).
  change (ascii_of_byte "3") with "3"%char.
  rewrite <- !app_assoc, !hex_encode_app.
  unfold Srec.decodeRecord.
  rewrite (srec_body_frame "S" "3" (hex_EncodeToString [bc])
             (hex_EncodeToString ab) (hex_EncodeToString p)
             (hex_EncodeToString [cs])); try reflexivity.
  change (Srec.strmap_index Srec.srecTypeMap "S3") with Srec.S3Data.
  rewrite (ParseUint16_hex [cs] 8), be_value_1;
    [|discriminate|rewrite be_value_1; pose proof (b2z_range cs); change (2 ^ 8 - 1) with 255; lia].
  unfold Srec.calcChecksumHexAscii.
  rewrite <- !hex_encode_app, hex_decode_encode.
  rewrite z2b_b2z.
  replace (Byte.eqb cs (Srec.calcChecksum ([bc] ++ ab ++ p))) with true
    by (symmetry; apply Byte.byte_dec_lb; unfold cs; now rewrite <- app_assoc).
  cbn [negb]. rewrite hex_decode_encode.
  rewrite (ParseUint16_hex ab 32);
    [|discriminate|unfold ab; rewrite be_value_32 by lia; change (2 ^ 32 - 1) with 4294967295; lia].
  rewrite (ParseUint16_hex [bc] 8), be_value_1;
    [|discriminate|rewrite be_value_1; pose proof (b2z_range bc); change (2 ^ 8 - 1) with 255; lia].
  unfold bc. rewrite byte_add_small by lia.
  change (ovhd_of Srec.S3Data) with 5.
  replace (len p + 4 =? len p + 5) with false by (symmetry; apply Z.eqb_neq; lia).
  reflexivity.
Qed.

Lemma srec_records_nonempty fuel a (f : list byte) :
  f <> [] -> exists c rest, srec_records (S fuel) a f = (a, c) :: rest /\ len c <= 10.
Proof.
  intros Hf. cbn [srec_records].
  destruct (Z.leb_spec 10 (len f)) as [Hfull|Hrunt].
  - eexists; eexists; split; [reflexivity|]. rewrite len_firstn_10; lia.
  - destruct (Z.ltb_spec 0 (len f)) as [Hpos|Hzero].
    + eexists; eexists; split; [reflexivity|]. lia.
    + destruct f; [congruence|]. unfold len in Hzero. cbn in Hzero. lia.
Qed.

(** C1.  In the 32-bit address mode the writer stores [len(p) + 4] in the
    byte count of a data record, which holds [len(p) + 5] bytes after it:
    for every non-empty payload, the text that [Write] and [Close] emit is
    rejected by the reader with "byte-count error", so the payload does not
    come back. *)
Theorem C1_srec_addr32_roundtrip_fails (p : list byte) :
  p <> [] -> len p < 4294967296 ->
  exists text,
    srec_encode (S (List.length p)) Srec.Addr32 p = Some text /\
    Srec.ReadFile (inr text) = Return ([], Some (ErrNew "byte-count error")).
Proof.
  intros Hne Hp. eexists. split; [apply srec_encode_text; exact Hp|].
  destruct (srec_records_nonempty (List.length p) 0 p Hne) as (c & rest & -> & Hc).
  cbn [srec_text]. unfold nl. cbn [append].
  unfold Srec.ReadFile, Srec.processRecords.
  rewrite split_lines_line by apply no_newline_dataLine.
  cbn [Srec.processRecords_loop]. rewrite dataLine_nonempty.
  rewrite srec_decode_dataLine_32 by lia. reflexivity.
Qed.

Lemma C1_srec_addr32_witness :
  exists text,
    srec_encode 2 Srec.Addr32 [x41] = Some text /\
    Srec.ReadFile (inr text) = Return ([], Some (ErrNew "byte-count error")).
Proof.
  apply (C1_srec_addr32_roundtrip_fails [x41]); [discriminate|reflexivity].
Defined.

(* ================================================================= *)
(** ** Coalescing twice (C7) *)

(** *** Merging shapes is idempotent *)

Section ShapeFacts.

Variable T : Type.
Variable isData : T -> bool.
Variable M : Z.
Variable pt : T.
Hypothesis pt_data : isData pt = true.

Lemma wrap_add (b : Z) (n l : nat) :
  wrap M (wrap M (b + wrap M (Z.of_nat n)) + wrap M (Z.of_nat l)) =
  wrap M (b + wrap M (Z.of_nat (n + l))).
Proof.
  unfold wrap. rewrite Nat2Z.inj_add.
  rewrite Zplus_mod_idemp_l, Zplus_mod_idemp_r.
  rewrite (Zplus_mod_idemp_r (Z.of_nat n + Z.of_nat l)).
  replace (b + Z.of_nat n mod M + Z.of_nat l)
    with (Z.of_nat n mod M + (b + Z.of_nat l)) by lia.
  rewrite Zplus_mod_idemp_l. f_equal. lia.
Qed.

Lemma wf_open (a : Z) (l : nat) : (0 < l)%nat -> wf_run M (open_run M a l).
Proof. intros H. split; [exact H|reflexivity]. Qed.

Lemma flush_wf (r : run_state) :
  wf_run M r ->
  flush pt r = match r with Some (b, _, n) => [(b, pt, n)] | None => [] end.
Proof.
  destruct r as [[[b c] n]|]; [|reflexivity]. intros [Hn _]. cbn [flush].
  destruct (Nat.ltb_spec 0 n); [reflexivity|lia].
Qed.

(** Merging the output of a merge that starts inside a run: the run's
    record comes first and opens the same run again. *)
Lemma merge_merge (xs : list (shape T)) :
  Forall (nonempty_data isData) xs ->
  forall r, wf_run M r ->
    merge isData M pt None (merge isData M pt r xs) = merge isData M pt r xs /\
    (forall b c n b0 c0 n0,
        r = Some (b, c, n) -> b <> c0 ->
        merge isData M pt (Some (b0, c0, n0)) (merge isData M pt r xs) =
        (b0, pt, n0) :: merge isData M pt r xs).
Proof.
  induction xs as [|[[a t] l] xs IH]; intros Hxs r Hr.
  - cbn [merge]. rewrite (flush_wf r Hr).
    destruct r as [[[b c] n]|]; [|split; [reflexivity|discriminate]].
    destruct Hr as [Hn Hc]. cbn [merge]. rewrite pt_data.
    split.
    + unfold open_run. rewrite <- Hc. cbn [flush].
      destruct (Nat.ltb_spec 0 n); [reflexivity|lia].
    + intros b' c' n' b0 c0 n0 [= <- <- <-] Hne.
      replace (b =? c0) with false by (symmetry; apply Z.eqb_neq; exact Hne).
      f_equal. unfold open_run. rewrite <- Hc. cbn [flush].
      destruct (Nat.ltb_spec 0 n); [reflexivity|lia].
  - apply Forall_cons_iff in Hxs. destruct Hxs as [Hx Hxs].
    unfold nonempty_data in Hx. cbn [fst snd] in Hx.
    cbn [merge]. destruct (isData t) eqn:Ht.
    + specialize (Hx eq_refl).
      destruct r as [[[b c] n]|].
      * destruct Hr as [Hn Hc].
        destruct (Z.eqb_spec a c) as [->|Hac].
        -- (* the record continues the run *)
           assert (W : wf_run M (Some (b, wrap M (c + wrap M (Z.of_nat l)),
                                       (n + l)%nat))).
           { split; [lia|]. rewrite Hc. apply wrap_add. }
           destruct (IH Hxs _ W) as [I1 I2]. split; [exact I1|].
           intros b' c' n' b0 c0 n0 [= <- <- <-] Hne.
           now apply (I2 b _ _ b0 c0 n0 eq_refl).
        -- (* the record starts a new run *)
           destruct (IH Hxs _ (wf_open a l Hx)) as [I1 I2].
           assert (Ha : a <> wrap M (b + wrap M (Z.of_nat n))) by congruence.
           pose proof (I2 a _ _ b (wrap M (b + wrap M (Z.of_nat n))) n
                          eq_refl Ha) as J.
           split.
           ++ cbn [merge]. rewrite pt_data. unfold open_run at 1. exact J.
           ++ intros b' c' n' b0 c0 n0 [= <- <- <-] Hne.
              cbn [merge]. rewrite pt_data.
              replace (b =? c0) with false
                by (symmetry; apply Z.eqb_neq; exact Hne).
              f_equal. unfold open_run at 1. exact J.
      * destruct (IH Hxs _ (wf_open a l Hx)) as [I1 I2].
        split; [exact I1|discriminate].
    + (* a record of another type *)
      destruct (IH Hxs None I) as [I1 _].
      rewrite (flush_wf r Hr).
      destruct r as [[[b c] n]|].
      * destruct Hr as [Hn Hc]. cbn [app merge]. rewrite pt_data, Ht.
        split.
        -- unfold open_run. cbn [flush].
           destruct (Nat.ltb_spec 0 n); [|lia]. cbn [app]. now rewrite I1.
        -- intros b' c' n' b0 c0 n0 [= <- <- <-] Hne.
           replace (b =? c0) with false
             by (symmetry; apply Z.eqb_neq; exact Hne).
           f_equal. unfold open_run. cbn [flush].
           destruct (Nat.ltb_spec 0 n); [|lia]. cbn [app]. now rewrite I1.
      * cbn [app merge]. rewrite Ht. cbn [flush app].
        split; [now rewrite I1|discriminate].
Qed.

(** Merging is idempotent on sequences whose data records hold bytes. *)
Lemma merge_idempotent (xs : list (shape T)) :
  Forall (nonempty_data isData) xs ->
  merge isData M pt None (merge isData M pt None xs) = merge isData M pt None xs.
Proof. intros H. now apply (merge_merge xs H None I). Qed.

End ShapeFacts.

(** *** Buffers: lengths and the arrays that stay *)

Lemma heap_le_refl h : heap_le h h.
Proof. intros i. lia. Qed.

Lemma array_of_heap_set (h : heap) (i j : nat) (a : list byte) :
  array_of (heap_set h i a) j =
  if Nat.eqb j i && Nat.ltb i (List.length h) then a else array_of h j.
Proof.
  unfold array_of. revert i j. induction h as [|x h IH]; intros i j.
  - cbn [heap_set List.length]. destruct (Nat.eqb j i); reflexivity.
  - destruct i as [|i], j as [|j]; cbn [heap_set nth List.length]; try reflexivity.
    rewrite IH. cbn [Nat.eqb].
    destruct (Nat.eqb j i); cbn [andb]; [|reflexivity].
    destruct (Nat.ltb_spec i (List.length h)), (Nat.ltb_spec (S i) (S (List.length h)));
      try reflexivity; lia.
Qed.

Lemma Buffer_Write_len g h b p :
  Buffer_Len (snd (Buffer_Write g h b p)) = (Buffer_Len b + List.length p)%nat.
Proof.
  unfold Buffer_Write.
  destruct (Nat.leb_spec (List.length p) (Buffer_cap h b - Buffer_Len b)) as [H|H].
  - destruct b as [[i l]|]; [reflexivity|].
    cbn [Buffer_cap Buffer_Len Nat.sub] in *. cbn [snd Buffer_Len]. lia.
  - reflexivity.
Qed.

Lemma Buffer_Write_mono g h b p :
  buf_ok h b -> heap_le h (fst (Buffer_Write g h b p)).
Proof.
  intros Hok j. unfold Buffer_Write.
  destruct (Nat.leb_spec (List.length p) (Buffer_cap h b - Buffer_Len b)) as [H|H].
  - destruct b as [[i l]|]; cbn [fst]; [|lia].
    cbn [buf_ok s_arr s_len Buffer_cap Buffer_Len] in *. destruct Hok as [Hi Hl].
    rewrite array_of_heap_set.
    destruct (Nat.eqb_spec j i) as [->|]; cbn [andb]; [|lia].
    destruct (Nat.ltb_spec i (List.length h)); [|lia].
    unfold overwrite. rewrite !length_app, length_firstn, length_skipn. lia.
  - cbn [fst]. unfold array_of.
    destruct (Nat.lt_ge_cases j (List.length h)) as [Hj|Hj].
    + rewrite app_nth1 by assumption. lia.
    + rewrite (nth_overflow h) by assumption. cbn [List.length]. lia.
Qed.

Lemma slice_ok_mono h h' d : heap_le h h' -> slice_ok h d -> slice_ok h' d.
Proof.
  intros Hle. destruct d as [[i l]|]; [|auto]. cbn [slice_ok s_arr s_len].
  specialize (Hle i). lia.
Qed.

Lemma buf_ok_slice_ok h b : buf_ok h b -> slice_ok h b.
Proof. destruct b as [[i l]|]; [|auto]. now intros [_ H]. Qed.

Lemma buf_ok_Reset h b : buf_ok h b -> buf_ok h (Buffer_Reset b).
Proof.
  destruct b as [[i l]|]; [|auto]. cbn. intros [H _]. split; [assumption|lia].
Qed.

Lemma resolve_len h d : slice_ok h d -> List.length (resolve h d) = Buffer_Len d.
Proof.
  destruct d as [[i l]|]; [|reflexivity]. cbn [slice_ok resolve Buffer_Len s_arr s_len].
  intros H. rewrite length_firstn. lia.
Qed.

(** *** The ihex coalescer computes [merge] on the shapes *)

Lemma ihex_out_ok_mono h h' l :
  heap_le h h' -> Forall (ihex_out_ok h) l -> Forall (ihex_out_ok h') l.
Proof.
  intros Hle. apply Forall_impl. intros [r|a t d]; [auto|].
  now apply slice_ok_mono.
Qed.

Lemma ihex_step_sim (g : nat -> nat -> nat -> nat) (st : Ihex.cstate)
      (r : Ihex.HexRec) (xs : list (shape byte)) :
  ihex_inv st ->
  ihex_inv (Ihex.step g st r) /\
  map ihex_sh (Ihex.outList (Ihex.step g st r)) ++
    merge ihex_isData 65536 Ihex.Data (ihex_run_of (Ihex.step g st r)) xs =
  map ihex_sh (Ihex.outList st) ++
    merge ihex_isData 65536 Ihex.Data (ihex_run_of st) (ihex_shape r :: xs).
Proof.
  intros (Hok & Hout & Hgrp).
  unfold Ihex.step. cbn [merge ihex_shape]. unfold ihex_isData at 2.
  destruct (Byte.eqb (Ihex.RecordType r) Ihex.Data) eqn:Ht.
  - (* a data record *)
    unfold Ihex.processDataRec, ihex_run_of at 2.
    destruct (Ihex.dataRecGroup st) eqn:Hg; cbn [negb].
    + destruct (Z.eqb_spec (Ihex.Address r) (Ihex.addressCounter st)) as [Ha|Ha].
      * pose proof (Buffer_Write_resolve g _ _ (Ihex.Data_ r) Hok) as [Wok _].
        pose proof (Buffer_Write_len g (Ihex.mem st) (Ihex.data st) (Ihex.Data_ r)) as WL.
        pose proof (Buffer_Write_mono g _ _ (Ihex.Data_ r) Hok) as WM.
        destruct (Buffer_Write g (Ihex.mem st) (Ihex.data st) (Ihex.Data_ r))
          as [m d]. cbn [fst snd] in *.
        split.
        -- repeat split; cbn [Ihex.mem Ihex.data Ihex.outList Ihex.dataRecGroup];
             [exact Wok|now apply (ihex_out_ok_mono (Ihex.mem st))|congruence].
        -- unfold ihex_run_of.
           cbn [Ihex.mem Ihex.data Ihex.outList Ihex.dataRecGroup
                Ihex.addressCounter Ihex.dataBaseAddr].
           rewrite WL. reflexivity.
      * (* not contiguous: emit, then a new group *)
        unfold Ihex.startGroup, Ihex.emitJumboDataRec.
        cbn [Ihex.mem Ihex.data Ihex.outList Ihex.dataRecGroup
             Ihex.addressCounter Ihex.dataBaseAddr].
        assert (Rok : buf_ok (Ihex.mem st) (Buffer_Reset (Buffer_Reset (Ihex.data st))))
          by (now apply buf_ok_Reset, buf_ok_Reset).
        pose proof (Buffer_Write_resolve g _ _ (Ihex.Data_ r) Rok) as [Wok _].
        pose proof (Buffer_Write_len g (Ihex.mem st)
                      (Buffer_Reset (Buffer_Reset (Ihex.data st))) (Ihex.Data_ r)) as WL.
        pose proof (Buffer_Write_mono g _ _ (Ihex.Data_ r) Rok) as WM.
        destruct (Buffer_Write g (Ihex.mem st)
                    (Buffer_Reset (Buffer_Reset (Ihex.data st))) (Ihex.Data_ r))
          as [m d]. cbn [fst snd] in *.
        assert (L0 : Buffer_Len (Buffer_Reset (Buffer_Reset (Ihex.data st))) = O)
          by (destruct (Ihex.data st) as [[i l]|]; reflexivity).
        split.
        -- repeat split; cbn [Ihex.mem Ihex.data Ihex.outList Ihex.dataRecGroup];
             [exact Wok| |discriminate].
           apply (ihex_out_ok_mono (Ihex.mem st)); [exact WM|].
           apply Forall_app. split; [exact Hout|].
           constructor; [|constructor]. cbn [ihex_out_ok]. unfold Buffer_Bytes.
           now apply buf_ok_slice_ok.
        -- unfold ihex_run_of.
           cbn [Ihex.mem Ihex.data Ihex.outList Ihex.dataRecGroup
                Ihex.addressCounter Ihex.dataBaseAddr].
           rewrite map_app, <- app_assoc. cbn [map app ihex_sh]. unfold Buffer_Bytes.
           rewrite WL, L0. reflexivity.
    + (* no group open *)
      unfold Ihex.startGroup.
      assert (Rok : buf_ok (Ihex.mem st) (Buffer_Reset (Ihex.data st)))
        by (now apply buf_ok_Reset).
      pose proof (Buffer_Write_resolve g _ _ (Ihex.Data_ r) Rok) as [Wok _].
      pose proof (Buffer_Write_len g (Ihex.mem st)
                    (Buffer_Reset (Ihex.data st)) (Ihex.Data_ r)) as WL.
      pose proof (Buffer_Write_mono g _ _ (Ihex.Data_ r) Rok) as WM.
      destruct (Buffer_Write g (Ihex.mem st) (Buffer_Reset (Ihex.data st))
                  (Ihex.Data_ r)) as [m d]. cbn [fst snd] in *.
      assert (L0 : Buffer_Len (Buffer_Reset (Ihex.data st)) = O)
        by (destruct (Ihex.data st) as [[i l]|]; reflexivity).
      split.
      * repeat split; cbn [Ihex.mem Ihex.data Ihex.outList Ihex.dataRecGroup];
          [exact Wok|now apply (ihex_out_ok_mono (Ihex.mem st))|discriminate].
      * unfold ihex_run_of.
        cbn [Ihex.mem Ihex.data Ihex.outList Ihex.dataRecGroup
             Ihex.addressCounter Ihex.dataBaseAddr].
        rewrite WL, L0. reflexivity.
  - (* a record of another type *)
    assert (F : map ihex_sh
                  (Ihex.outList (if Nat.ltb 0 (Buffer_Len (Ihex.data st))
                                 then Ihex.emitJumboDataRec st else st)) =
                map ihex_sh (Ihex.outList st) ++
                flush Ihex.Data (ihex_run_of st)).
    { unfold ihex_run_of. destruct (Nat.ltb_spec 0 (Buffer_Len (Ihex.data st))) as [Hp|Hz].
      - destruct (Ihex.dataRecGroup st) eqn:Hg; [|specialize (Hgrp eq_refl); lia].
        cbn [Ihex.emitJumboDataRec Ihex.outList flush]. rewrite map_app.
        destruct (Nat.ltb_spec 0 (Buffer_Len (Ihex.data st))); [reflexivity|lia].
      - destruct (Ihex.dataRecGroup st); cbn [flush]; [|now rewrite app_nil_r].
        destruct (Nat.ltb_spec 0 (Buffer_Len (Ihex.data st))); [lia|].
        now rewrite app_nil_r. }
    split.
    + destruct (Nat.ltb_spec 0 (Buffer_Len (Ihex.data st))) as [Hp|Hz];
        repeat split;
        cbn [Ihex.mem Ihex.data Ihex.outList Ihex.dataRecGroup
             Ihex.emitJumboDataRec]; try assumption.
      * now apply buf_ok_Reset.
      * apply Forall_app. split; [|constructor; [exact I|constructor]].
        apply Forall_app. split; [exact Hout|].
        constructor; [|constructor]. cbn [ihex_out_ok]. now apply buf_ok_slice_ok.
      * intros _. destruct (Ihex.data st) as [[i l]|]; reflexivity.
      * apply Forall_app. split; [exact Hout|constructor; [exact I|constructor]].
      * intros _. lia.
    + cbn [Ihex.outList]. rewrite map_app, F. cbn [map ihex_sh].
      unfold ihex_run_of at 1. cbn [Ihex.dataRecGroup].
      rewrite <- !app_assoc. reflexivity.
Qed.

Lemma ihex_emit_flush (st : Ihex.cstate) :
  ihex_inv st ->
  let fs := if Nat.ltb 0 (Buffer_Len (Ihex.data st))
            then Ihex.emitJumboDataRec st else st in
  map ihex_sh (Ihex.outList fs) =
    map ihex_sh (Ihex.outList st) ++ flush Ihex.Data (ihex_run_of st) /\
  Forall (ihex_out_ok (Ihex.mem fs)) (Ihex.outList fs).
Proof.
  intros (Hok & Hout & Hgrp). cbv zeta. unfold ihex_run_of.
  destruct (Nat.ltb_spec 0 (Buffer_Len (Ihex.data st))) as [Hp|Hz].
  - destruct (Ihex.dataRecGroup st) eqn:Hg; [|specialize (Hgrp eq_refl); lia].
    cbn [Ihex.emitJumboDataRec Ihex.outList Ihex.mem flush]. rewrite map_app.
    destruct (Nat.ltb_spec 0 (Buffer_Len (Ihex.data st))); [|lia].
    split; [reflexivity|].
    apply Forall_app. split; [exact Hout|].
    constructor; [|constructor]. cbn [ihex_out_ok]. now apply buf_ok_slice_ok.
  - split; [|exact Hout].
    destruct (Ihex.dataRecGroup st); cbn [flush]; [|now rewrite app_nil_r].
    destruct (Nat.ltb_spec 0 (Buffer_Len (Ihex.data st))); [lia|].
    now rewrite app_nil_r.
Qed.

Lemma ihex_fold_sim (g : nat -> nat -> nat -> nat) (recs : list Ihex.HexRec) :
  forall st, ihex_inv st ->
    ihex_inv (fold_left (Ihex.step g) recs st) /\
    map ihex_sh (Ihex.outList (fold_left (Ihex.step g) recs st)) ++
      flush Ihex.Data (ihex_run_of (fold_left (Ihex.step g) recs st)) =
    map ihex_sh (Ihex.outList st) ++
      merge ihex_isData 65536 Ihex.Data (ihex_run_of st) (map ihex_shape recs).
Proof.
  induction recs as [|r recs IH]; intros st Hst; cbn [fold_left map].
  - split; [exact Hst|reflexivity].
  - destruct (ihex_step_sim g st r (map ihex_shape recs) Hst) as [Hst' E].
    destruct (IH _ Hst') as [Hfin E']. split; [exact Hfin|]. now rewrite E'.
Qed.

Lemma ihex_deref_shape h l :
  Forall (ihex_out_ok h) l ->
  map ihex_shape (map (Ihex.deref h) l) = map ihex_sh l.
Proof.
  induction 1 as [|o l Ho _ IH]; [reflexivity|]. cbn [map]. rewrite IH. f_equal.
  destruct o as [r|a t d]; [reflexivity|].
  unfold ihex_shape. cbn [Ihex.deref ihex_sh Ihex.Address Ihex.RecordType Ihex.Data_].
  now rewrite resolve_len.
Qed.

(** The addresses, types and payload lengths [CoalesceDataRecs] returns. *)
Lemma ihex_coalesce_shape (g : nat -> nat -> nat -> nat) (x : list Ihex.HexRec) :
  map ihex_shape (Ihex.CoalesceDataRecs g x) =
  merge ihex_isData 65536 Ihex.Data None (map ihex_shape x).
Proof.
  unfold Ihex.CoalesceDataRecs, Ihex.run.
  assert (I0 : ihex_inv Ihex.initial).
  { repeat split; cbn; auto. }
  destruct (ihex_fold_sim g x _ I0) as [Hinv E].
  destruct (ihex_emit_flush _ Hinv) as [F Hok]. cbv zeta in F, Hok.
  rewrite (ihex_deref_shape _ _ Hok), F, E. reflexivity.
Qed.

(** *** The srec coalescer computes [merge] on the shapes *)

Lemma srec_out_ok_mono h h' l :
  heap_le h h' -> Forall (srec_out_ok h) l -> Forall (srec_out_ok h') l.
Proof.
  intros Hle. apply Forall_impl. intros [r|a t d]; [auto|].
  now apply slice_ok_mono.
Qed.

Lemma srec_step_sim (g : nat -> nat -> nat -> nat) (pt : Srec.srecType)
      (st : Srec.cstate)
      (r : Srec.HexRec) (xs : list (shape Z)) :
  srec_inv st ->
  srec_inv (Srec.step g pt st r) /\
  map srec_sh (Srec.outList (Srec.step g pt st r)) ++
    merge Srec.isData 4294967296 pt (srec_run_of (Srec.step g pt st r)) xs =
  map srec_sh (Srec.outList st) ++
    merge Srec.isData 4294967296 pt (srec_run_of st) (srec_shape r :: xs).
Proof.
  intros (Hok & Hout & Hgrp).
  unfold Srec.step. cbn [merge srec_shape].
  destruct (Srec.isData (Srec.RecordType r)) eqn:Ht.
  - (* a data record *)
    unfold Srec.processDataRec, srec_run_of at 2.
    destruct (Srec.dataRecGroup st) eqn:Hg; cbn [negb].
    + destruct (Z.eqb_spec (Srec.Address r) (Srec.addressCounter st)) as [Ha|Ha].
      * pose proof (Buffer_Write_resolve g _ _ (Srec.Data r) Hok) as [Wok _].
        pose proof (Buffer_Write_len g (Srec.mem st) (Srec.data st) (Srec.Data r)) as WL.
        pose proof (Buffer_Write_mono g _ _ (Srec.Data r) Hok) as WM.
        destruct (Buffer_Write g (Srec.mem st) (Srec.data st) (Srec.Data r))
          as [m d]. cbn [fst snd] in *.
        split.
        -- repeat split; cbn [Srec.mem Srec.data Srec.outList Srec.dataRecGroup];
             [exact Wok|now apply (srec_out_ok_mono (Srec.mem st))|congruence].
        -- unfold srec_run_of.
           cbn [Srec.mem Srec.data Srec.outList Srec.dataRecGroup
                Srec.addressCounter Srec.dataBaseAddr].
           rewrite WL. reflexivity.
      * (* not contiguous: emit, then a new group *)
        unfold Srec.startGroup, Srec.emitJumboDataRec.
        cbn [Srec.mem Srec.data Srec.outList Srec.dataRecGroup
             Srec.addressCounter Srec.dataBaseAddr].
        assert (Rok : buf_ok (Srec.mem st) (Buffer_Reset (Buffer_Reset (Srec.data st))))
          by (now apply buf_ok_Reset, buf_ok_Reset).
        pose proof (Buffer_Write_resolve g _ _ (Srec.Data r) Rok) as [Wok _].
        pose proof (Buffer_Write_len g (Srec.mem st)
                      (Buffer_Reset (Buffer_Reset (Srec.data st))) (Srec.Data r)) as WL.
        pose proof (Buffer_Write_mono g _ _ (Srec.Data r) Rok) as WM.
        destruct (Buffer_Write g (Srec.mem st)
                    (Buffer_Reset (Buffer_Reset (Srec.data st))) (Srec.Data r))
          as [m d]. cbn [fst snd] in *.
        assert (L0 : Buffer_Len (Buffer_Reset (Buffer_Reset (Srec.data st))) = O)
          by (destruct (Srec.data st) as [[i l]|]; reflexivity).
        split.
        -- repeat split; cbn [Srec.mem Srec.data Srec.outList Srec.dataRecGroup];
             [exact Wok| |discriminate].
           apply (srec_out_ok_mono (Srec.mem st)); [exact WM|].
           apply Forall_app. split; [exact Hout|].
           constructor; [|constructor]. cbn [srec_out_ok]. unfold Buffer_Bytes.
           now apply buf_ok_slice_ok.
        -- unfold srec_run_of.
           cbn [Srec.mem Srec.data Srec.outList Srec.dataRecGroup
                Srec.addressCounter Srec.dataBaseAddr].
           rewrite map_app, <- app_assoc. cbn [map app srec_sh]. unfold Buffer_Bytes.
           rewrite WL, L0. reflexivity.
    + (* no group open *)
      unfold Srec.startGroup.
      assert (Rok : buf_ok (Srec.mem st) (Buffer_Reset (Srec.data st)))
        by (now apply buf_ok_Reset).
      pose proof (Buffer_Write_resolve g _ _ (Srec.Data r) Rok) as [Wok _].
      pose proof (Buffer_Write_len g (Srec.mem st)
                    (Buffer_Reset (Srec.data st)) (Srec.Data r)) as WL.
      pose proof (Buffer_Write_mono g _ _ (Srec.Data r) Rok) as WM.
      destruct (Buffer_Write g (Srec.mem st) (Buffer_Reset (Srec.data st))
                  (Srec.Data r)) as [m d]. cbn [fst snd] in *.
      assert (L0 : Buffer_Len (Buffer_Reset (Srec.data st)) = O)
        by (destruct (Srec.data st) as [[i l]|]; reflexivity).
      split.
      * repeat split; cbn [Srec.mem Srec.data Srec.outList Srec.dataRecGroup];
          [exact Wok|now apply (srec_out_ok_mono (Srec.mem st))|discriminate].
      * unfold srec_run_of.
        cbn [Srec.mem Srec.data Srec.outList Srec.dataRecGroup
             Srec.addressCounter Srec.dataBaseAddr].
        rewrite WL, L0. reflexivity.
  - (* a record of another type *)
    assert (F : map srec_sh
                  (Srec.outList (if Nat.ltb 0 (Buffer_Len (Srec.data st))
                                 then Srec.emitJumboDataRec st pt else st)) =
                map srec_sh (Srec.outList st) ++
                flush pt (srec_run_of st)).
    { unfold srec_run_of. destruct (Nat.ltb_spec 0 (Buffer_Len (Srec.data st))) as [Hp|Hz].
      - destruct (Srec.dataRecGroup st) eqn:Hg; [|specialize (Hgrp eq_refl); lia].
        cbn [Srec.emitJumboDataRec Srec.outList flush]. rewrite map_app.
        destruct (Nat.ltb_spec 0 (Buffer_Len (Srec.data st))); [reflexivity|lia].
      - destruct (Srec.dataRecGroup st); cbn [flush]; [|now rewrite app_nil_r].
        destruct (Nat.ltb_spec 0 (Buffer_Len (Srec.data st))); [lia|].
        now rewrite app_nil_r. }
    split.
    + destruct (Nat.ltb_spec 0 (Buffer_Len (Srec.data st))) as [Hp|Hz];
        repeat split;
        cbn [Srec.mem Srec.data Srec.outList Srec.dataRecGroup
             Srec.emitJumboDataRec]; try assumption.
      * now apply buf_ok_Reset.
      * apply Forall_app. split; [|constructor; [exact I|constructor]].
        apply Forall_app. split; [exact Hout|].
        constructor; [|constructor]. cbn [srec_out_ok]. now apply buf_ok_slice_ok.
      * intros _. destruct (Srec.data st) as [[i l]|]; reflexivity.
      * apply Forall_app. split; [exact Hout|constructor; [exact I|constructor]].
      * intros _. lia.
    + cbn [Srec.outList]. rewrite map_app, F. cbn [map srec_sh].
      unfold srec_run_of at 1. cbn [Srec.dataRecGroup].
      rewrite <- !app_assoc. reflexivity.
Qed.

Lemma srec_emit_flush (pt : Srec.srecType) (st : Srec.cstate) :
  srec_inv st ->
  let fs := if Nat.ltb 0 (Buffer_Len (Srec.data st))
            then Srec.emitJumboDataRec st pt else st in
  map srec_sh (Srec.outList fs) =
    map srec_sh (Srec.outList st) ++ flush pt (srec_run_of st) /\
  Forall (srec_out_ok (Srec.mem fs)) (Srec.outList fs).
Proof.
  intros (Hok & Hout & Hgrp). cbv zeta. unfold srec_run_of.
  destruct (Nat.ltb_spec 0 (Buffer_Len (Srec.data st))) as [Hp|Hz].
  - destruct (Srec.dataRecGroup st) eqn:Hg; [|specialize (Hgrp eq_refl); lia].
    cbn [Srec.emitJumboDataRec Srec.outList Srec.mem flush]. rewrite map_app.
    destruct (Nat.ltb_spec 0 (Buffer_Len (Srec.data st))); [|lia].
    split; [reflexivity|].
    apply Forall_app. split; [exact Hout|].
    constructor; [|constructor]. cbn [srec_out_ok]. now apply buf_ok_slice_ok.
  - split; [|exact Hout].
    destruct (Srec.dataRecGroup st); cbn [flush]; [|now rewrite app_nil_r].
    destruct (Nat.ltb_spec 0 (Buffer_Len (Srec.data st))); [lia|].
    now rewrite app_nil_r.
Qed.

Lemma srec_fold_sim (g : nat -> nat -> nat -> nat) (pt : Srec.srecType)
      (recs : list Srec.HexRec) :
  forall st, srec_inv st ->
    srec_inv (fold_left (Srec.step g pt) recs st) /\
    map srec_sh (Srec.outList (fold_left (Srec.step g pt) recs st)) ++
      flush pt (srec_run_of (fold_left (Srec.step g pt) recs st)) =
    map srec_sh (Srec.outList st) ++
      merge Srec.isData 4294967296 pt (srec_run_of st) (map srec_shape recs).
Proof.
  induction recs as [|r recs IH]; intros st Hst; cbn [fold_left map].
  - split; [exact Hst|reflexivity].
  - destruct (srec_step_sim g pt st r (map srec_shape recs) Hst) as [Hst' E].
    destruct (IH _ Hst') as [Hfin E']. split; [exact Hfin|]. now rewrite E'.
Qed.

Lemma srec_deref_shape h l :
  Forall (srec_out_ok h) l ->
  map srec_shape (map (Srec.deref h) l) = map srec_sh l.
Proof.
  induction 1 as [|o l Ho _ IH]; [reflexivity|]. cbn [map]. rewrite IH. f_equal.
  destruct o as [r|a t d]; [reflexivity|].
  unfold srec_shape. cbn [Srec.deref srec_sh Srec.Address Srec.RecordType Srec.Data].
  now rewrite resolve_len.
Qed.

(** The addresses, types and payload lengths [CoalesceDataRecs] returns. *)
Lemma srec_coalesce_shape (g : nat -> nat -> nat -> nat) (x : list Srec.HexRec) :
  map srec_shape (Srec.CoalesceDataRecs g x) =
  merge Srec.isData 4294967296 (Srec.preferredDataRecType x) None
        (map srec_shape x).
Proof.
  unfold Srec.CoalesceDataRecs, Srec.run.
  set (pt := Srec.preferredDataRecType x).
  assert (I0 : srec_inv Srec.initial).
  { repeat split; cbn; auto. }
  destruct (srec_fold_sim g pt x _ I0) as [Hinv E].
  destruct (srec_emit_flush pt _ Hinv) as [F Hok]. cbv zeta in F, Hok.
  rewrite (srec_deref_shape _ _ Hok), F, E. reflexivity.
Qed.

(** *** The second pass *)

Section MergeTypes.

Variable T : Type.
Variable isData : T -> bool.
Variable M : Z.
Variable pt : T.

(** The data records [merge] returns have the type [pt]. *)
Lemma merge_types (xs : list (shape T)) :
  forall r,
    Forall (fun y => isData (snd (fst y)) = true -> snd (fst y) = pt)
           (merge isData M pt r xs).
Proof.
  induction xs as [|[[a t] l] xs IH]; intros r; cbn [merge].
  - destruct r as [[[b c] n]|]; cbn [flush]; [|constructor].
    destruct (Nat.ltb 0 n); constructor; auto.
  - destruct (isData t) eqn:Ht.
    + destruct r as [[[b c] n]|]; [|apply IH].
      destruct (a =? c); [apply IH|]. constructor; [auto|apply IH].
    + apply Forall_app. split.
      * destruct r as [[[b c] n]|]; cbn [flush]; [|constructor].
        destruct (Nat.ltb 0 n); constructor; auto.
      * constructor; [cbn [fst snd]; congruence|apply IH].
Qed.

(** Without data records there is nothing to merge. *)
Lemma merge_nodata (xs : list (shape T)) :
  Forall (fun y => isData (snd (fst y)) = false) xs ->
  merge isData M pt None xs = xs.
Proof.
  induction 1 as [|[[a t] l] xs Hx _ IH]; [reflexivity|].
  cbn [fst snd] in Hx. cbn [merge]. rewrite Hx. cbn [flush app]. now rewrite IH.
Qed.

End MergeTypes.

Lemma ihex_coalesce_twice_shape (g : nat -> nat -> nat -> nat)
      (x : list Ihex.HexRec) :
  Forall (fun r => Ihex.RecordType r = Ihex.Data -> Ihex.Data_ r <> []) x ->
  map ihex_shape (Ihex.CoalesceDataRecs g (Ihex.CoalesceDataRecs g x)) =
  map ihex_shape (Ihex.CoalesceDataRecs g x).
Proof.
  intros Hx. rewrite (ihex_coalesce_shape g (Ihex.CoalesceDataRecs g x)).
  rewrite (ihex_coalesce_shape g x).
  apply merge_idempotent; [reflexivity|].
  apply Forall_map. revert Hx. apply Forall_impl. intros r Hr.
  unfold nonempty_data, ihex_shape, ihex_isData. cbn [fst snd]. intros Ht.
  apply Byte.byte_dec_bl in Ht. specialize (Hr Ht).
  destruct (Ihex.Data_ r); [congruence|cbn; lia].
Qed.

Lemma srec_count_pos (t : Srec.srecType) (l : list Srec.HexRec) :
  (0 <? Srec.count_type t l) = true ->
  exists r, In r l /\ Srec.RecordType r = t.
Proof.
  unfold Srec.count_type. intros H.
  destruct (filter (fun r => Srec.RecordType r =? t) l) as [|r rest] eqn:E;
    [discriminate|].
  assert (Hin : In r (filter (fun r => Srec.RecordType r =? t) l))
    by (rewrite E; now left).
  apply filter_In in Hin. destruct Hin as [Hin Ht]. apply Z.eqb_eq in Ht.
  now exists r.
Qed.

Lemma srec_count_zero (t : Srec.srecType) (l : list Srec.HexRec) :
  (0 <? Srec.count_type t l) = false ->
  forall r, In r l -> Srec.RecordType r <> t.
Proof.
  unfold Srec.count_type. intros H r Hin Ht.
  assert (Hf : In r (filter (fun r => Srec.RecordType r =? t) l)).
  { apply filter_In. split; [exact Hin|]. now apply Z.eqb_eq. }
  destruct (filter (fun r => Srec.RecordType r =? t) l); [contradiction|].
  discriminate H.
Qed.

(** After a pass whose data records all have the type [pt], the survey
    chooses [pt] again, unless no data record is left. *)
Lemma srec_preferred_again (pt : Srec.srecType) (l : list Srec.HexRec) :
  Srec.isData pt = true ->
  Forall (fun r => Srec.isData (Srec.RecordType r) = true ->
                   Srec.RecordType r = pt) l ->
  Srec.preferredDataRecType l = pt \/
  Forall (fun r => Srec.isData (Srec.RecordType r) = false) l.
Proof.
  intros Hpt Hall. rewrite Forall_forall in Hall.
  unfold Srec.preferredDataRecType.
  destruct (0 <? Srec.count_type Srec.S3Data l) eqn:C3.
  { left. destruct (srec_count_pos _ _ C3) as (r & Hin & Hr).
    rewrite <- (Hall r Hin); [now rewrite Hr|]. now rewrite Hr. }
  destruct (0 <? Srec.count_type Srec.S2Data l) eqn:C2.
  { left. destruct (srec_count_pos _ _ C2) as (r & Hin & Hr).
    rewrite <- (Hall r Hin); [now rewrite Hr|]. now rewrite Hr. }
  pose proof (srec_count_zero _ _ C3) as Z3.
  pose proof (srec_count_zero _ _ C2) as Z2.
  destruct (srec_isData_cases pt Hpt) as [-> | [-> | ->]].
  - now left.
  - right. apply Forall_forall. intros r Hin.
    destruct (Srec.isData (Srec.RecordType r)) eqn:D; [|reflexivity].
    exfalso. apply (Z2 r Hin). now apply Hall.
  - right. apply Forall_forall. intros r Hin.
    destruct (Srec.isData (Srec.RecordType r)) eqn:D; [|reflexivity].
    exfalso. apply (Z3 r Hin). now apply Hall.
Qed.

Lemma srec_coalesce_twice_shape (g : nat -> nat -> nat -> nat)
      (x : list Srec.HexRec) :
  Forall (fun r => Srec.isData (Srec.RecordType r) = true -> Srec.Data r <> []) x ->
  map srec_shape (Srec.CoalesceDataRecs g (Srec.CoalesceDataRecs g x)) =
  map srec_shape (Srec.CoalesceDataRecs g x).
Proof.
  intros Hx.
  set (pt := Srec.preferredDataRecType x).
  assert (Hpt : Srec.isData pt = true) by apply srec_preferred_isData.
  set (y := Srec.CoalesceDataRecs g x).
  assert (Ey : map srec_shape y =
               merge Srec.isData 4294967296 pt None (map srec_shape x))
    by apply srec_coalesce_shape.
  assert (Ty : Forall (fun r => Srec.isData (Srec.RecordType r) = true ->
                               Srec.RecordType r = pt) y).
  { apply (proj1 (Forall_map srec_shape
                     (fun s => Srec.isData (snd (fst s)) = true ->
                               snd (fst s) = pt) y)).
    rewrite Ey. apply merge_types. }
  rewrite (srec_coalesce_shape g y).
  destruct (srec_preferred_again pt y Hpt Ty) as [-> | Hno].
  - rewrite Ey. apply merge_idempotent; [exact Hpt|].
    apply Forall_map. revert Hx. apply Forall_impl. intros r Hr.
    unfold nonempty_data, srec_shape. cbn [fst snd]. intros Ht.
    specialize (Hr Ht). destruct (Srec.Data r); [congruence|cbn; lia].
  - apply merge_nodata. apply Forall_map. exact Hno.
Qed.




(* ================================================================= *)
(** ** Writers, readers and coalescers beyond the claims *)

(** *** Checksums; the ihex decoder and the image of a record *)

Lemma z2b_mod (z : Z) : z2b (z mod 256) = z2b z.
Proof. unfold z2b. now rewrite Z.mod_mod by lia. Qed.

(** X1.  The checksum of the ihex package is the one byte that, put after
    the bytes of a record, makes all of them sum to 0 modulo 256. *)
Theorem ihex_checksum_unique (buf : list byte) (c : byte) :
  c = Ihex.calcChecksum buf <-> sumz (buf ++ [c]) mod 256 = 0.
Proof.
  rewrite sumz_app, ihex_calcChecksum_sum. cbn [sumz]. rewrite Z.add_0_r.
  pose proof (b2z_range c) as Rc. split.
  - intros ->. rewrite b2z_z2b. Z.to_euclidean_division_equations. lia.
  - intros E. apply b2z_inj. rewrite b2z_z2b.
    Z.to_euclidean_division_equations. lia.
Qed.

(** X2.  The checksum of the srec package is the one byte that, put after
    the bytes of a record, makes all of them sum to 255 modulo 256. *)
Theorem srec_checksum_unique (b : list byte) (c : byte) :
  c = Srec.calcChecksum b <-> sumz (b ++ [c]) mod 256 = 255.
Proof.
  rewrite sumz_app, srec_calcChecksum_sum. cbn [sumz]. rewrite Z.add_0_r.
  pose proof (b2z_range c) as Rc. split.
  - intros ->. rewrite b2z_z2b. Z.to_euclidean_division_equations. lia.
  - intros E. apply b2z_inj. rewrite b2z_z2b.
    Z.to_euclidean_division_equations. lia.
Qed.

Lemma land_low_shift (lo hi : Z) :
  0 <= lo < 256 -> Z.land lo (Z.shiftl hi 8) = 0.
Proof.
  intros R. apply Z.bits_inj'. intros n Hn.
  rewrite Z.land_spec, Z.bits_0.
  destruct (Z.ltb_spec n 8) as [L|L].
  - rewrite Z.shiftl_spec_low by lia. apply andb_false_r.
  - rewrite (Z.bits_above_log2 lo n); [reflexivity|lia|].
    destruct (Z.eq_dec lo 0) as [->|N]; [cbn; lia|].
    assert (Z.log2 lo < 8) by (apply Z.log2_lt_pow2; [lia|change (2 ^ 8) with 256; lia]).
    lia.
Qed.

Lemma BigEndian_Uint16_value (hi lo : byte) :
  BigEndian_Uint16 [hi; lo] = 256 * b2z hi + b2z lo.
Proof.
  unfold BigEndian_Uint16. cbn [nth].
  pose proof (b2z_range hi) as Rh. pose proof (b2z_range lo) as Rl.
  rewrite <- Z.lxor_lor by (apply land_low_shift; lia).
  rewrite <- Z.add_nocarry_lxor by (apply land_low_shift; lia).
  rewrite Z.shiftl_mul_pow2 by lia. change (2 ^ 8) with 256. lia.
Qed.

Lemma U16_bytes (a : Z) :
  0 <= a < 65536 ->
  BigEndian_Uint16 (binary_Write (U16 a)) = a.
Proof.
  intros Ha. cbn [binary_Write]. rewrite BigEndian_Uint16_value, !b2z_z2b.
  rewrite Z.shiftr_div_pow2 by lia. change (2 ^ 8) with 256.
  Z.to_euclidean_division_equations. lia.
Qed.

Lemma U16_of_bytes (hi lo : byte) :
  binary_Write (U16 (BigEndian_Uint16 [hi; lo])) = [hi; lo].
Proof.
  cbn [binary_Write]. rewrite BigEndian_Uint16_value.
  pose proof (b2z_range hi) as Rh. pose proof (b2z_range lo) as Rl.
  rewrite Z.shiftr_div_pow2 by lia. change (2 ^ 8) with 256.
  f_equal; [|f_equal].
  - rewrite <- (z2b_b2z hi) at 2. f_equal. Z.to_euclidean_division_equations. lia.
  - rewrite <- (z2b_b2z lo) at 2. rewrite <- z2b_mod. symmetry. rewrite <- z2b_mod.
    f_equal. Z.to_euclidean_division_equations. lia.
Qed.

Lemma ihex_image_eq a t d :
  ihex_image a t d = [z2b (len d)] ++ binary_Write (U16 a) ++ [t] ++ d.
Proof. unfold ihex_image. cbn. now rewrite app_nil_r. Qed.

Lemma ihex_decode_accepts (m : ascii) (s : string) (a : Z) (t : byte)
      (d extra : list byte) :
  0 <= a < 65536 -> len d <= 255 ->
  hex_DecodeString s =
    inr ((ihex_image a t d ++ extra) ++
         [Ihex.calcChecksum (ihex_image a t d ++ extra)]) ->
  Ihex.decodeRecord (String m s) = Return (inr (Ihex.mkHexRec a t d)).
Proof.
  intros Ha Hd D. unfold Ihex.decodeRecord. rewrite D.
  set (body := ihex_image a t d ++ extra).
  destruct (body ++ [Ihex.calcChecksum body]) as [|y l] eqn:E;
    [now destruct body|]. rewrite <- E.
  rewrite last_last, removelast_last.
  replace (Byte.eqb _ _) with true by (symmetry; now apply Byte.byte_dec_lb).
  cbn [negb]. unfold body. rewrite ihex_image_eq.
  cbn [binary_Write app io_ReadFull List.length Nat.leb firstn skipn nth].
  rewrite b2z_z2b, Z.mod_small by (pose proof (len_nonneg d); lia).
  unfold len. rewrite Nat2Z.id.
  unfold io_ReadFull. rewrite length_app.
  replace (Nat.leb _ _) with true by (symmetry; apply Nat.leb_le; lia).
  rewrite firstn_length_app.
  change [z2b (Z.shiftr a 8); z2b a] with (binary_Write (U16 a)).
  now rewrite U16_bytes.
Qed.

Lemma ihex_decode_sound (m : ascii) (s : string) (rec : Ihex.HexRec) :
  Ihex.decodeRecord (String m s) = Return (inr rec) ->
  0 <= Ihex.Address rec < 65536 /\ len (Ihex.Data_ rec) <= 255 /\
  exists extra,
    hex_DecodeString s =
      inr ((ihex_image (Ihex.Address rec) (Ihex.RecordType rec) (Ihex.Data_ rec)
              ++ extra) ++
           [Ihex.calcChecksum
              (ihex_image (Ihex.Address rec) (Ihex.RecordType rec)
                          (Ihex.Data_ rec) ++ extra)]).
Proof.
  unfold Ihex.decodeRecord. intros H.
  destruct (hex_DecodeString s) as [e|b0] eqn:D; [discriminate|].
  destruct (split_last_or_nil b0) as [-> | (b & cs & ->)]; [discriminate|].
  destruct (b ++ [cs]) as [|y l] eqn:E; [now destruct b|]. rewrite <- E in *.
  rewrite last_last, removelast_last in H.
  destruct (Byte.eqb cs (Ihex.calcChecksum b)) eqn:CK; cbn [negb] in H;
    [|discriminate].
  apply Byte.byte_dec_bl in CK. subst cs.
  destruct b as [|n [|hi [|lo [|t rest]]]];
    cbn [io_ReadFull List.length Nat.leb firstn skipn nth] in H;
    try discriminate.
  unfold io_ReadFull in H.
  set (k := Z.to_nat (b2z n)) in *.
  destruct (Nat.leb k (List.length rest)) eqn:L;
    [|destruct rest; discriminate].
  apply Nat.leb_le in L. injection H as <-. cbn [Ihex.Address Ihex.RecordType Ihex.Data_].
  pose proof (b2z_range n) as Rn. pose proof (b2z_range hi) as Rh.
  pose proof (b2z_range lo) as Rl.
  assert (Lk : len (firstn k rest) = b2z n).
  { unfold len. rewrite firstn_length_le by exact L. unfold k. lia. }
  split; [rewrite BigEndian_Uint16_value; lia|]. split; [lia|].
  exists (skipn k rest). rewrite ihex_image_eq, Lk, z2b_b2z, U16_of_bytes.
  cbn [app]. rewrite <- app_assoc. cbn [app].
  rewrite (app_assoc (firstn k rest)), firstn_skipn. reflexivity.
Qed.

(** *** Characters that are not hex digits *)

Lemma all_hex_app (p q : string) : all_hex (p ++ q) = all_hex p && all_hex q.
Proof.
  induction p as [|c p IH]; [reflexivity|]. cbn [append all_hex].
  destruct (fromHexChar c); [exact IH|reflexivity].
Qed.

Lemma hex_DecodeString_all_hex (s : string) (bs : list byte) :
  hex_DecodeString s = inr bs -> all_hex s = true.
Proof.
  revert bs. induction s as [| a | a b s IH] using string_pair_ind; intros bs H.
  - reflexivity.
  - cbn in H. destruct (fromHexChar a); discriminate.
  - rewrite hex_DecodeString_cons2 in H. cbn [all_hex].
    destruct (fromHexChar a); [|discriminate].
    destruct (fromHexChar b); [|discriminate].
    destruct (hex_DecodeString s) as [e|bs'] eqn:D; [discriminate|].
    now apply (IH bs').
Qed.

Lemma hex_DecodeString_not_hex (s : string) :
  all_hex s = false ->
  exists c, fromHexChar c = None /\ hex_DecodeString s = inl (ErrHexInvalidByte c).
Proof.
  induction s as [| a | a b s IH] using string_pair_ind; intros H.
  - discriminate.
  - cbn in *. destruct (fromHexChar a) eqn:A; [discriminate|]. now exists a.
  - rewrite hex_DecodeString_cons2. cbn [all_hex] in H.
    destruct (fromHexChar a) eqn:A; [|now exists a].
    destruct (fromHexChar b) eqn:B; [|now exists b].
    destruct (IH H) as (c & Hc & ->). now exists c.
Qed.

Lemma all_hex_mid (pre post : string) (c : ascii) :
  fromHexChar c = None -> all_hex (pre ++ String c post) = false.
Proof.
  intros H. rewrite all_hex_app. cbn [all_hex]. rewrite H. apply andb_false_r.
Qed.

(** X5.  An Intel Hex line that holds, anywhere after its first character,
    a character that is not a hex digit (a carriage return left at the end
    of the line, for one) is rejected with the error Unable to decode hex
    record, which names a character that is not a hex digit. *)
Theorem ihex_decodeRecord_rejects_nonhex (m : ascii) (pre post : string)
        (c : ascii) :
  fromHexChar c = None ->
  exists c',
    fromHexChar c' = None /\
    Ihex.decodeRecord (String m (pre ++ String c post)) =
      Return (inl (ErrWrap "Unable to decode hex record" (ErrHexInvalidByte c'))).
Proof.
  intros H.
  destruct (hex_DecodeString_not_hex _ (all_hex_mid pre post c H)) as (c' & Hc & D).
  exists c'. split; [exact Hc|]. unfold Ihex.decodeRecord. now rewrite D.
Qed.

Lemma ihex_decodeRecord_rejects_nonhex_witness :
  exists c',
    fromHexChar c' = None /\
    Ihex.decodeRecord (String ":" ("00000001FF" ++ String (ascii_of_N 13) "")) =
      Return (inl (ErrWrap "Unable to decode hex record" (ErrHexInvalidByte c'))).
Proof.
  apply (ihex_decodeRecord_rejects_nonhex ":" "00000001FF" "" (ascii_of_N 13)).
  reflexivity.
Defined.

Lemma ParseUint16_2_all_hex (ck : string) (cs : Z) :
  slen ck = 2 -> strconv_ParseUint16 ck 8 = inr cs -> all_hex ck = true.
Proof.
  intros L P.
  destruct ck as [|a [|b [|c rest]]]; try (cbn in L; lia).
  destruct (ParseUint16_2_inv a b cs P) as (x & y & A & B & _).
  cbn [all_hex]. now rewrite A, B.
Qed.

(** X6.  An S-record line that holds, anywhere after its two header
    characters, a character that is not a hex digit is answered with an
    error: it never decodes to a record. *)
Theorem srec_decodeRecord_rejects_nonhex (t1 t2 : ascii) (pre post : string)
        (c : ascii) :
  fromHexChar c = None ->
  exists e,
    Srec.decodeRecord (String t1 (String t2 (pre ++ String c post))) =
      Return (inl e).
Proof.
  intros H.
  destruct (srec_decodeRecord_returns
              (String t1 (String t2 (pre ++ String c post)))) as ([e|rec] & R).
  - now exists e.
  - exfalso.
    destruct (srec_frame t1 t2 _ rec R)
      as (csData & ck & cs & bs & E & L & _ & P & D & _).
    pose proof (all_hex_mid pre post c H) as N.
    rewrite E, all_hex_app in N.
    rewrite (hex_DecodeString_all_hex _ _ D), (ParseUint16_2_all_hex _ _ L P) in N.
    discriminate.
Qed.

Lemma srec_decodeRecord_rejects_nonhex_witness :
  exists e,
    Srec.decodeRecord
      (String "S" (String "9" ("030000FC" ++ String (ascii_of_N 13) ""))) =
      Return (inl e).
Proof.
  apply (srec_decodeRecord_rejects_nonhex "S" "9" "030000FC" "" (ascii_of_N 13)).
  reflexivity.
Defined.

(** Upper-case hex digits decode to the same bytes. *)
Lemma hex_nibbles_upper (b : byte) :
  fromHexChar (upper (hexdigit (Z.shiftr (b2z b) 4))) = Some (Z.shiftr (b2z b) 4) /\
  fromHexChar (upper (hexdigit (Z.land (b2z b) 15))) = Some (Z.land (b2z b) 15) /\
  Ascii.eqb (upper (hexdigit (Z.shiftr (b2z b) 4))) newline = false /\
  Ascii.eqb (upper (hexdigit (Z.land (b2z b) 15))) newline = false.
Proof. destruct b; repeat split. Qed.

Lemma hex_decode_upper (bs : list byte) :
  hex_DecodeString (strings_ToUpper (hex_EncodeToString bs)) = inr bs.
Proof.
  induction bs as [|b bs IH]; [reflexivity|].
  cbn [hex_EncodeToString strings_ToUpper]. rewrite hex_DecodeString_cons2.
  destruct (hex_nibbles_upper b) as (-> & -> & _).
  destruct (hex_nibbles b) as (_ & _ & E & _). now rewrite IH, E.
Qed.

Lemma no_newline_upper_hex (bs : list byte) :
  no_newline (strings_ToUpper (hex_EncodeToString bs)) = true.
Proof.
  induction bs as [|b bs IH]; [reflexivity|].
  cbn [hex_EncodeToString strings_ToUpper no_newline].
  destruct (hex_nibbles_upper b) as (_ & _ & -> & ->). exact IH.
Qed.

Lemma no_newline_ihex_line a t d : no_newline (ihex_line a t d) = true.
Proof. unfold ihex_line. cbn [no_newline]. apply no_newline_upper_hex. Qed.

Lemma ihex_line_nonempty a t d : (0 <? slen (ihex_line a t d)) = true.
Proof.
  unfold ihex_line. rewrite slen_cons. pose proof (slen_nonneg
    (strings_ToUpper (hex_EncodeToString
       (ihex_image a t d ++ [Ihex.calcChecksum (ihex_image a t d)])))).
  apply Z.ltb_lt. lia.
Qed.

(** A record wider than 255 bytes is written with the byte count
    [len mod 256], and the reader keeps that many bytes. *)
Lemma ihex_decode_line (a : Z) (t : byte) (d : list byte) :
  0 <= a < 65536 ->
  Ihex.decodeRecord (ihex_line a t d) =
    Return (inr (Ihex.mkHexRec a t (firstn (Z.to_nat (len d mod 256)) d))).
Proof.
  intros Ha. unfold ihex_line.
  set (k := Z.to_nat (len d mod 256)).
  pose proof (len_nonneg d) as Nd.
  assert (Kle : (k <= List.length d)%nat).
  { unfold k, len in *. Z.to_euclidean_division_equations. lia. }
  assert (Lk : len (firstn k d) = len d mod 256).
  { unfold len at 1. rewrite firstn_length_le by exact Kle. unfold k.
    Z.to_euclidean_division_equations. lia. }
  apply (ihex_decode_accepts ":" _ a t (firstn k d) (skipn k d)).
  - exact Ha.
  - rewrite Lk. Z.to_euclidean_division_equations. lia.
  - rewrite hex_decode_upper.
    assert (I : ihex_image a t (firstn k d) ++ skipn k d = ihex_image a t d).
    { rewrite !ihex_image_eq, Lk, z2b_mod, <- !app_assoc, firstn_skipn.
      reflexivity. }
    now rewrite I.
Qed.

Lemma ihex_emitRecord_mem (x : Ihex.Writer string) (data : list field) :
  Ihex.emitRecord x data =
  (Ihex.mkWriter
     (Ihex.w x ++
      String ":" (strings_ToUpper
                    (hex_EncodeToString
                       (List.concat (map binary_Write data) ++
                        [Ihex.calcChecksum (List.concat (map binary_Write data))])))
      ++ nl)%string
     (Ihex.width x) (Ihex.addr x) (Ihex.fifo x), None).
Proof.
  unfold Ihex.emitRecord, io_Write, MemSink. cbn [option_map].
  repeat f_equal.
Qed.

(** *** The ihex coalescer on a contiguous run *)

Lemma ihex_step_chain (g : nat -> nat -> nat -> nat) (st : Ihex.cstate)
      (out : list Ihex.outrec) (a0 cur : Z) (acc : list byte) (r : Ihex.HexRec) :
  Ihex.RecordType r = Ihex.Data -> Ihex.Address r = cur ->
  ihex_in_run st out a0 cur acc ->
  ihex_in_run (Ihex.step g st r) out a0
              (Ihex.uint16 (cur + Ihex.uint16 (len (Ihex.Data_ r))))
              (acc ++ Ihex.Data_ r) /\
  Ihex.dataRecGroup (Ihex.step g st r) = true.
Proof.
  intros Ht Ha (Hout & Hok & Hres & Hst).
  unfold Ihex.step. rewrite Ht. change (Byte.eqb Ihex.Data Ihex.Data) with true.
  cbv iota. unfold Ihex.processDataRec.
  destruct Hst as [(Hg & Hctr & Hbase) | (Hg & -> & ->)]; rewrite Hg; cbn [negb].
  - rewrite Ha, Hctr, Z.eqb_refl.
    pose proof (Buffer_Write_resolve g (Ihex.mem st) (Ihex.data st)
                  (Ihex.Data_ r) Hok) as [Wok Wres].
    destruct (Buffer_Write g (Ihex.mem st) (Ihex.data st) (Ihex.Data_ r))
      as [m d].
    cbn [fst snd] in *. unfold ihex_in_run.
    cbn [Ihex.outList Ihex.mem Ihex.data Ihex.dataRecGroup Ihex.addressCounter
         Ihex.dataBaseAddr].
    rewrite Wres, Hres. auto 10.
  - unfold Ihex.startGroup.
    assert (Rok : buf_ok (Ihex.mem st) (Buffer_Reset (Ihex.data st)))
      by now apply buf_ok_Reset.
    assert (Rres : resolve (Ihex.mem st) (Buffer_Reset (Ihex.data st)) = []).
    { destruct (Ihex.data st) as [[i l]|]; reflexivity. }
    pose proof (Buffer_Write_resolve g (Ihex.mem st) (Buffer_Reset (Ihex.data st))
                  (Ihex.Data_ r) Rok) as [Wok Wres].
    destruct (Buffer_Write g (Ihex.mem st) (Buffer_Reset (Ihex.data st))
                           (Ihex.Data_ r)) as [m d].
    cbn [fst snd] in *. unfold ihex_in_run.
    cbn [Ihex.outList Ihex.mem Ihex.data Ihex.dataRecGroup Ihex.addressCounter
         Ihex.dataBaseAddr].
    rewrite Wres, Rres, Ha. cbn [app]. auto 10.
Qed.

Lemma ihex_fold_chain (g : nat -> nat -> nat -> nat) (recs : list Ihex.HexRec) :
  forall st out a0 cur acc,
    ihex_chain cur recs ->
    ihex_in_run st out a0 cur acc ->
    exists cur',
      ihex_in_run (fold_left (Ihex.step g) recs st) out a0 cur'
                  (acc ++ List.concat (map Ihex.Data_ recs)).
Proof.
  induction recs as [|r recs IH]; intros st out a0 cur acc Hc Hin.
  - exists cur. cbn. now rewrite app_nil_r.
  - destruct Hc as (Ht & Ha & Hc). cbn [fold_left map List.concat].
    destruct (ihex_step_chain g st out a0 cur acc r Ht Ha Hin) as [Hin' _].
    destruct (IH _ _ _ _ _ Hc Hin') as (cur' & H).
    exists cur'. now rewrite app_assoc.
Qed.

Lemma ihex_step_quiet (g : nat -> nat -> nat -> nat) (st : Ihex.cstate)
      (out : list Ihex.outrec) (h : heap) (r : Ihex.HexRec) :
  Ihex.RecordType r <> Ihex.Data ->
  ihex_quiet st out h ->
  ihex_quiet (Ihex.step g st r) (out ++ [Ihex.Passed r]) h /\
  Ihex.dataRecGroup (Ihex.step g st r) = false /\
  Ihex.data (Ihex.step g st r) = Ihex.data st.
Proof.
  intros Ht (Hout & Hlen & Hmem). unfold Ihex.step.
  destruct (Byte.eqb (Ihex.RecordType r) Ihex.Data) eqn:E;
    [apply Byte.byte_dec_bl in E; contradiction|].
  rewrite Hlen. cbn [Nat.ltb Nat.leb]. unfold ihex_quiet.
  cbn [Ihex.outList Ihex.mem Ihex.data Ihex.dataRecGroup].
  rewrite Hout. auto.
Qed.

Lemma ihex_fold_quiet (g : nat -> nat -> nat -> nat) (l : list Ihex.HexRec) :
  Forall (fun r => Ihex.RecordType r <> Ihex.Data) l ->
  forall st out h,
    ihex_quiet st out h ->
    ihex_quiet (fold_left (Ihex.step g) l st) (out ++ map Ihex.Passed l) h /\
    (l <> [] -> Ihex.dataRecGroup (fold_left (Ihex.step g) l st) = false) /\
    Ihex.data (fold_left (Ihex.step g) l st) = Ihex.data st.
Proof.
  induction 1 as [|r l Hr _ IH]; intros st out h Hq.
  - cbn. rewrite app_nil_r. split; [exact Hq|]. split; [congruence|reflexivity].
  - cbn [fold_left map].
    destruct (ihex_step_quiet g st out h r Hr Hq) as (Hq' & Hg & Hd).
    destruct (IH _ _ _ Hq') as (Hq'' & Hg' & Hd').
    rewrite <- app_assoc in Hq''. cbn [app] in Hq''.
    split; [exact Hq''|]. split; [|congruence].
    intros _. destruct l as [|r' l']; [exact Hg|apply Hg'; discriminate].
Qed.

Lemma map_deref_Passed h (l : list Ihex.HexRec) :
  map (Ihex.deref h) (map Ihex.Passed l) = l.
Proof. induction l as [|r l IH]; [reflexivity|]. cbn. now rewrite IH. Qed.

Lemma ihex_run_quiet (g : nat -> nat -> nat -> nat) (st : Ihex.cstate)
      (out : list Ihex.outrec) (h : heap) :
  ihex_quiet st out h ->
  (if Nat.ltb 0 (Buffer_Len (Ihex.data st)) then Ihex.emitJumboDataRec st else st)
  = st.
Proof. intros (_ & -> & _). reflexivity. Qed.

Lemma ihex_coalesce_chain_lemma (g : nat -> nat -> nat -> nat)
      (pre recs post : list Ihex.HexRec) (a : Z) :
  Forall (fun r => Ihex.RecordType r <> Ihex.Data) pre ->
  ihex_chain a recs ->
  Forall (fun r => Ihex.RecordType r <> Ihex.Data) post ->
  Ihex.CoalesceDataRecs g (pre ++ recs ++ post) =
  pre ++ ihex_jumbo a (List.concat (map Ihex.Data_ recs)) ++ post.
Proof.
  intros Hpre Hc Hpost.
  unfold Ihex.CoalesceDataRecs, Ihex.run. rewrite !fold_left_app.
  (* the records before the run *)
  assert (Q0 : ihex_quiet Ihex.initial [] []) by (repeat split).
  destruct (ihex_fold_quiet g pre Hpre _ _ _ Q0) as (Q1 & G1 & D1).
  set (st1 := fold_left (Ihex.step g) pre Ihex.initial) in *.
  cbn [app] in Q1. change (Ihex.data Ihex.initial) with (@None slice) in D1.
  assert (G1' : Ihex.dataRecGroup st1 = false).
  { destruct pre as [|r0 pre0]; [reflexivity|apply G1; discriminate]. }
  assert (R1 : ihex_in_run st1 (map Ihex.Passed pre) a a []).
  { destruct Q1 as (O1 & _ & M1). unfold ihex_in_run. rewrite D1.
    cbn [buf_ok resolve]. auto 10. }
  (* the run *)
  destruct (ihex_fold_chain g recs _ _ _ _ _ Hc R1) as (cur & R2).
  set (st2 := fold_left (Ihex.step g) recs st1) in *.
  cbn [app] in R2. set (acc := List.concat (map Ihex.Data_ recs)) in *.
  destruct R2 as (O2 & Ok2 & Res2 & St2).
  pose proof (buf_ok_Len _ _ Ok2) as L2. rewrite Res2 in L2.
  destruct acc as [|b acc'] eqn:Eacc.
  - (* a run without bytes *)
    assert (Q2 : ihex_quiet st2 (map Ihex.Passed pre) (Ihex.mem st2))
      by (repeat split; [exact O2|now rewrite <- L2]).
    destruct (ihex_fold_quiet g post Hpost _ _ _ Q2) as (Q3 & _ & _).
    rewrite (ihex_run_quiet g _ _ _ Q3).
    destruct Q3 as (-> & _ & _). cbn [ihex_jumbo app].
    now rewrite <- map_app, map_deref_Passed.
  - (* a run with bytes *)
    assert (Base : Ihex.dataBaseAddr st2 = a).
    { destruct St2 as [(_ & _ & B) | (_ & N & _)]; [exact B|discriminate]. }
    assert (Pos : Nat.ltb 0 (Buffer_Len (Ihex.data st2)) = true)
      by (rewrite <- L2; reflexivity).
    cbn [ihex_jumbo].
    destruct post as [|r post'].
    + cbn [fold_left]. rewrite Pos.
      cbn [Ihex.emitJumboDataRec Ihex.outList Ihex.mem]. rewrite O2, Base.
      rewrite map_app, map_deref_Passed. cbn [map Ihex.deref].
      unfold Buffer_Bytes. now rewrite Res2.
    + apply Forall_cons_iff in Hpost. destruct Hpost as [Hr Hpost'].
      cbn [fold_left].
      set (st3 := Ihex.step g st2 r).
      assert (Q3 : ihex_quiet st3
                     (map Ihex.Passed pre ++
                      [Ihex.Jumbo a Ihex.Data (Ihex.data st2); Ihex.Passed r])
                     (Ihex.mem st2)).
      { unfold st3, Ihex.step.
        destruct (Byte.eqb (Ihex.RecordType r) Ihex.Data) eqn:E;
          [apply Byte.byte_dec_bl in E; contradiction|].
        rewrite Pos. unfold ihex_quiet.
        cbn [Ihex.emitJumboDataRec Ihex.outList Ihex.mem Ihex.data].
        rewrite O2, Base, <- app_assoc. cbn [app]. unfold Buffer_Bytes.
        repeat split. now destruct (Ihex.data st2). }
      destruct (ihex_fold_quiet g post' Hpost' _ _ _ Q3) as (Q4 & _ & _).
      rewrite (ihex_run_quiet g _ _ _ Q4).
      destruct Q4 as (-> & _ & ->).
      rewrite !map_app, map_deref_Passed. cbn [map Ihex.deref app].
      rewrite Res2, map_deref_Passed, <- app_assoc. reflexivity.
Qed.

(** *** The ihex writer on an in-memory sink *)

Lemma unlines_app (a b : list string) :
  unlines (a ++ b) = (unlines a ++ unlines b)%string.
Proof.
  induction a as [|l a IH]; [reflexivity|].
  cbn [app unlines fold_right]. fold (unlines (a ++ b)). fold (unlines a).
  now rewrite IH, !sapp_assoc.
Qed.

Lemma ihex_read_lines (ls : list string) (recs : list Ihex.HexRec) :
  Forall2 (fun l r => no_newline l = true /\ (0 <? slen l) = true /\
                      Ihex.decodeRecord l = Return (inr r)) ls recs ->
  forall acc,
    Ihex.ReadFile_loop (split_lines (unlines ls)) acc = Return (acc ++ recs, None).
Proof.
  induction 1 as [|l r ls recs (Hn & Hp & Hd) _ IH]; intros acc.
  - cbn. now rewrite app_nil_r.
  - cbn [unlines fold_right]. fold (unlines ls). unfold nl. cbn [append].
    rewrite split_lines_line by exact Hn.
    cbn [Ihex.ReadFile_loop]. rewrite Hp, Hd, IH, <- app_assoc. reflexivity.
Qed.

Lemma ihex_emitDataRecord_mem (x : Ihex.Writer string) (p : list byte) :
  Ihex.emitDataRecord x p =
  (Ihex.mkWriter (Ihex.w x ++ ihex_line (Ihex.addr x) Ihex.Data p ++ nl)%string
                 (Ihex.width x)
                 (Ihex.uint16 (Ihex.addr x + Ihex.uint16 (len p)))
                 (Ihex.fifo x), None).
Proof.
  unfold Ihex.emitDataRecord. rewrite ihex_emitRecord_mem. reflexivity.
Qed.

Lemma uint16_step (a wd j : Z) :
  Ihex.uint16 (Ihex.uint16 (a + Ihex.uint16 wd) + wd * j) =
  Ihex.uint16 (a + wd * (1 + j)).
Proof.
  unfold Ihex.uint16.
  rewrite Zplus_mod_idemp_l, (Z.add_comm a), <- Z.add_assoc, Zplus_mod_idemp_l.
  f_equal. lia.
Qed.

Lemma skipn_skipn_add {A} (n m : nat) (l : list A) :
  skipn n (skipn m l) = skipn (m + n) l.
Proof.
  revert l. induction m as [|m IH]; intros l; [reflexivity|].
  destruct l as [|x l]; [now rewrite !skipn_nil|]. cbn [skipn Nat.add]. apply IH.
Qed.

(** The loop of [Write] on an in-memory sink. *)
Lemma ihex_Write_loop_mem (fuel : nat) :
  forall (x : Ihex.Writer string) (c n : Z),
    1 <= Ihex.width x ->
    len (Ihex.fifo x) < Z.of_nat fuel ->
    0 <= Ihex.addr x < 65536 ->
    let wd := Ihex.width x in
    let j := len (Ihex.fifo x) / wd in
    Ihex.Write_loop fuel x c n =
    Some (Return
            (Ihex.mkWriter
               (Ihex.w x ++ ihex_text (ihex_records (Z.to_nat j) wd (Ihex.addr x)
                                                    (Ihex.fifo x)))%string
               wd
               (Ihex.uint16 (Ihex.addr x + wd * j))
               (skipn (Z.to_nat (wd * j)) (Ihex.fifo x)),
             (n, None))).
Proof.
  induction fuel as [|k IH]; intros x c n Hw Hf Ha wd j.
  - pose proof (len_nonneg (Ihex.fifo x)). lia.
  - cbn [Ihex.Write_loop]. pose proof (len_nonneg (Ihex.fifo x)) as Nf.
    destruct (Z.leb_spec (Ihex.width x) (len (Ihex.fifo x))) as [Hfull|Hrunt].
    + unfold Ihex.fifo_Next.
      replace (Ihex.width x <? 0) with false by (symmetry; apply Z.ltb_ge; lia).
      replace (Nat.min (Z.to_nat (Ihex.width x)) (List.length (Ihex.fifo x)))
        with (Z.to_nat (Ihex.width x)) by (unfold len in Hfull; lia).
      rewrite ihex_emitDataRecord_mem.
      cbn [Ihex.w Ihex.width Ihex.addr Ihex.fifo].
      assert (Lf : len (firstn (Z.to_nat (Ihex.width x)) (Ihex.fifo x)) = wd).
      { unfold len in *. rewrite length_firstn. unfold wd. lia. }
      assert (Ls : len (skipn (Z.to_nat (Ihex.width x)) (Ihex.fifo x)) =
                   len (Ihex.fifo x) - wd).
      { unfold len in *. rewrite length_skipn. unfold wd. lia. }
      rewrite Lf.
      set (x2 := Ihex.mkWriter _ _ _ _).
      specialize (IH x2 (c + Ihex.width x) n).
      cbn [x2 Ihex.w Ihex.width Ihex.addr Ihex.fifo] in IH. unfold x2 in *.
      cbn [Ihex.w Ihex.width Ihex.addr Ihex.fifo] in IH.
      rewrite IH; [|exact Hw|rewrite Ls; unfold wd; lia
                   |unfold Ihex.uint16; apply Z.mod_pos_bound; lia].
      rewrite Ls. fold wd.
      assert (J : j = 1 + (len (Ihex.fifo x) - wd) / wd).
      { unfold j. replace (len (Ihex.fifo x)) with
          ((len (Ihex.fifo x) - wd) + 1 * wd) at 1 by lia.
        rewrite Z.div_add by (unfold wd; lia). lia. }
      set (j' := (len (Ihex.fifo x) - wd) / wd) in *.
      assert (Nj : 0 <= j') by (apply Z.div_pos; unfold wd; lia).
      rewrite J, uint16_step.
      replace (Z.to_nat (1 + j')) with (S (Z.to_nat j')) by lia.
      cbn [ihex_records ihex_text map unlines fold_right fst snd].
      fold (unlines (map (fun r => ihex_line (fst r) Ihex.Data (snd r))
                         (ihex_records (Z.to_nat j') wd
                            (Ihex.uint16 (Ihex.addr x + Ihex.uint16 wd))
                            (skipn (Z.to_nat wd) (Ihex.fifo x))))).
      unfold ihex_text. rewrite skipn_skipn_add.
      replace (Z.to_nat wd + Z.to_nat (wd * j'))%nat
        with (Z.to_nat (wd * (1 + j'))) by (unfold wd in *; nia).
      rewrite !sapp_assoc. reflexivity.
    + assert (J : j = 0) by (apply Z.div_small; unfold wd; lia).
      rewrite J, Z.mul_0_r, Z.add_0_r. cbn [Z.to_nat skipn ihex_records].
      unfold ihex_text. cbn [map unlines fold_right]. rewrite sapp_nil_r.
      unfold Ihex.uint16. rewrite Z.mod_small by lia.
      destruct x; reflexivity.
Qed.

(** *** What [Write] emits and what it keeps *)

Lemma uint16_range z : 0 <= Ihex.uint16 z < 65536.
Proof. unfold Ihex.uint16. apply Z.mod_pos_bound. lia. Qed.

Lemma ihex_decode_short (a : Z) (t : byte) (d : list byte) :
  0 <= a < 65536 -> len d <= 255 ->
  Ihex.decodeRecord (ihex_line a t d) = Return (inr (Ihex.mkHexRec a t d)).
Proof.
  intros Ha Hd. rewrite ihex_decode_line by exact Ha.
  pose proof (len_nonneg d). rewrite Z.mod_small by lia.
  unfold len. rewrite Nat2Z.id, firstn_all. reflexivity.
Qed.

(** The full records cut from a FIFO content. *)
Lemma ihex_records_facts (n : nat) :
  forall (wd a : Z) (f : list byte),
    1 <= wd -> Z.of_nat n * wd <= len f ->
    List.concat (map snd (ihex_records n wd a f)) =
      firstn (Z.to_nat (wd * Z.of_nat n)) f /\
    Forall (fun r => len (snd r) = wd) (ihex_records n wd a f) /\
    (0 <= a < 65536 ->
     Forall (fun r => 0 <= fst r < 65536) (ihex_records n wd a f)) /\
    (forall rest,
        ihex_chain (Ihex.uint16 (a + wd * Z.of_nat n)) rest ->
        0 <= a < 65536 ->
        ihex_chain a (map ihex_data_rec (ihex_records n wd a f) ++ rest)).
Proof.
  induction n as [|k IH]; intros wd a f Hw Hn.
  - cbn [ihex_records map List.concat app]. rewrite Z.mul_0_r, Z.add_0_r.
    cbn [Z.to_nat firstn]. repeat split; auto.
    intros rest Hc Ha. unfold Ihex.uint16 in Hc.
    now rewrite Z.mod_small in Hc by lia.
  - cbn [ihex_records map List.concat fst snd].
    assert (Lf : len (firstn (Z.to_nat wd) f) = wd)
      by (unfold len in *; rewrite length_firstn; lia).
    assert (Ls : len (skipn (Z.to_nat wd) f) = len f - wd)
      by (unfold len in *; rewrite length_skipn; lia).
    destruct (IH wd (Ihex.uint16 (a + Ihex.uint16 wd)) (skipn (Z.to_nat wd) f) Hw)
      as (C & F & R & Ch); [rewrite Ls; lia|].
    split; [|split; [|split]].
    + rewrite C.
      replace (Z.to_nat (wd * Z.of_nat (S k)))
        with (Z.to_nat wd + Z.to_nat (wd * Z.of_nat k))%nat by nia.
      rewrite <- (firstn_skipn (Z.to_nat wd) f) at 3.
      rewrite firstn_app, firstn_firstn, length_firstn.
      replace (Nat.min (Z.to_nat wd + Z.to_nat (wd * Z.of_nat k)) (Z.to_nat wd))
        with (Z.to_nat wd) by lia.
      f_equal. f_equal. unfold len in *. lia.
    + constructor; [exact Lf|exact F].
    + intros Ha. constructor; [exact Ha|apply R, uint16_range].
    + intros rest Hc Ha. cbn [app ihex_chain ihex_data_rec Ihex.RecordType
                               Ihex.Address Ihex.Data_ fst snd].
      split; [reflexivity|]. split; [reflexivity|]. rewrite Lf.
      apply Ch; [|apply uint16_range].
      rewrite uint16_step.
      replace (wd * (1 + Z.of_nat k)) with (wd * Z.of_nat (S k)) by lia.
      exact Hc.
Qed.

Lemma ihex_lines_decode (wd : Z) (recs : list (Z * list byte)) :
  wd <= 255 ->
  Forall (fun r => len (snd r) = wd) recs ->
  Forall (fun r => 0 <= fst r < 65536) recs ->
  Forall2 (fun l r => no_newline l = true /\ (0 <? slen l) = true /\
                      Ihex.decodeRecord l = Return (inr r))
          (map (fun r => ihex_line (fst r) Ihex.Data (snd r)) recs)
          (map ihex_data_rec recs).
Proof.
  intros Hw. induction recs as [|r recs IH]; intros F R; [constructor|].
  apply Forall_cons_iff in F. destruct F as [F1 F].
  apply Forall_cons_iff in R. destruct R as [R1 R].
  cbn [map]. constructor; [|now apply IH].
  split; [apply no_newline_ihex_line|]. split; [apply ihex_line_nonempty|].
  apply ihex_decode_short; [exact R1|lia].
Qed.

Lemma concat_map_data (recs : list (Z * list byte)) :
  List.concat (map Ihex.Data_ (map ihex_data_rec recs)) =
  List.concat (map snd recs).
Proof. rewrite map_map. reflexivity. Qed.

Lemma div_mul_le (n wd : Z) : 0 <= n -> 1 <= wd -> wd * (n / wd) <= n.
Proof. intros. apply Z.mul_div_le. lia. Qed.

Lemma residue_len (wd : Z) (f : list byte) :
  1 <= wd ->
  len (skipn (Z.to_nat (wd * (len f / wd))) f) = len f mod wd.
Proof.
  intros Hw. pose proof (len_nonneg f) as Nf.
  pose proof (div_mul_le (len f) wd Nf Hw) as Le.
  assert (0 <= len f / wd) by (apply Z.div_pos; lia).
  unfold len in *. rewrite length_skipn.
  rewrite Z.mod_eq by lia. nia.
Qed.

(** X9.  Write of an ihex writer of width 1 to 255 over an empty in-memory
    sink takes the whole slice and reports its length, writes full records
    only and keeps the rest: the sink reads back as data records of
    exactly width bytes, each starting where the one before ended, from
    the address of the writer; their payloads followed by the new FIFO are
    the old FIFO followed by the slice; the FIFO holds the remainder of
    that length by the width; the address counter has moved by the bytes
    written. *)
Theorem ihex_Write_buffers (fuel : nat) (x : Ihex.Writer string) (p : list byte) :
  Ihex.w x = "" ->
  1 <= Ihex.width x <= 255 ->
  0 <= Ihex.addr x < 65536 ->
  len (Ihex.fifo x ++ p) < Z.of_nat fuel ->
  exists x' recs,
    Ihex.Write fuel x p = Some (Return (x', (len p, None))) /\
    len (Ihex.fifo x') = len (Ihex.fifo x ++ p) mod Ihex.width x /\
    List.concat (map Ihex.Data_ recs) ++ Ihex.fifo x' = Ihex.fifo x ++ p /\
    Ihex.ReadFile (inr (Ihex.w x')) = Return (recs, None) /\
    Forall (fun r => len (Ihex.Data_ r) = Ihex.width x) recs /\
    ihex_chain (Ihex.addr x) recs /\
    Ihex.addr x' =
      Ihex.uint16 (Ihex.addr x + len (List.concat (map Ihex.Data_ recs))).
Proof.
  intros Hsink Hw Ha Hf. unfold Ihex.Write.
  set (f := Ihex.fifo x ++ p) in *. set (wd := Ihex.width x) in *.
  set (x1 := Ihex.mkWriter _ _ _ _).
  pose proof (ihex_Write_loop_mem fuel x1 0 (len p)) as W.
  cbn [x1 Ihex.w Ihex.width Ihex.addr Ihex.fifo] in W. unfold x1 in *.
  cbn [Ihex.w Ihex.width Ihex.addr Ihex.fifo] in W. fold wd in W.
  specialize (W ltac:(lia) Hf Ha). cbv zeta in W. rewrite Hsink in W.
  cbn [append] in W.
  pose proof (len_nonneg f) as Nf.
  set (j := len f / wd) in *.
  assert (Nj : 0 <= j) by (apply Z.div_pos; lia).
  pose proof (div_mul_le (len f) wd Nf ltac:(lia)) as Le. fold j in Le.
  destruct (ihex_records_facts (Z.to_nat j) wd (Ihex.addr x) f ltac:(lia))
    as (C & F & R & Ch); [rewrite Z2Nat.id by lia; lia|].
  rewrite Z2Nat.id in C by lia.
  set (rs := ihex_records (Z.to_nat j) wd (Ihex.addr x) f) in *.
  rewrite Hsink. eexists. exists (map ihex_data_rec rs). split; [exact W|].
  cbn [Ihex.fifo Ihex.w Ihex.addr].
  split; [apply residue_len; lia|].
  split; [rewrite concat_map_data, C; apply firstn_skipn|].
  split.
  { unfold Ihex.ReadFile, ihex_text.
    rewrite (ihex_read_lines _ (map ihex_data_rec rs)); [reflexivity|].
    apply (ihex_lines_decode wd); [lia|exact F|now apply R]. }
  split.
  { apply Forall_map. revert F. apply Forall_impl. now intros [a d]. }
  split.
  { specialize (Ch [] I Ha). now rewrite app_nil_r in Ch. }
  rewrite concat_map_data, C. f_equal. f_equal.
  unfold len in *. rewrite length_firstn. lia.
Qed.

Lemma ihex_Write_buffers_witness :
  exists x' recs,
    Ihex.Write 40 (Ihex.NewWriterWidth "" 4) (repeat xaa 10) =
      Some (Return (x', (10, None))) /\
    len (Ihex.fifo x') = 2 /\
    List.concat (map Ihex.Data_ recs) ++ Ihex.fifo x' = repeat xaa 10 /\
    Ihex.ReadFile (inr (Ihex.w x')) = Return (recs, None) /\
    Forall (fun r => len (Ihex.Data_ r) = 4) recs /\
    ihex_chain 0 recs /\
    Ihex.addr x' = Ihex.uint16 (0 + len (List.concat (map Ihex.Data_ recs))).
Proof.
  apply (ihex_Write_buffers 40 (Ihex.NewWriterWidth "" 4) (repeat xaa 10)).
  - reflexivity.
  - cbn; lia.
  - cbn; lia.
  - cbn; lia.
Defined.

(** *** Round trip through the ihex writer *)

Lemma ihex_eof_line : ihex_line 0 Ihex.EndOfFile [] = ":00000001FF".
Proof. reflexivity. Qed.

Lemma ihex_Close_mem (x : Ihex.Writer string) :
  Ihex.w (fst (Ihex.Close x)) =
    (Ihex.w x ++
     (if (0 <? len (Ihex.fifo x))%Z
      then ihex_line (Ihex.addr x) Ihex.Data (Ihex.fifo x) ++ nl else "") ++
     ":00000001FF" ++ nl)%string /\
  snd (Ihex.Close x) = None.
Proof.
  unfold Ihex.Close, Ihex.Flush.
  destruct (0 <? len (Ihex.fifo x)).
  - rewrite ihex_emitDataRecord_mem, ihex_emitRecord_mem.
    cbn [fst snd Ihex.w]. split; [|reflexivity].
    rewrite !sapp_assoc. reflexivity.
  - rewrite ihex_emitRecord_mem. cbn [fst snd Ihex.w]. split; reflexivity.
Qed.

Lemma ihex_encode_text (wd a : Z) (p : list byte) (fuel : nat) :
  1 <= wd -> 0 <= a < 65536 -> len p < Z.of_nat fuel ->
  ihex_encode fuel wd a p =
    Some (ihex_text (ihex_all_records wd a p) ++ ":00000001FF" ++ nl)%string.
Proof.
  intros Hw Ha Hf. unfold ihex_encode, Ihex.Write, Ihex.SetAddress,
    Ihex.NewWriterWidth.
  cbn [Ihex.w Ihex.width Ihex.addr Ihex.fifo app].
  rewrite ihex_Write_loop_mem; cbn [Ihex.w Ihex.width Ihex.addr Ihex.fifo];
    [|lia|exact Hf|exact Ha].
  cbn [append].
  set (xw := Ihex.mkWriter _ _ _ _).
  destruct (ihex_Close_mem xw) as [Cw Ce].
  destruct (Ihex.Close xw) as [x' e']. cbn [fst snd] in *. subst e'.
  rewrite Cw. unfold xw. cbn [Ihex.w Ihex.fifo Ihex.addr].
  unfold ihex_all_records, ihex_text.
  rewrite map_app, unlines_app.
  destruct (0 <? len (skipn (Z.to_nat (wd * (len p / wd))) p)).
  - cbn [map unlines fold_right fst snd]. rewrite !sapp_assoc, ?sapp_nil_r.
    reflexivity.
  - cbn [map unlines fold_right append]. rewrite sapp_nil_r. reflexivity.
Qed.

Lemma ihex_all_records_facts (wd a : Z) (f : list byte) :
  1 <= wd <= 255 -> 0 <= a < 65536 ->
  List.concat (map snd (ihex_all_records wd a f)) = f /\
  Forall (fun r => len (snd r) <= 255) (ihex_all_records wd a f) /\
  Forall (fun r => 0 <= fst r < 65536) (ihex_all_records wd a f) /\
  ihex_chain a (map ihex_data_rec (ihex_all_records wd a f)).
Proof.
  intros Hw Ha. unfold ihex_all_records.
  pose proof (len_nonneg f) as Nf.
  set (j := len f / wd).
  assert (Nj : 0 <= j) by (apply Z.div_pos; lia).
  pose proof (div_mul_le (len f) wd Nf ltac:(lia)) as Le. fold j in Le.
  destruct (ihex_records_facts (Z.to_nat j) wd a f ltac:(lia))
    as (C & F & R & Ch); [rewrite Z2Nat.id by lia; lia|].
  rewrite Z2Nat.id in C, Ch by lia.
  pose proof (residue_len wd f ltac:(lia)) as RL. fold j in RL.
  set (rest := skipn (Z.to_nat (wd * j)) f) in *.
  assert (RB : len rest < wd) by (rewrite RL; apply Z.mod_pos_bound; lia).
  split; [|split; [|split]].
  - rewrite map_app, concat_app, C.
    destruct (0 <? len rest) eqn:P.
    + cbn [map List.concat snd]. rewrite app_nil_r. apply firstn_skipn.
    + cbn [map List.concat]. rewrite app_nil_r.
      apply len_nil_iff in P. rewrite <- (firstn_skipn (Z.to_nat (wd * j)) f) at 2.
      fold rest. rewrite P. now rewrite app_nil_r.
  - apply Forall_app. split.
    + revert F. apply Forall_impl. intros r Hr. lia.
    + destruct (0 <? len rest); repeat constructor. cbn [snd]. lia.
  - apply Forall_app. split; [now apply R|].
    destruct (0 <? len rest); repeat constructor; cbn [fst];
      apply uint16_range.
  - rewrite map_app. apply Ch; [|exact Ha].
    destruct (0 <? len rest); cbn [map ihex_chain]; [|exact I].
    cbn [ihex_data_rec Ihex.RecordType Ihex.Address fst snd]. auto.
Qed.

Lemma ihex_lines_decode_le (recs : list (Z * list byte)) :
  Forall (fun r => len (snd r) <= 255) recs ->
  Forall (fun r => 0 <= fst r < 65536) recs ->
  Forall2 (fun l r => no_newline l = true /\ (0 <? slen l) = true /\
                      Ihex.decodeRecord l = Return (inr r))
          (map (fun r => ihex_line (fst r) Ihex.Data (snd r)) recs)
          (map ihex_data_rec recs).
Proof.
  induction recs as [|r recs IH]; intros F R; [constructor|].
  apply Forall_cons_iff in F. destruct F as [F1 F].
  apply Forall_cons_iff in R. destruct R as [R1 R].
  cbn [map]. constructor; [|now apply IH].
  split; [apply no_newline_ihex_line|]. split; [apply ihex_line_nonempty|].
  apply ihex_decode_short; assumption.
Qed.

(** X10.  Round trip of the ihex package: for a width of 1 to 255, a
    16-bit address and any payload, NewWriterWidth, SetAddress, Write and
    Close over an in-memory sink leave a text that ReadFile reads without
    error, and coalescing its records gives the payload as one data record
    at the address (no data record for the empty payload) followed by the
    EOF record. *)
Theorem ihex_roundtrip (g : nat -> nat -> nat -> nat) (wd a : Z)
        (p : list byte) :
  1 <= wd <= 255 -> 0 <= a < 65536 ->
  exists text recs,
    ihex_encode (S (List.length p)) wd a p = Some text /\
    Ihex.ReadFile (inr text) = Return (recs, None) /\
    Ihex.CoalesceDataRecs g recs =
      ihex_jumbo a p ++ [Ihex.mkHexRec 0 Ihex.EndOfFile []].
Proof.
  intros Hw Ha.
  destruct (ihex_all_records_facts wd a p Hw Ha) as (C & F & R & Ch).
  set (rs := ihex_all_records wd a p) in *.
  exists (ihex_text rs ++ ":00000001FF" ++ nl)%string.
  exists (map ihex_data_rec rs ++ [Ihex.mkHexRec 0 Ihex.EndOfFile []]).
  split; [apply ihex_encode_text; [lia|exact Ha|unfold len; lia]|].
  split.
  - unfold Ihex.ReadFile, ihex_text.
    change (":00000001FF" ++ nl)%string with (unlines [":00000001FF"]).
    rewrite <- unlines_app.
    apply (ihex_read_lines _ _) with (acc := []).
    apply Forall2_app; [now apply ihex_lines_decode_le|].
    constructor; [|constructor]. repeat split.
  - pose proof (ihex_coalesce_chain_lemma g [] (map ihex_data_rec rs)
                  [Ihex.mkHexRec 0 Ihex.EndOfFile []] a) as H.
    cbn [app] in H. rewrite H;
      [|constructor|exact Ch|repeat constructor; discriminate].
    now rewrite concat_map_data, C.
Qed.

Lemma ihex_roundtrip_witness :
  exists text recs,
    ihex_encode 41 16 4096 (repeat x5a 40) = Some text /\
    Ihex.ReadFile (inr text) = Return (recs, None) /\
    Ihex.CoalesceDataRecs go_growCap recs =
      ihex_jumbo 4096 (repeat x5a 40) ++ [Ihex.mkHexRec 0 Ihex.EndOfFile []].
Proof.
  apply (ihex_roundtrip go_growCap 16 4096 (repeat x5a 40)); lia.
Defined.

(** *** Address records, wide records, residues, joined files *)

Lemma ihex_read_one (line : string) (rec : Ihex.HexRec) :
  no_newline line = true -> (0 <? slen line) = true ->
  Ihex.decodeRecord line = Return (inr rec) ->
  Ihex.ReadFile (inr (line ++ nl)%string) = Return ([rec], None).
Proof.
  intros Hn Hp Hd. unfold Ihex.ReadFile.
  change (line ++ nl)%string with (line ++ nl ++ "")%string.
  change (line ++ nl ++ "")%string with (unlines [line]).
  apply (ihex_read_lines [line] [rec]) with (acc := []).
  repeat constructor; assumption.
Qed.

Lemma ihex_emitRecord_read (data : list field) (a : Z) (t : byte)
      (d : list byte) (x : Ihex.Writer string) :
  List.concat (map binary_Write data) = ihex_image a t d ->
  0 <= a < 65536 -> len d <= 255 -> Ihex.w x = "" ->
  Ihex.ReadFile (inr (Ihex.w (fst (Ihex.emitRecord x data)))) =
    Return ([Ihex.mkHexRec a t d], None).
Proof.
  intros E Ha Hd Hw. rewrite ihex_emitRecord_mem, E, Hw. cbn [fst Ihex.w append].
  apply (ihex_read_one (ihex_line a t d)).
  - apply no_newline_ihex_line.
  - apply ihex_line_nonempty.
  - now apply ihex_decode_short.
Qed.

(** X7.  What WriteExSegAddr and WriteStartSegAddr write on a new writer
    is read back by ReadFile as one record of address 0 and of type
    Extended Segment Address or Start Segment Address, whose payload is
    the 16-bit arguments, high byte first. *)
Theorem ihex_segment_records_read_back (sa cs ip : Z) :
  Ihex.ReadFile
    (inr (Ihex.w (fst (Ihex.WriteExSegAddr (Ihex.NewWriter "") sa)))) =
    Return ([Ihex.mkHexRec 0 Ihex.ExtSegAddr [z2b (Z.shiftr sa 8); z2b sa]],
            None) /\
  Ihex.ReadFile
    (inr (Ihex.w (fst (Ihex.WriteStartSegAddr (Ihex.NewWriter "") cs ip)))) =
    Return ([Ihex.mkHexRec 0 Ihex.StartSegAddr
               [z2b (Z.shiftr cs 8); z2b cs; z2b (Z.shiftr ip 8); z2b ip]],
            None).
Proof.
  split; apply ihex_emitRecord_read; try reflexivity; cbn; lia.
Qed.

(** X8.  What WriteExtLinAddr and WriteStartLinAddr write on a new writer
    is read back by ReadFile as one record of address 0 and of type
    Extended Linear Address or Start Linear Address, whose payload is the
    16-bit argument in two bytes or the 32-bit argument in four bytes,
    high byte first. *)
Theorem ihex_linear_records_read_back (ela eip : Z) :
  Ihex.ReadFile
    (inr (Ihex.w (fst (Ihex.WriteExtLinAddr (Ihex.NewWriter "") ela)))) =
    Return ([Ihex.mkHexRec 0 Ihex.ExtLinAddr [z2b (Z.shiftr ela 8); z2b ela]],
            None) /\
  Ihex.ReadFile
    (inr (Ihex.w (fst (Ihex.WriteStartLinAddr (Ihex.NewWriter "") eip)))) =
    Return ([Ihex.mkHexRec 0 Ihex.StartLinAddr
               [z2b (Z.shiftr eip 24); z2b (Z.shiftr eip 16);
                z2b (Z.shiftr eip 8); z2b eip]],
            None).
Proof.
  split; apply ihex_emitRecord_read; try reflexivity; cbn; lia.
Qed.

(** X11.  With a width of 256 or more the count byte of a data record is
    the width modulo 256: a payload of exactly width bytes is written in
    one record with all its bytes, and ReadFile reads that record back,
    without error, with the first (width mod 256) bytes only, then the EOF
    record. *)
Theorem ihex_wide_record_truncated (wd a : Z) (p : list byte) :
  256 <= wd -> len p = wd -> 0 <= a < 65536 ->
  exists text,
    ihex_encode (S (List.length p)) wd a p = Some text /\
    Ihex.ReadFile (inr text) =
      Return ([Ihex.mkHexRec a Ihex.Data (firstn (Z.to_nat (wd mod 256)) p);
               Ihex.mkHexRec 0 Ihex.EndOfFile []], None).
Proof.
  intros Hw Hp Ha.
  rewrite ihex_encode_text; [|lia|exact Ha|unfold len; lia].
  eexists. split; [reflexivity|].
  unfold ihex_all_records. rewrite Hp, Z.div_same, Z.mul_1_r by lia.
  change (Z.to_nat 1) with 1%nat. cbn [ihex_records].
  assert (F : firstn (Z.to_nat wd) p = p)
    by (apply firstn_all2; unfold len in Hp; lia).
  assert (S0 : skipn (Z.to_nat wd) p = [])
    by (apply skipn_all2; unfold len in Hp; lia).
  rewrite F, S0. change (0 <? len []) with false. cbv iota. cbn [app].
  unfold Ihex.ReadFile, ihex_text. cbn [map fst snd].
  change (":00000001FF" ++ nl)%string with (unlines [":00000001FF"]).
  rewrite <- unlines_app. cbn [app].
  apply (ihex_read_lines _ _) with (acc := []).
  constructor; [|constructor; [|constructor]].
  - split; [apply no_newline_ihex_line|]. split; [apply ihex_line_nonempty|].
    rewrite ihex_decode_line by exact Ha. now rewrite Hp.
  - repeat split.
Qed.

Lemma ihex_wide_record_truncated_witness :
  exists text,
    ihex_encode 301 300 0 (repeat x11 300) = Some text /\
    Ihex.ReadFile (inr text) =
      Return ([Ihex.mkHexRec 0 Ihex.Data (firstn (Z.to_nat (300 mod 256))
                                                 (repeat x11 300));
               Ihex.mkHexRec 0 Ihex.EndOfFile []], None).
Proof.
  apply (ihex_wide_record_truncated 300 0 (repeat x11 300)).
  - lia.
  - reflexivity.
  - lia.
Defined.

(** The writer of the earlier draft: [Close] leaves the FIFO alone. *)
Lemma ihexdraft_emitRecord_mem (x : Ihex.Writer string) (data : list field) :
  IhexDraft.emitRecord x data =
  (Ihex.mkWriter
     (Ihex.w x ++
      String ":" (strings_ToUpper
                    (hex_EncodeToString
                       (List.concat (map binary_Write data) ++
                        [Ihex.calcChecksum (List.concat (map binary_Write data))])))
      ++ nl)%string
     (Ihex.width x) (Ihex.addr x) (Ihex.fifo x), None).
Proof. reflexivity. Qed.

(** X13.  Close of the earlier draft of the ihex writer does not flush:
    after a Write shorter than the width on a writer with an empty FIFO
    and sink, Close writes the EOF record only; the sink reads back as
    that one record and the bytes are still in the FIFO. *)
Theorem ihexdraft_Close_drops_residue (fuel : nat) (x : Ihex.Writer string)
        (p : list byte) :
  Ihex.w x = "" -> Ihex.fifo x = [] -> len p < Ihex.width x ->
  exists x1,
    IhexDraft.Write fuel x p = Some (Return (x1, (len p, None))) /\
    Ihex.fifo x1 = p /\
    Ihex.fifo (fst (IhexDraft.Close x1)) = p /\
    snd (IhexDraft.Close x1) = None /\
    Ihex.ReadFile (inr (Ihex.w (fst (IhexDraft.Close x1)))) =
      Return ([Ihex.mkHexRec 0 Ihex.EndOfFile []], None).
Proof.
  intros Hw Hf Hp. unfold IhexDraft.Write. rewrite Hf, Hw. cbn [app].
  eexists. split.
  - destruct fuel; cbn [IhexDraft.Write_loop Ihex.width Ihex.fifo];
      replace (Ihex.width x <=? len p) with false
        by (symmetry; apply Z.leb_gt; lia); reflexivity.
  - cbn [Ihex.fifo]. split; [reflexivity|].
    unfold IhexDraft.Close. rewrite ihexdraft_emitRecord_mem.
    cbn [fst snd Ihex.fifo Ihex.w]. repeat split.
Qed.

Lemma ihexdraft_Close_drops_residue_witness :
  exists x1,
    IhexDraft.Write 1 (Ihex.NewWriter "") [x01; x02; x03] =
      Some (Return (x1, (3, None))) /\
    Ihex.fifo x1 = [x01; x02; x03] /\
    Ihex.fifo (fst (IhexDraft.Close x1)) = [x01; x02; x03] /\
    snd (IhexDraft.Close x1) = None /\
    Ihex.ReadFile (inr (Ihex.w (fst (IhexDraft.Close x1)))) =
      Return ([Ihex.mkHexRec 0 Ihex.EndOfFile []], None).
Proof.
  apply (ihexdraft_Close_drops_residue 1 (Ihex.NewWriter "") [x01; x02; x03]).
  - reflexivity.
  - reflexivity.
  - cbn; lia.
Defined.

(** X12.  SetAddress of the ihex writer does not flush: bytes that a Write
    shorter than the width left in the FIFO are written by the Flush that
    follows SetAddress as a record at the new address, not at the address
    they were written for. *)
Theorem ihex_SetAddress_moves_residue (fuel : nat) (x : Ihex.Writer string)
        (p : list byte) (b : Z) :
  Ihex.w x = "" -> Ihex.fifo x = [] ->
  p <> [] -> len p < Ihex.width x -> len p <= 255 -> 0 <= b < 65536 ->
  exists x1,
    Ihex.Write fuel x p = Some (Return (x1, (len p, None))) /\
    Ihex.ReadFile (inr (Ihex.w (fst (Ihex.Flush (Ihex.SetAddress x1 b))))) =
      Return ([Ihex.mkHexRec b Ihex.Data p], None).
Proof.
  intros Hw Hf Hne Hp H255 Hb. unfold Ihex.Write. rewrite Hf, Hw. cbn [app].
  eexists. split.
  - destruct fuel; cbn [Ihex.Write_loop Ihex.width Ihex.fifo];
      replace (Ihex.width x <=? len p) with false
        by (symmetry; apply Z.leb_gt; lia); reflexivity.
  - unfold Ihex.Flush, Ihex.SetAddress. cbn [Ihex.fifo Ihex.w Ihex.width Ihex.addr].
    replace (0 <? len p) with true
      by (symmetry; apply Z.ltb_lt; destruct p; [congruence|unfold len; cbn; lia]).
    rewrite ihex_emitDataRecord_mem. cbn [fst Ihex.w Ihex.addr append].
    apply ihex_read_one;
      [apply no_newline_ihex_line|apply ihex_line_nonempty|].
    now apply ihex_decode_short.
Qed.

Lemma ihex_SetAddress_moves_residue_witness :
  exists x1,
    Ihex.Write 1 (Ihex.NewWriter "") [x01; x02; x03] =
      Some (Return (x1, (3, None))) /\
    Ihex.ReadFile (inr (Ihex.w (fst (Ihex.Flush (Ihex.SetAddress x1 256))))) =
      Return ([Ihex.mkHexRec 256 Ihex.Data [x01; x02; x03]], None).
Proof.
  apply (ihex_SetAddress_moves_residue 1 (Ihex.NewWriter "") [x01; x02; x03] 256).
  - reflexivity.
  - reflexivity.
  - discriminate.
  - cbn; lia.
  - cbn; lia.
  - lia.
Defined.

(** Reading the concatenation of two files. *)
Lemma split_lines_nonempty (s : string) : split_lines s <> [].
Proof.
  induction s as [|c s IH]; cbn [split_lines]; [discriminate|].
  destruct (Ascii.eqb c newline); [discriminate|].
  destruct (split_lines s); discriminate.
Qed.

Lemma split_lines_app (t1 t2 : string) :
  split_lines (t1 ++ nl ++ t2) = split_lines t1 ++ split_lines t2.
Proof.
  induction t1 as [|c t1 IH].
  - cbn [append nl split_lines]. unfold nl. cbn [append split_lines].
    now rewrite Ascii.eqb_refl.
  - cbn [append split_lines]. rewrite IH.
    destruct (Ascii.eqb c newline); [reflexivity|].
    pose proof (split_lines_nonempty t1) as N.
    destruct (split_lines t1); [contradiction|reflexivity].
Qed.

Lemma ihex_ReadFile_loop_app (l1 l2 : list string) :
  forall acc,
    Ihex.ReadFile_loop (l1 ++ l2) acc =
    match Ihex.ReadFile_loop l1 acc with
    | Return (r, None) => Ihex.ReadFile_loop l2 r
    | other => other
    end.
Proof.
  induction l1 as [|l l1 IH]; intros acc; [reflexivity|].
  cbn [app Ihex.ReadFile_loop]. destruct (0 <? slen l); [|apply IH].
  destruct (Ihex.decodeRecord l) as [[e|hr]|]; [reflexivity|apply IH|reflexivity].
Qed.

Lemma ihex_ReadFile_loop_acc (l : list string) :
  forall acc,
    Ihex.ReadFile_loop l acc =
    match Ihex.ReadFile_loop l [] with
    | Return (r, None) => Return (acc ++ r, None)
    | other => other
    end.
Proof.
  intros acc. rewrite !ihex_ReadFile_loop_spec.
  destruct (readAll_spec Ihex.decodeRecord l) as [[e|rs]|]; reflexivity.
Qed.

(** X16.  Reading with the ihex ReadFile two texts joined by a newline is
    reading the first and then the second: the records of the first
    followed by the records of the second when both are read without
    error, and otherwise the first failure in that order, an error with no
    record or a panic. *)
Theorem ihex_ReadFile_concat (t1 t2 : string) :
  Ihex.ReadFile (inr (t1 ++ nl ++ t2)%string) =
  match Ihex.ReadFile (inr t1) with
  | Return (r1, None) =>
      match Ihex.ReadFile (inr t2) with
      | Return (r2, None) => Return (r1 ++ r2, None)
      | other => other
      end
  | other => other
  end.
Proof.
  unfold Ihex.ReadFile. rewrite split_lines_app, ihex_ReadFile_loop_app.
  destruct (Ihex.ReadFile_loop (split_lines t1) []) as [[r1 [e|]]|];
    try reflexivity.
  apply ihex_ReadFile_loop_acc.
Qed.

Lemma srec_processRecords_loop_app (l1 l2 : list string) :
  forall acc,
    Srec.processRecords_loop (l1 ++ l2) acc =
    match Srec.processRecords_loop l1 acc with
    | Return (r, None) => Srec.processRecords_loop l2 r
    | other => other
    end.
Proof.
  induction l1 as [|l l1 IH]; intros acc; [reflexivity|].
  cbn [app Srec.processRecords_loop]. destruct (0 <? slen l); [|apply IH].
  destruct (Srec.decodeRecord l) as [[e|hr]|]; [reflexivity|apply IH|reflexivity].
Qed.

Lemma srec_processRecords_loop_acc (l : list string) :
  forall acc,
    Srec.processRecords_loop l acc =
    match Srec.processRecords_loop l [] with
    | Return (r, None) => Return (acc ++ r, None)
    | other => other
    end.
Proof.
  intros acc. rewrite !srec_processRecords_loop_spec.
  destruct (readAll_spec Srec.decodeRecord l) as [[e|rs]|]; reflexivity.
Qed.

(** X17.  Reading with the srec ReadFile two texts joined by a newline is
    reading the first and then the second: the records of the first
    followed by the records of the second when both are read without
    error, and otherwise the first error in that order, with no record. *)
Theorem srec_ReadFile_concat (t1 t2 : string) :
  Srec.ReadFile (inr (t1 ++ nl ++ t2)%string) =
  match Srec.ReadFile (inr t1) with
  | Return (r1, None) =>
      match Srec.ReadFile (inr t2) with
      | Return (r2, None) => Return (r1 ++ r2, None)
      | other => other
      end
  | other => other
  end.
Proof.
  unfold Srec.ReadFile, Srec.processRecords.
  rewrite split_lines_app, srec_processRecords_loop_app.
  destruct (Srec.processRecords_loop (split_lines t1) []) as [[r1 [e|]]|];
    try reflexivity.
  apply srec_processRecords_loop_acc.
Qed.

(** The reader of the first draft panics where the library reader returns
    an error. *)
Lemma ihexmain_ReadFile_loop (l : list string) :
  forall acc,
    IhexMain.ReadFile_loop l acc =
    match Ihex.ReadFile_loop l acc with
    | Return (r, None) => Return (r, None)
    | _ => Panicked
    end.
Proof.
  induction l as [|s l IH]; intros acc; [reflexivity|].
  cbn [IhexMain.ReadFile_loop Ihex.ReadFile_loop].
  destruct (0 <? slen s); [|apply IH].
  destruct (Ihex.decodeRecord s) as [[e|hr]|]; [reflexivity|apply IH|reflexivity].
Qed.

(** X15.  ReadFile of the package-main draft hands every error to
    checkErr: it returns what ReadFile of the ihex package returns when
    that is a list of records without error, and panics in every other
    case (the file cannot be read, a line is rejected, the decoder
    panics). *)
Theorem ihexmain_ReadFile_panics (file : error + string) :
  IhexMain.ReadFile file =
  match Ihex.ReadFile file with
  | Return (r, None) => Return (r, None)
  | _ => Panicked
  end.
Proof.
  destruct file as [e|content]; [reflexivity|].
  apply ihexmain_ReadFile_loop.
Qed.

(** *** The srec decoder and the image of a record *)

Lemma hex_DecodeString_app (a b : string) (x : list byte) :
  hex_DecodeString a = inr x ->
  hex_DecodeString (a ++ b) =
  match hex_DecodeString b with
  | inl e => inl e
  | inr y => inr (x ++ y)
  end.
Proof.
  revert x. induction a as [| c | c d a IH] using string_pair_ind; intros x H.
  - injection H as <-. cbn [append app]. now destruct (hex_DecodeString b).
  - cbn in H. destruct (fromHexChar c); discriminate.
  - rewrite hex_DecodeString_cons2 in H. cbn [append].
    rewrite hex_DecodeString_cons2.
    destruct (fromHexChar c); [|discriminate].
    destruct (fromHexChar d); [|discriminate].
    destruct (hex_DecodeString a) as [e|xa] eqn:D; [discriminate|].
    injection H as <-. rewrite (IH xa eq_refl).
    now destruct (hex_DecodeString b).
Qed.

Lemma hex_DecodeString_len (s : string) (bs : list byte) :
  hex_DecodeString s = inr bs -> slen s = 2 * len bs.
Proof.
  revert bs. induction s as [| c | c d s IH] using string_pair_ind; intros bs H.
  - injection H as <-. reflexivity.
  - cbn in H. destruct (fromHexChar c); discriminate.
  - rewrite hex_DecodeString_cons2 in H.
    destruct (fromHexChar c); [|discriminate].
    destruct (fromHexChar d); [|discriminate].
    destruct (hex_DecodeString s) as [e|xs] eqn:D; [discriminate|].
    injection H as <-. rewrite slen_SS, (IH xs eq_refl).
    unfold len. cbn [List.length]. lia.
Qed.

Lemma all_hex_decodes (s : string) (k : Z) :
  all_hex s = true -> slen s = 2 * k ->
  exists bs, hex_DecodeString s = inr bs.
Proof.
  revert k. induction s as [| c | c d s IH] using string_pair_ind; intros k A L.
  - now exists [].
  - exfalso. change (slen (String c "")) with 1 in L. lia.
  - cbn [all_hex] in A. rewrite hex_DecodeString_cons2.
    destruct (fromHexChar c); [|discriminate].
    destruct (fromHexChar d); [|discriminate].
    rewrite slen_SS in L.
    destruct (IH (k - 1) A ltac:(lia)) as (bs & ->). eauto.
Qed.

Lemma hex_DecodeString_split (a b : string) (bs : list byte) (k : Z) :
  hex_DecodeString (a ++ b) = inr bs -> slen a = 2 * k ->
  exists x y, hex_DecodeString a = inr x /\ hex_DecodeString b = inr y /\
              bs = x ++ y.
Proof.
  intros D L.
  pose proof (hex_DecodeString_all_hex _ _ D) as A.
  rewrite all_hex_app in A. apply andb_true_iff in A. destruct A as [Aa Ab].
  destruct (all_hex_decodes a k Aa L) as (x & Dx).
  rewrite (hex_DecodeString_app a b x Dx) in D.
  destruct (hex_DecodeString b) as [e|y]; [discriminate|].
  injection D as <-. now exists x, y.
Qed.

Lemma parse_digits_all_hex s0 s m n v :
  parse_digits s0 s m n = inr v -> all_hex s = true.
Proof.
  revert n. induction s as [|c s IH]; intros n H; [reflexivity|].
  cbn [parse_digits all_hex] in *.
  destruct (fromHexChar c); [|discriminate].
  destruct (m <? n * 16 + z); [discriminate|]. now apply (IH _ H).
Qed.

Lemma parse_digits_decoded (s0 s : string) (bs : list byte) (m n v : Z) :
  n <= m ->
  hex_DecodeString s = inr bs ->
  parse_digits s0 s m n = inr v ->
  v = be_value bs n /\ v <= m.
Proof.
  revert bs n.
  induction s as [| c | c d s IH] using string_pair_ind; intros bs n Hn D P.
  - injection D as <-. cbn in P. injection P as <-. now split.
  - cbn in D. destruct (fromHexChar c); discriminate.
  - rewrite hex_DecodeString_cons2 in D. cbn [parse_digits] in P.
    destruct (fromHexChar c) as [x|] eqn:C; [|discriminate].
    destruct (fromHexChar d) as [y|] eqn:Dd; [|discriminate].
    destruct (hex_DecodeString s) as [e|xs] eqn:Ds; [discriminate|].
    injection D as <-.
    destruct (Z.ltb_spec m (n * 16 + x)); [discriminate|].
    destruct (Z.ltb_spec m ((n * 16 + x) * 16 + y)); [discriminate|].
    destruct (IH xs ((n * 16 + x) * 16 + y) ltac:(lia) eq_refl P) as [E Le].
    split; [|exact Le].
    rewrite E. unfold be_value. cbn [fold_left]. f_equal.
    pose proof (fromHexChar_range _ _ C). pose proof (fromHexChar_range _ _ Dd).
    unfold hexbyte. rewrite lor_shiftl_4, b2z_z2b, Z.mod_small by lia. lia.
Qed.

Lemma ParseUint16_decoded (s : string) (bs : list byte) (bits v : Z) :
  0 <= bits ->
  hex_DecodeString s = inr bs ->
  strconv_ParseUint16 s bits = inr v ->
  v = be_value bs 0 /\ v <= 2 ^ bits - 1.
Proof.
  intros Hb D P. unfold strconv_ParseUint16 in P.
  destruct s as [|c s]; [discriminate|].
  assert (0 < 2 ^ bits) by (apply Z.pow_pos_nonneg; lia).
  apply (parse_digits_decoded (String c s) (String c s) bs (2 ^ bits - 1) 0 v);
    [lia|exact D|exact P].
Qed.

Lemma ParseUint16_of_decoded (s : string) (bs : list byte) (bits : Z) :
  bs <> [] ->
  hex_DecodeString s = inr bs ->
  be_value bs 0 <= 2 ^ bits - 1 ->
  strconv_ParseUint16 s bits = inr (be_value bs 0).
Proof.
  intros Hne D Hmax. unfold strconv_ParseUint16.
  destruct s as [|c s]; [cbn in D; injection D as <-; congruence|].
  set (s' := String c s) in *. clearbody s'. clear c s.
  set (m := 2 ^ bits - 1) in *. clearbody m.
  generalize s' at 1. intros s0.
  assert (G : forall s bs n, 0 <= n -> hex_DecodeString s = inr bs ->
                be_value bs n <= m ->
                parse_digits s0 s m n = inr (be_value bs n)).
  { clear. induction s as [| c | c d s IH] using string_pair_ind;
      intros bs n Hn D Hmax.
    - injection D as <-. reflexivity.
    - cbn in D. destruct (fromHexChar c); discriminate.
    - rewrite hex_DecodeString_cons2 in D. cbn [parse_digits].
      destruct (fromHexChar c) as [x|] eqn:C; [|discriminate].
      destruct (fromHexChar d) as [y|] eqn:Dd; [|discriminate].
      destruct (hex_DecodeString s) as [e|xs] eqn:Ds; [discriminate|].
      injection D as <-.
      pose proof (fromHexChar_range _ _ C). pose proof (fromHexChar_range _ _ Dd).
      unfold be_value, hexbyte in Hmax |- *. cbn [fold_left] in Hmax |- *.
      rewrite lor_shiftl_4, b2z_z2b, Z.mod_small in Hmax |- * by lia.
      pose proof (be_value_ge xs (n * 256 + (16 * x + y)) ltac:(lia)) as Ge.
      unfold be_value in Ge.
      replace (m <? n * 16 + x) with false by (symmetry; apply Z.ltb_ge; lia).
      replace (m <? (n * 16 + x) * 16 + y) with false
        by (symmetry; apply Z.ltb_ge; lia).
      replace ((n * 16 + x) * 16 + y) with (n * 256 + (16 * x + y)) by lia.
      apply (IH xs); [lia|reflexivity|exact Hmax]. }
  apply G; [lia|exact D|exact Hmax].
Qed.

Lemma be_value_bound (bs : list byte) (n : Z) :
  0 <= n -> be_value bs n < (n + 1) * 256 ^ len bs.
Proof.
  revert n. unfold be_value, len.
  induction bs as [|b bs IH]; intros n Hn; cbn [fold_left List.length].
  - change (Z.of_nat 0) with 0. lia.
  - pose proof (b2z_range b) as Rb.
    specialize (IH (n * 256 + b2z b) ltac:(lia)).
    rewrite Nat2Z.inj_succ, Z.pow_succ_r by lia.
    assert (0 < 256 ^ Z.of_nat (List.length bs)) by (apply Z.pow_pos_nonneg; lia).
    nia.
Qed.

Lemma be_value_app (a b : list byte) (n : Z) :
  be_value (a ++ b) n = be_value b (be_value a n).
Proof. unfold be_value. apply fold_left_app. Qed.

Lemma ovhd_addr_end t : addr_end t - 4 = 2 * (ovhd_of t - 1).
Proof. unfold addr_end, ovhd_of. destruct (Srec.is16 t), (Srec.is24 t); lia. Qed.

Lemma ovhd_cases t : ovhd_of t = 3 \/ ovhd_of t = 4 \/ ovhd_of t = 5.
Proof. unfold ovhd_of. destruct (Srec.is16 t), (Srec.is24 t); auto. Qed.

Lemma app_inj_len {A} (a a' b b' : list A) :
  List.length a = List.length a' -> a ++ b = a' ++ b' -> a = a' /\ b = b'.
Proof.
  revert a'. induction a as [|x a IH]; intros [|x' a'] L E;
    cbn [List.length] in L; try discriminate.
  - now split.
  - cbn [app] in E. injection E as -> E.
    destruct (IH a' ltac:(lia) E) as [-> ->]. now split.
Qed.

(** Every line made of a two-character header and the hex digits, in
    either case, of a count byte, the address bytes of the type, a payload
    and the checksum decodes to the record. *)
Lemma srec_decode_accepts (t1 t2 : ascii) (s : string) (ab p : list byte) :
  let t := Srec.strmap_index Srec.srecTypeMap (String t1 (String t2 "")) in
  len ab = ovhd_of t - 1 ->
  len p + ovhd_of t <= 255 ->
  hex_DecodeString s =
    inr (srec_image t ab p ++ [Srec.calcChecksum (srec_image t ab p)]) ->
  Srec.decodeRecord (String t1 (String t2 s)) =
    Return (inr (Srec.mkHexRec (be_value ab 0) t p)).
Proof.
  intros t Lab Lp D.
  assert (Et : t = Srec.strmap_index Srec.srecTypeMap (String t1 (String t2 "")))
    by reflexivity.
  clearbody t.
  pose proof (len_nonneg p) as Np. pose proof (len_nonneg ab) as Nab.
  pose proof (ovhd_cases t) as Ov.
  unfold srec_image in D.
  pose proof (hex_DecodeString_len _ _ D) as Ls.
  unfold len in Ls. rewrite !length_app in Ls.
  cbn [List.length] in Ls. unfold len in *.
  (* cut the line into its fields *)
  destruct (string_split 2 s) as (u1 & s1 & -> & L1); [lia|].
  rewrite slen_app in Ls.
  destruct (string_split (addr_end t - 4) s1) as (u2 & s2 & -> & L2);
    [rewrite ovhd_addr_end; lia|].
  rewrite slen_app in Ls.
  rewrite ovhd_addr_end in L2.
  destruct (string_split (slen s2 - 2) s2) as (v & ck & -> & Lv); [lia|].
  rewrite slen_app in Ls, Lv.
  assert (Lck : slen ck = 2) by lia.
  (* the bytes of the fields *)
  rewrite <- !app_assoc in D.
  destruct (hex_DecodeString_split u1 _ _ 1 D L1) as (x1 & y1 & D1 & D1' & E1).
  destruct (hex_DecodeString_split u2 _ _ (ovhd_of t - 1) D1' L2)
    as (x2 & y2 & D2 & D2' & E2).
  destruct (hex_DecodeString_split v ck _ (Z.of_nat (List.length p)) D2')
    as (x3 & y3 & D3 & D3' & E3); [lia|].
  pose proof (hex_DecodeString_len _ _ D1) as K1.
  pose proof (hex_DecodeString_len _ _ D2) as K2.
  pose proof (hex_DecodeString_len _ _ D3) as K3.
  pose proof (hex_DecodeString_len _ _ D3') as K4.
  unfold len in K1, K2, K3, K4.
  assert (Q1 : x1 = [z2b (Z.of_nat (List.length p) + ovhd_of t)] /\ y1 = _)
    by (apply app_inj_len; [cbn [List.length]; lia|symmetry; exact E1]).
  destruct Q1 as [-> ->].
  assert (Q2 : x2 = ab /\ y2 = _)
    by (apply app_inj_len; [lia|symmetry; exact E2]).
  destruct Q2 as [-> ->].
  assert (Q3 : x3 = p /\ y3 = _)
    by (apply app_inj_len; [lia|symmetry; exact E3]).
  destruct Q3 as [-> ->].
  set (bc := z2b (Z.of_nat (List.length p) + ovhd_of t)) in *.
  set (cs := Srec.calcChecksum ([bc] ++ ab ++ p)) in *.
  (* the decoder on the fields *)
  unfold Srec.decodeRecord.
  rewrite (srec_body_frame t1 t2 u1 u2 v ck L1); [|rewrite <- Et, ovhd_addr_end; exact L2|exact Lck].
  rewrite <- Et.
  pose proof (b2z_range cs) as Rcs. pose proof (b2z_range bc) as Rbc.
  rewrite (ParseUint16_of_decoded ck [cs] 8 ltac:(discriminate) D3');
    [|rewrite be_value_1; change (2 ^ 8 - 1) with 255; lia].
  rewrite be_value_1, z2b_b2z.
  unfold Srec.calcChecksumHexAscii.
  rewrite (hex_DecodeString_app u1 (u2 ++ v) [bc] D1),
          (hex_DecodeString_app u2 v ab D2), D3.
  replace (Byte.eqb cs (Srec.calcChecksum ([bc] ++ ab ++ p))) with true
    by (symmetry; now apply Byte.byte_dec_lb).
  cbn [negb].
  assert (Nab' : ab <> []) by (destruct ab; [cbn in Lab; lia|discriminate]).
  pose proof (be_value_bound ab 0 ltac:(lia)) as Bab.
  pose proof (be_value_ge ab 0 ltac:(lia)) as Gab.
  assert (P256 : 256 ^ len ab <= 4294967296).
  { unfold len. rewrite Lab.
    destruct Ov as [-> | [-> | ->]]; cbn; lia. }
  rewrite (ParseUint16_of_decoded u2 ab 32 Nab' D2);
    [|change (2 ^ 32 - 1) with 4294967295; lia].
  rewrite (ParseUint16_of_decoded u1 [bc] 8 ltac:(discriminate) D1);
    [|rewrite be_value_1; change (2 ^ 8 - 1) with 255; lia].
  rewrite be_value_1. unfold bc at 1. rewrite b2z_z2b, Z.mod_small by lia.
  unfold len. rewrite Z.eqb_refl. cbn [negb recover].
  unfold Srec.uint32. rewrite Z.mod_small by lia. reflexivity.
Qed.

Lemma ParseUint16_2_decode (ck : string) (cs : Z) :
  slen ck = 2 -> strconv_ParseUint16 ck 8 = inr cs ->
  hex_DecodeString ck = inr [z2b cs].
Proof.
  intros L P.
  destruct ck as [|a [|b [|c rest]]]; try (cbn in L; lia).
  destruct (ParseUint16_2_inv a b cs P) as (x & y & A & B & ->).
  rewrite hex_DecodeString_cons2, A, B. cbn [hex_DecodeString].
  unfold hexbyte.
  rewrite lor_shiftl_4 by (eapply fromHexChar_range; eassumption).
  do 3 f_equal. lia.
Qed.

(** What a line that decodes is made of, and the record it gives. *)
Lemma srec_decode_sound (r : string) (rec : Srec.HexRec) :
  Srec.decodeRecord r = Return (inr rec) ->
  exists t1 t2 s ab,
    r = String t1 (String t2 s) /\
    Srec.RecordType rec =
      Srec.strmap_index Srec.srecTypeMap (String t1 (String t2 "")) /\
    len ab = ovhd_of (Srec.RecordType rec) - 1 /\
    Srec.Address rec = be_value ab 0 /\
    len (Srec.Data rec) + ovhd_of (Srec.RecordType rec) <= 255 /\
    hex_DecodeString s =
      inr (srec_image (Srec.RecordType rec) ab (Srec.Data rec) ++
           [Srec.calcChecksum
              (srec_image (Srec.RecordType rec) ab (Srec.Data rec))]).
Proof.
  intros H.
  destruct r as [|t1 [|t2 body]]; [discriminate H|discriminate H|].
  exists t1, t2, body.
  destruct (srec_frame t1 t2 body rec H)
    as (csData & ck & cs & bs & -> & Lck & L & P & D & C).
  set (t := Srec.strmap_index Srec.srecTypeMap (String t1 (String t2 ""))) in *.
  assert (Et : t = Srec.strmap_index Srec.srecTypeMap (String t1 (String t2 "")))
    by reflexivity.
  clearbody t.
  destruct (split_frame (addr_end t) csData (addr_end_cases t) L)
    as (u1 & u2 & v & -> & L1 & L2).
  unfold Srec.decodeRecord in H. rewrite !sapp_assoc in H.
  rewrite (srec_body_frame t1 t2 u1 u2 v ck L1) in H;
    [|rewrite <- Et; exact L2|exact Lck].
  rewrite <- Et, P in H. unfold Srec.calcChecksumHexAscii in H. rewrite D in H.
  rewrite C in H.
  replace (Byte.eqb (Srec.calcChecksum bs) (Srec.calcChecksum bs)) with true in H
    by (symmetry; now apply Byte.byte_dec_lb).
  cbn [negb] in H.
  destruct (hex_DecodeString v) as [e|binData] eqn:Dv; [discriminate|].
  destruct (strconv_ParseUint16 u2 32) as [e|addrBin] eqn:Pa; [discriminate|].
  destruct (strconv_ParseUint16 u1 8) as [e|bc] eqn:Pc; [discriminate|].
  destruct (Z.eqb_spec bc (len binData + ovhd_of t)) as [Ebc|]; [|discriminate].
  cbn [negb recover] in H. injection H as <-.
  cbn [Srec.RecordType Srec.Address Srec.Data].
  (* the bytes of the fields *)
  rewrite ovhd_addr_end in L2.
  destruct (hex_DecodeString_split u1 _ _ 1 D L1) as (x1 & y1 & D1 & D1' & ->).
  destruct (hex_DecodeString_split u2 _ _ (ovhd_of t - 1) D1' L2)
    as (x2 & y2 & D2 & D2' & ->).
  rewrite Dv in D2'. injection D2' as <-.
  pose proof (hex_DecodeString_len _ _ D1) as K1.
  pose proof (hex_DecodeString_len _ _ D2) as K2.
  destruct (ParseUint16_decoded u1 x1 8 bc ltac:(lia) D1 Pc) as [Vc Bc].
  destruct (ParseUint16_decoded u2 x2 32 addrBin ltac:(lia) D2 Pa) as [Va Ba].
  change (2 ^ 8 - 1) with 255 in Bc. change (2 ^ 32 - 1) with 4294967295 in Ba.
  pose proof (be_value_ge x2 0 ltac:(lia)) as Ga. rewrite <- Va in Ga.
  destruct x1 as [|b1 [|b1' x1']]; unfold len in K1; cbn [List.length] in K1;
    try lia.
  rewrite be_value_1 in Vc.
  exists x2. split; [reflexivity|]. split; [reflexivity|].
  split; [lia|].
  split; [unfold Srec.uint32; rewrite Z.mod_small by lia; exact Va|].
  split; [lia|].
  unfold srec_image. rewrite <- Ebc, Vc, z2b_b2z.
  rewrite <- !app_assoc, !sapp_assoc.
  rewrite (hex_DecodeString_app u1 _ [b1] D1),
          (hex_DecodeString_app u2 _ x2 D2),
          (hex_DecodeString_app v _ binData Dv),
          (ParseUint16_2_decode ck cs Lck P), C.
  rewrite !app_assoc. reflexivity.
Qed.

(** *** The srec coalescer on a contiguous run *)

Lemma srec_step_chain (g : nat -> nat -> nat -> nat) (pt : Srec.srecType)
      (st : Srec.cstate)
      (out : list Srec.outrec) (a0 cur : Z) (acc : list byte) (r : Srec.HexRec) :
  Srec.isData (Srec.RecordType r) = true -> Srec.Address r = cur ->
  srec_in_run st out a0 cur acc ->
  srec_in_run (Srec.step g pt st r) out a0
              (Srec.uint32 (cur + Srec.uint32 (len (Srec.Data r))))
              (acc ++ Srec.Data r) /\
  Srec.dataRecGroup (Srec.step g pt st r) = true.
Proof.
  intros Ht Ha (Hout & Hok & Hres & Hst).
  unfold Srec.step. rewrite Ht. unfold Srec.processDataRec.
  destruct Hst as [(Hg & Hctr & Hbase) | (Hg & -> & ->)]; rewrite Hg; cbn [negb].
  - rewrite Ha, Hctr, Z.eqb_refl.
    pose proof (Buffer_Write_resolve g (Srec.mem st) (Srec.data st)
                  (Srec.Data r) Hok) as [Wok Wres].
    destruct (Buffer_Write g (Srec.mem st) (Srec.data st) (Srec.Data r))
      as [m d].
    cbn [fst snd] in *. unfold srec_in_run.
    cbn [Srec.outList Srec.mem Srec.data Srec.dataRecGroup Srec.addressCounter
         Srec.dataBaseAddr].
    rewrite Wres, Hres. auto 10.
  - unfold Srec.startGroup.
    assert (Rok : buf_ok (Srec.mem st) (Buffer_Reset (Srec.data st)))
      by now apply buf_ok_Reset.
    assert (Rres : resolve (Srec.mem st) (Buffer_Reset (Srec.data st)) = []).
    { destruct (Srec.data st) as [[i l]|]; reflexivity. }
    pose proof (Buffer_Write_resolve g (Srec.mem st) (Buffer_Reset (Srec.data st))
                  (Srec.Data r) Rok) as [Wok Wres].
    destruct (Buffer_Write g (Srec.mem st) (Buffer_Reset (Srec.data st))
                           (Srec.Data r)) as [m d].
    cbn [fst snd] in *. unfold srec_in_run.
    cbn [Srec.outList Srec.mem Srec.data Srec.dataRecGroup Srec.addressCounter
         Srec.dataBaseAddr].
    rewrite Wres, Rres, Ha. cbn [app]. auto 10.
Qed.

Lemma srec_fold_chain (g : nat -> nat -> nat -> nat) (pt : Srec.srecType)
      (recs : list Srec.HexRec) :
  forall st out a0 cur acc,
    srec_chain cur recs ->
    srec_in_run st out a0 cur acc ->
    exists cur',
      srec_in_run (fold_left (Srec.step g pt) recs st) out a0 cur'
                  (acc ++ List.concat (map Srec.Data recs)).
Proof.
  induction recs as [|r recs IH]; intros st out a0 cur acc Hc Hin.
  - exists cur. cbn. now rewrite app_nil_r.
  - destruct Hc as (Ht & Ha & Hc). cbn [fold_left map List.concat].
    destruct (srec_step_chain g pt st out a0 cur acc r Ht Ha Hin) as [Hin' _].
    destruct (IH _ _ _ _ _ Hc Hin') as (cur' & H).
    exists cur'. now rewrite app_assoc.
Qed.

Lemma srec_step_quiet (g : nat -> nat -> nat -> nat) (pt : Srec.srecType)
      (st : Srec.cstate)
      (out : list Srec.outrec) (h : heap) (r : Srec.HexRec) :
  Srec.isData (Srec.RecordType r) = false ->
  srec_quiet st out h ->
  srec_quiet (Srec.step g pt st r) (out ++ [Srec.Passed r]) h /\
  Srec.dataRecGroup (Srec.step g pt st r) = false /\
  Srec.data (Srec.step g pt st r) = Srec.data st.
Proof.
  intros Ht (Hout & Hlen & Hmem). unfold Srec.step. rewrite Ht.
  rewrite Hlen. cbn [Nat.ltb Nat.leb]. unfold srec_quiet.
  cbn [Srec.outList Srec.mem Srec.data Srec.dataRecGroup].
  rewrite Hout. auto.
Qed.

Lemma srec_fold_quiet (g : nat -> nat -> nat -> nat) (pt : Srec.srecType)
      (l : list Srec.HexRec) :
  Forall (fun r => Srec.isData (Srec.RecordType r) = false) l ->
  forall st out h,
    srec_quiet st out h ->
    srec_quiet (fold_left (Srec.step g pt) l st) (out ++ map Srec.Passed l) h /\
    (l <> [] -> Srec.dataRecGroup (fold_left (Srec.step g pt) l st) = false) /\
    Srec.data (fold_left (Srec.step g pt) l st) = Srec.data st.
Proof.
  induction 1 as [|r l Hr _ IH]; intros st out h Hq.
  - cbn. rewrite app_nil_r. split; [exact Hq|]. split; [congruence|reflexivity].
  - cbn [fold_left map].
    destruct (srec_step_quiet g pt st out h r Hr Hq) as (Hq' & Hg & Hd).
    destruct (IH _ _ _ Hq') as (Hq'' & Hg' & Hd').
    rewrite <- app_assoc in Hq''. cbn [app] in Hq''.
    split; [exact Hq''|]. split; [|congruence].
    intros _. destruct l as [|r' l']; [exact Hg|apply Hg'; discriminate].
Qed.

Lemma srec_map_deref_Passed h (l : list Srec.HexRec) :
  map (Srec.deref h) (map Srec.Passed l) = l.
Proof. induction l as [|r l IH]; [reflexivity|]. cbn. now rewrite IH. Qed.

Lemma srec_run_quiet (pt : Srec.srecType) (st : Srec.cstate)
      (out : list Srec.outrec) (h : heap) :
  srec_quiet st out h ->
  (if Nat.ltb 0 (Buffer_Len (Srec.data st))
   then Srec.emitJumboDataRec st pt else st) = st.
Proof. intros (_ & -> & _). reflexivity. Qed.

Lemma srec_coalesce_chain_lemma (g : nat -> nat -> nat -> nat)
      (pre recs post : list Srec.HexRec) (a : Z) :
  Forall (fun r => Srec.isData (Srec.RecordType r) = false) pre ->
  srec_chain a recs ->
  Forall (fun r => Srec.isData (Srec.RecordType r) = false) post ->
  Srec.CoalesceDataRecs g (pre ++ recs ++ post) =
  pre ++ srec_jumbo a (Srec.preferredDataRecType (pre ++ recs ++ post))
                    (List.concat (map Srec.Data recs)) ++ post.
Proof.
  intros Hpre Hc Hpost.
  unfold Srec.CoalesceDataRecs, Srec.run.
  set (pt := Srec.preferredDataRecType (pre ++ recs ++ post)).
  rewrite !fold_left_app.
  (* the records before the run *)
  assert (Q0 : srec_quiet Srec.initial [] []) by (repeat split).
  destruct (srec_fold_quiet g pt pre Hpre _ _ _ Q0) as (Q1 & G1 & D1).
  set (st1 := fold_left (Srec.step g pt) pre Srec.initial) in *.
  cbn [app] in Q1. change (Srec.data Srec.initial) with (@None slice) in D1.
  assert (G1' : Srec.dataRecGroup st1 = false).
  { destruct pre as [|r0 pre0]; [reflexivity|apply G1; discriminate]. }
  assert (R1 : srec_in_run st1 (map Srec.Passed pre) a a []).
  { destruct Q1 as (O1 & _ & M1). unfold srec_in_run. rewrite D1.
    cbn [buf_ok resolve]. auto 10. }
  (* the run *)
  destruct (srec_fold_chain g pt recs _ _ _ _ _ Hc R1) as (cur & R2).
  set (st2 := fold_left (Srec.step g pt) recs st1) in *.
  cbn [app] in R2. set (acc := List.concat (map Srec.Data recs)) in *.
  destruct R2 as (O2 & Ok2 & Res2 & St2).
  pose proof (buf_ok_Len _ _ Ok2) as L2. rewrite Res2 in L2.
  destruct acc as [|b acc'] eqn:Eacc.
  - (* a run without bytes *)
    assert (Q2 : srec_quiet st2 (map Srec.Passed pre) (Srec.mem st2))
      by (repeat split; [exact O2|now rewrite <- L2]).
    destruct (srec_fold_quiet g pt post Hpost _ _ _ Q2) as (Q3 & _ & _).
    rewrite (srec_run_quiet pt _ _ _ Q3).
    destruct Q3 as (-> & _ & _). cbn [srec_jumbo app].
    now rewrite <- map_app, srec_map_deref_Passed.
  - (* a run with bytes *)
    assert (Base : Srec.dataBaseAddr st2 = a).
    { destruct St2 as [(_ & _ & B) | (_ & N & _)]; [exact B|discriminate]. }
    assert (Pos : Nat.ltb 0 (Buffer_Len (Srec.data st2)) = true)
      by (rewrite <- L2; reflexivity).
    cbn [srec_jumbo].
    destruct post as [|r post'].
    + cbn [fold_left]. rewrite Pos.
      cbn [Srec.emitJumboDataRec Srec.outList Srec.mem]. rewrite O2, Base.
      rewrite map_app, srec_map_deref_Passed. cbn [map Srec.deref].
      unfold Buffer_Bytes. now rewrite Res2.
    + apply Forall_cons_iff in Hpost. destruct Hpost as [Hr Hpost'].
      cbn [fold_left].
      set (st3 := Srec.step g pt st2 r).
      assert (Q3 : srec_quiet st3
                     (map Srec.Passed pre ++
                      [Srec.Jumbo a pt (Srec.data st2); Srec.Passed r])
                     (Srec.mem st2)).
      { unfold st3, Srec.step. rewrite Hr.
        rewrite Pos. unfold srec_quiet.
        cbn [Srec.emitJumboDataRec Srec.outList Srec.mem Srec.data].
        rewrite O2, Base, <- app_assoc. cbn [app]. unfold Buffer_Bytes.
        repeat split. now destruct (Srec.data st2). }
      destruct (srec_fold_quiet g pt post' Hpost' _ _ _ Q3) as (Q4 & _ & _).
      rewrite (srec_run_quiet pt _ _ _ Q4).
      destruct Q4 as (-> & _ & ->).
      rewrite !map_app, srec_map_deref_Passed. cbn [map Srec.deref app].
      rewrite Res2, srec_map_deref_Passed, <- app_assoc. reflexivity.
Qed.

(** *** The loop of the srec [Write] *)

Lemma srec_emitLine_mem (x : Srec.Writer string) (c : byte) (b : list byte) :
  Srec.emitLine x c b =
  (Srec.set_w x (Srec.w x ++ srec_line c b ++ nl)%string, None).
Proof. reflexivity. Qed.

Lemma uint32_range z : 0 <= Srec.uint32 z < 4294967296.
Proof. unfold Srec.uint32. apply Z.mod_pos_bound. lia. Qed.

Lemma uint32_step (a wd j : Z) :
  Srec.uint32 (Srec.uint32 (a + Srec.uint32 wd) + wd * j) =
  Srec.uint32 (a + wd * (1 + j)).
Proof.
  unfold Srec.uint32.
  rewrite Zplus_mod_idemp_l, (Z.add_comm a), <- Z.add_assoc, Zplus_mod_idemp_l.
  f_equal. lia.
Qed.

Lemma uint32_count (c j : Z) :
  Srec.uint32 (Srec.uint32 (c + 1) + j) = Srec.uint32 (c + (1 + j)).
Proof.
  unfold Srec.uint32. rewrite Zplus_mod_idemp_l. f_equal. lia.
Qed.

(** The loop of [Write] on an in-memory sink. *)
Lemma srec_Write_loop_state (fuel : nat) :
  forall (x : Srec.Writer string) (c n : Z),
    1 <= Srec.width x ->
    len (Srec.fifo x) < Z.of_nat fuel ->
    0 <= Srec.addr x < 4294967296 ->
    0 <= Srec.count x < 4294967296 ->
    let wd := Srec.width x in
    let j := len (Srec.fifo x) / wd in
    Srec.Write_loop fuel x c n =
    Some (Return
            (Srec.mkWriter
               (Srec.w x ++ srec_data_text (Srec.addrMode x)
                              (srec_cut (Z.to_nat j) wd (Srec.addr x)
                                        (Srec.fifo x)))%string
               (Srec.uint32 (Srec.addr x + wd * j))
               (Srec.uint32 (Srec.count x + j))
               (Srec.fin x)
               (skipn (Z.to_nat (wd * j)) (Srec.fifo x))
               (Srec.emitCountRec x) (Srec.emitStartRec x) (Srec.startAddr x)
               (Srec.addrMode x) wd (Srec.header x) (Srec.headerEmitted x),
             (n, None))).
Proof.
  induction fuel as [|k IH]; intros x c n Hw Hf Ha Hc wd j.
  - pose proof (len_nonneg (Srec.fifo x)). lia.
  - cbn [Srec.Write_loop]. pose proof (len_nonneg (Srec.fifo x)) as Nf.
    destruct (Z.leb_spec (Srec.width x) (len (Srec.fifo x))) as [Hfull|Hrunt].
    + unfold Srec.fifo_Next.
      replace (Srec.width x <? 0) with false by (symmetry; apply Z.ltb_ge; lia).
      replace (Nat.min (Z.to_nat (Srec.width x)) (List.length (Srec.fifo x)))
        with (Z.to_nat (Srec.width x)) by (unfold len in Hfull; lia).
      rewrite srec_emitDataRecord_mem. unfold Srec.set_fifo.
      cbn [Srec.w Srec.addr Srec.count Srec.fin Srec.fifo Srec.emitCountRec
           Srec.emitStartRec Srec.startAddr Srec.addrMode Srec.width
           Srec.header Srec.headerEmitted].
      assert (Lf : len (firstn (Z.to_nat (Srec.width x)) (Srec.fifo x)) = wd).
      { unfold len in *. rewrite length_firstn. unfold wd. lia. }
      assert (Ls : len (skipn (Z.to_nat (Srec.width x)) (Srec.fifo x)) =
                   len (Srec.fifo x) - wd).
      { unfold len in *. rewrite length_skipn. unfold wd. lia. }
      rewrite Lf.
      set (x2 := Srec.mkWriter _ _ _ _ _ _ _ _ _ _ _ _).
      specialize (IH x2 (c + Srec.width x) n).
      unfold x2 in *.
      cbn [Srec.w Srec.addr Srec.count Srec.fin Srec.fifo Srec.emitCountRec
           Srec.emitStartRec Srec.startAddr Srec.addrMode Srec.width
           Srec.header Srec.headerEmitted] in IH.
      rewrite IH; [|exact Hw|rewrite Ls; unfold wd; lia
                   |apply uint32_range|apply uint32_range].
      rewrite Ls. fold wd.
      assert (J : j = 1 + (len (Srec.fifo x) - wd) / wd).
      { unfold j. replace (len (Srec.fifo x)) with
          ((len (Srec.fifo x) - wd) + 1 * wd) at 1 by lia.
        rewrite Z.div_add by (unfold wd; lia). lia. }
      set (j' := (len (Srec.fifo x) - wd) / wd) in *.
      assert (Nj : 0 <= j') by (apply Z.div_pos; unfold wd; lia).
      rewrite J, uint32_step, uint32_count.
      replace (Z.to_nat (1 + j')) with (S (Z.to_nat j')) by lia.
      cbn [srec_cut srec_data_text map unlines fold_right fst snd].
      fold (unlines (map (fun r => srec_dataLine (Srec.addrMode x) (fst r) (snd r))
                         (srec_cut (Z.to_nat j') wd
                            (Srec.uint32 (Srec.addr x + Srec.uint32 wd))
                            (skipn (Z.to_nat wd) (Srec.fifo x))))).
      unfold srec_data_text. rewrite skipn_skipn_add.
      replace (Z.to_nat wd + Z.to_nat (wd * j'))%nat
        with (Z.to_nat (wd * (1 + j'))) by (unfold wd in *; nia).
      rewrite !sapp_assoc. reflexivity.
    + assert (J : j = 0) by (apply Z.div_small; unfold wd; lia).
      rewrite J, Z.mul_0_r, !Z.add_0_r. cbn [Z.to_nat skipn srec_cut].
      unfold srec_data_text. cbn [map unlines fold_right]. rewrite sapp_nil_r.
      unfold Srec.uint32. rewrite !Z.mod_small by lia.
      destruct x; reflexivity.
Qed.

(** *** The lines of the srec writer *)

Lemma byte_add_eq (n k : Z) : Srec.byte_add n k = z2b (n + k).
Proof.
  unfold Srec.byte_add. rewrite b2z_z2b. rewrite <- z2b_mod.
  rewrite Zplus_mod_idemp_l. apply z2b_mod.
Qed.

Lemma be_value_16_mod (a : Z) :
  be_value (skipn 2 (Srec.bigEndianBin a)) 0 = a mod 65536.
Proof.
  unfold Srec.bigEndianBin, be_value. cbn [skipn fold_left].
  rewrite !b2z_z2b, Z.shiftr_div_pow2 by lia.
  change (2 ^ 8) with 256. Z.to_euclidean_division_equations. lia.
Qed.

Lemma be_value_24_mod (a : Z) :
  be_value (skipn 1 (Srec.bigEndianBin a)) 0 = a mod 16777216.
Proof.
  unfold Srec.bigEndianBin, be_value. cbn [skipn fold_left].
  rewrite !b2z_z2b, !Z.shiftr_div_pow2 by lia.
  change (2 ^ 8) with 256. change (2 ^ 16) with 65536.
  Z.to_euclidean_division_equations. lia.
Qed.

Lemma be_value_32_mod (a : Z) :
  be_value (Srec.bigEndianBin a) 0 = a mod 4294967296.
Proof.
  unfold Srec.bigEndianBin, be_value. cbn [skipn fold_left].
  rewrite !b2z_z2b, !Z.shiftr_div_pow2 by lia.
  change (2 ^ 8) with 256. change (2 ^ 16) with 65536.
  change (2 ^ 24) with 16777216.
  Z.to_euclidean_division_equations. lia.
Qed.

Lemma srec_line_decode (c : byte) (t : Srec.srecType) (ab p : list byte) :
  Srec.strmap_index Srec.srecTypeMap
    (String "S" (String (ascii_of_byte c) "")) = t ->
  len ab = ovhd_of t - 1 ->
  len p + ovhd_of t <= 255 ->
  Srec.decodeRecord (srec_line c (srec_image t ab p)) =
    Return (inr (Srec.mkHexRec (be_value ab 0) t p)).
Proof.
  intros Et Lab Lp. unfold srec_line.
  pose proof (srec_decode_accepts "S" (ascii_of_byte c)
                (hex_EncodeToString
                   (srec_image t ab p ++ [Srec.calcChecksum (srec_image t ab p)]))
                ab p) as H.
  cbv zeta in H. rewrite Et in H. apply H; [exact Lab|exact Lp|].
  apply hex_decode_encode.
Qed.

Lemma no_newline_srec_line c b :
  Ascii.eqb (ascii_of_byte c) newline = false ->
  no_newline (srec_line c b) = true.
Proof.
  intros H. unfold srec_line. cbn [no_newline]. rewrite H.
  change (Ascii.eqb "S" newline) with false. cbn [negb andb].
  apply no_newline_hex.
Qed.

Lemma srec_line_nonempty c b : (0 <? slen (srec_line c b)) = true.
Proof.
  unfold srec_line. rewrite !slen_cons.
  pose proof (slen_nonneg (hex_EncodeToString (b ++ [Srec.calcChecksum b]))).
  apply Z.ltb_lt. lia.
Qed.

Lemma srec_emitHeaderRecord_mem (x : Srec.Writer string) :
  Srec.emitHeaderRecord x =
  (Srec.set_w x (Srec.w x ++
                 srec_header_line
                   (match Srec.header x with Some h => h | None => [] end) ++ nl)
              %string, None).
Proof. reflexivity. Qed.

Lemma srec_emitCountRecord_mem (x : Srec.Writer string) :
  Srec.emitCountRecord x =
  (Srec.set_w x (Srec.w x ++ srec_count_line (Srec.count x) ++ nl)%string, None).
Proof.
  unfold Srec.emitCountRecord, srec_count_line.
  destruct (65535 <? Srec.count x); apply srec_emitLine_mem.
Qed.

Lemma srec_emitStartAddrRec_mem (x : Srec.Writer string) :
  Srec.emitStartAddrRec x =
  (Srec.set_w x (Srec.w x ++
                 srec_start_line (Srec.addrMode x) (Srec.startAddr x) ++ nl)
              %string, None).
Proof.
  unfold Srec.emitStartAddrRec, srec_start_line.
  destruct (Srec.addrMode x =? Srec.Addr16); [apply srec_emitLine_mem|].
  destruct (Srec.addrMode x =? Srec.Addr24); [apply srec_emitLine_mem|].
  destruct (Srec.addrMode x =? Srec.Addr32); apply srec_emitLine_mem.
Qed.

(** The number of records cut from [f]. *)
Lemma srec_all_records_length (wd a : Z) (f : list byte) :
  1 <= wd ->
  Z.of_nat (List.length (srec_all_records wd a f)) = (len f + wd - 1) / wd.
Proof.
  intros Hw. unfold srec_all_records.
  pose proof (len_nonneg f) as Nf.
  set (j := len f / wd).
  assert (Nj : 0 <= j) by (apply Z.div_pos; lia).
  assert (Lc : forall n w a f, List.length (srec_cut n w a f) = n).
  { clear. induction n as [|n IH]; intros; [reflexivity|].
    cbn [srec_cut List.length]. now rewrite IH. }
  rewrite length_app, Lc.
  pose proof (residue_len wd f Hw) as RL. fold j in RL. rewrite RL.
  pose proof (Z.mod_pos_bound (len f) wd ltac:(lia)) as MB.
  pose proof (Z.div_mod (len f) wd ltac:(lia)) as DM. fold j in DM.
  destruct (Z.ltb_spec 0 (len f mod wd)) as [P|P]; cbn [List.length].
  - assert (E : (len f + wd - 1) / wd = j + 1).
    { symmetry. apply (Z.div_unique _ wd (j + 1) (len f mod wd - 1)); lia. }
    rewrite E. lia.
  - assert (E : (len f + wd - 1) / wd = j).
    { symmetry. apply (Z.div_unique _ wd j (wd - 1)); lia. }
    rewrite E. lia.
Qed.

Lemma srec_encode_file_text (fuel : nat) (m : Srec.AddrMode) (a sa : Z)
      (h p : list byte) :
  0 <= a < 4294967296 -> len p < Z.of_nat fuel ->
  srec_encode_file fuel m a sa h p =
    Some (srec_header_line h ++ nl ++
          srec_data_text m (srec_all_records 10 a p) ++
          srec_count_line (Srec.uint32 ((len p + 10 - 1) / 10)) ++ nl ++
          srec_start_line m sa ++ nl)%string.
Proof.
  intros Ha Hf. unfold srec_encode_file.
  change (Srec.SetHeader
            (Srec.SetCountEmit
               (Srec.SetStartAddress (Srec.SetAddress (Srec.NewWriter "" m) a) sa))
            h)
    with (Srec.mkWriter "" a 0 false [] true true sa m 10 (Some h) false).
  unfold Srec.Write.
  cbn [Srec.fin Srec.header Srec.headerEmitted negb Srec.w Srec.addr Srec.count
       Srec.fifo Srec.emitCountRec Srec.emitStartRec Srec.startAddr
       Srec.addrMode Srec.width].
  rewrite srec_emitHeaderRecord_mem. unfold Srec.set_w, Srec.set_fifo.
  cbn [fst Srec.fin Srec.header Srec.headerEmitted
       Srec.w Srec.addr Srec.count Srec.fifo Srec.emitCountRec
       Srec.emitStartRec Srec.startAddr Srec.addrMode Srec.width app append].
  rewrite srec_Write_loop_state;
    cbn [Srec.fin Srec.header Srec.headerEmitted Srec.w Srec.addr Srec.count
         Srec.fifo Srec.emitCountRec Srec.emitStartRec Srec.startAddr
         Srec.addrMode Srec.width]; [|lia|exact Hf|exact Ha|lia].
  pose proof (srec_all_records_length 10 a p ltac:(lia)) as NL.
  unfold srec_all_records in *.
  set (j := len p / 10) in *.
  assert (Nj : 0 <= j) by (apply Z.div_pos; [apply len_nonneg|lia]).
  assert (Lc : forall n w a f, List.length (srec_cut n w a f) = n).
  { clear. induction n as [|n IH]; intros; [reflexivity|].
    cbn [srec_cut List.length]. now rewrite IH. }
  rewrite length_app, Lc in NL.
  set (rest := skipn (Z.to_nat (10 * j)) p) in *.
  set (full := srec_cut (Z.to_nat j) 10 a p) in *.
  set (xw := Srec.mkWriter _ _ _ _ _ _ _ _ _ _ _ _).
  unfold Srec.Close. change (Srec.fin xw) with false. cbv iota.
  unfold Srec.Close_body, Srec.Flush. change (Srec.fifo xw) with rest.
  unfold srec_data_text. rewrite map_app, unlines_app.
  destruct (0 <? len rest).
  - rewrite srec_emitDataRecord_mem. unfold xw, Srec.set_fifo.
    cbn [Srec.fin Srec.header Srec.headerEmitted Srec.w Srec.addr Srec.count
         Srec.fifo Srec.emitCountRec Srec.emitStartRec Srec.startAddr
         Srec.addrMode Srec.width].
    rewrite srec_emitCountRecord_mem. unfold Srec.set_w.
    cbn [Srec.fin Srec.header Srec.headerEmitted Srec.w Srec.addr Srec.count
         Srec.fifo Srec.emitCountRec Srec.emitStartRec Srec.startAddr
         Srec.addrMode Srec.width].
    rewrite srec_emitStartAddrRec_mem. unfold Srec.set_w, Srec.set_fin.
    cbn [Srec.fin Srec.header Srec.headerEmitted Srec.w Srec.addr Srec.count
         Srec.fifo Srec.emitCountRec Srec.emitStartRec Srec.startAddr
         Srec.addrMode Srec.width].
    cbn [List.length] in NL.
    replace (Srec.uint32 (Srec.uint32 (0 + j) + 1))
      with (Srec.uint32 ((len p + 10 - 1) / 10))
      by (rewrite <- NL; unfold Srec.uint32; rewrite Zplus_mod_idemp_l;
          f_equal; lia).
    cbn [map unlines fold_right fst snd].
    rewrite !sapp_assoc, ?sapp_nil_r. reflexivity.
  - rewrite srec_emitCountRecord_mem. unfold xw, Srec.set_w.
    cbn [Srec.fin Srec.header Srec.headerEmitted Srec.w Srec.addr Srec.count
         Srec.fifo Srec.emitCountRec Srec.emitStartRec Srec.startAddr
         Srec.addrMode Srec.width].
    rewrite srec_emitStartAddrRec_mem. unfold Srec.set_w, Srec.set_fin.
    cbn [Srec.fin Srec.header Srec.headerEmitted Srec.w Srec.addr Srec.count
         Srec.fifo Srec.emitCountRec Srec.emitStartRec Srec.startAddr
         Srec.addrMode Srec.width].
    cbn [List.length] in NL.
    replace (Srec.uint32 (0 + j))
      with (Srec.uint32 ((len p + 10 - 1) / 10))
      by (rewrite <- NL; f_equal; lia).
    cbn [map unlines fold_right]. rewrite !sapp_assoc, ?sapp_nil_r.
    reflexivity.
Qed.

(** *** Round trip of a whole S-record file *)

Lemma srec_read_lines (ls : list string) (recs : list Srec.HexRec) :
  Forall2 (fun l r => no_newline l = true /\ (0 <? slen l) = true /\
                      Srec.decodeRecord l = Return (inr r)) ls recs ->
  forall acc,
    Srec.processRecords_loop (split_lines (unlines ls)) acc =
    Return (acc ++ recs, None).
Proof.
  induction 1 as [|l r ls recs (Hn & Hp & Hd) _ IH]; intros acc.
  - cbn. now rewrite app_nil_r.
  - cbn [unlines fold_right]. fold (unlines ls). unfold nl. cbn [append].
    rewrite split_lines_line by exact Hn.
    cbn [Srec.processRecords_loop]. rewrite Hp, Hd, IH, <- app_assoc.
    reflexivity.
Qed.

Lemma uint32_small z : 0 <= z < 4294967296 -> Srec.uint32 z = z.
Proof. intros. unfold Srec.uint32. now apply Z.mod_small. Qed.

Lemma srec_cut_facts (n : nat) :
  forall (wd a : Z) (f : list byte),
    1 <= wd -> 0 <= a -> Z.of_nat n * wd <= len f ->
    a + len f < 4294967296 ->
    List.concat (map snd (srec_cut n wd a f)) =
      firstn (Z.to_nat (wd * Z.of_nat n)) f /\
    Forall (fun r => a <= fst r /\ fst r + wd <= a + wd * Z.of_nat n /\
                     len (snd r) = wd) (srec_cut n wd a f) /\
    (forall t rest,
        Srec.isData t = true ->
        srec_chain (a + wd * Z.of_nat n) rest ->
        srec_chain a (map (srec_data_rec t) (srec_cut n wd a f) ++ rest)).
Proof.
  induction n as [|k IH]; intros wd a f Hw Ha Hn Hb.
  - cbn [srec_cut map List.concat app]. rewrite Z.mul_0_r, Z.add_0_r.
    cbn [Z.to_nat firstn]. repeat split; auto.
  - cbn [srec_cut map List.concat fst snd].
    assert (Lf : len (firstn (Z.to_nat wd) f) = wd)
      by (unfold len in *; rewrite length_firstn; lia).
    assert (Ls : len (skipn (Z.to_nat wd) f) = len f - wd)
      by (unfold len in *; rewrite length_skipn; lia).
    assert (U : Srec.uint32 (a + Srec.uint32 wd) = a + wd).
    { rewrite (uint32_small wd) by lia. apply uint32_small. lia. }
    rewrite U.
    destruct (IH wd (a + wd) (skipn (Z.to_nat wd) f) Hw ltac:(lia))
      as (C & F & Ch); [rewrite Ls; lia|rewrite Ls; lia|].
    split; [|split].
    + rewrite C.
      replace (Z.to_nat (wd * Z.of_nat (S k)))
        with (Z.to_nat wd + Z.to_nat (wd * Z.of_nat k))%nat by nia.
      rewrite <- (firstn_skipn (Z.to_nat wd) f) at 3.
      rewrite firstn_app, firstn_firstn, length_firstn.
      replace (Nat.min (Z.to_nat wd + Z.to_nat (wd * Z.of_nat k)) (Z.to_nat wd))
        with (Z.to_nat wd) by lia.
      f_equal. f_equal. unfold len in *. lia.
    + constructor; [cbn [fst snd]; lia|].
      revert F. apply Forall_impl. intros r (R1 & R2 & R3). lia.
    + intros t rest Ht Hc.
      cbn [app srec_chain srec_data_rec Srec.RecordType Srec.Address Srec.Data
           fst snd].
      split; [exact Ht|]. split; [reflexivity|]. rewrite Lf, U.
      apply Ch; [exact Ht|].
      replace (a + wd + wd * Z.of_nat k) with (a + wd * Z.of_nat (S k)) by lia.
      exact Hc.
Qed.

Lemma srec_all_records_facts (wd a : Z) (f : list byte) (t : Srec.srecType) :
  1 <= wd -> 0 <= a -> a + len f < 4294967296 -> Srec.isData t = true ->
  List.concat (map snd (srec_all_records wd a f)) = f /\
  Forall (fun r => a <= fst r /\ fst r + len (snd r) <= a + len f /\
                   0 < len (snd r) <= wd) (srec_all_records wd a f) /\
  srec_chain a (map (srec_data_rec t) (srec_all_records wd a f)).
Proof.
  intros Hw Ha Hb Ht. unfold srec_all_records.
  pose proof (len_nonneg f) as Nf.
  set (j := len f / wd).
  assert (Nj : 0 <= j) by (apply Z.div_pos; lia).
  pose proof (div_mul_le (len f) wd Nf ltac:(lia)) as Le. fold j in Le.
  destruct (srec_cut_facts (Z.to_nat j) wd a f Hw Ha)
    as (C & F & Ch); [rewrite Z2Nat.id by lia; lia|exact Hb|].
  rewrite Z2Nat.id in C, F, Ch by lia.
  pose proof (residue_len wd f ltac:(lia)) as RL. fold j in RL.
  set (rest := skipn (Z.to_nat (wd * j)) f) in *.
  pose proof (Z.mod_pos_bound (len f) wd ltac:(lia)) as MB.
  pose proof (Z.div_mod (len f) wd ltac:(lia)) as DM. fold j in DM.
  assert (U : Srec.uint32 (a + wd * j) = a + wd * j) by (apply uint32_small; lia).
  split; [|split].
  - rewrite map_app, concat_app, C.
    destruct (0 <? len rest) eqn:P.
    + cbn [map List.concat snd]. rewrite app_nil_r. apply firstn_skipn.
    + cbn [map List.concat]. rewrite app_nil_r.
      apply len_nil_iff in P. rewrite <- (firstn_skipn (Z.to_nat (wd * j)) f) at 2.
      fold rest. rewrite P. now rewrite app_nil_r.
  - apply Forall_app. split.
    + revert F. apply Forall_impl. intros r (R1 & R2 & R3). lia.
    + destruct (Z.ltb_spec 0 (len rest)); repeat constructor; cbn [fst snd]; lia.
  - rewrite map_app. apply Ch; [exact Ht|].
    destruct (0 <? len rest); cbn [map srec_chain]; [|exact I].
    cbn [srec_data_rec Srec.RecordType Srec.Address fst snd]. auto.
Qed.

Lemma srec_header_decode (h : list byte) :
  len h <= 252 ->
  Srec.decodeRecord (srec_header_line h) =
    Return (inr (Srec.mkHexRec 0 Srec.S0Header h)).
Proof.
  intros Hh. unfold srec_header_line. rewrite byte_add_eq.
  apply (srec_line_decode "0" Srec.S0Header [x00; x00] h); try reflexivity.
  change (ovhd_of Srec.S0Header) with 3. lia.
Qed.

Lemma srec_image_nil (t : Srec.srecType) (ab : list byte) :
  srec_image t ab [] = [z2b (ovhd_of t)] ++ ab.
Proof. unfold srec_image. now rewrite app_nil_r. Qed.

Lemma srec_count_decode (n : Z) :
  0 <= n < 16777216 ->
  Srec.decodeRecord (srec_count_line n) =
    Return (inr (Srec.mkHexRec n (srec_count_type n) [])).
Proof.
  intros Hn. unfold srec_count_line, srec_count_type.
  destruct (Z.ltb_spec 65535 n) as [Big|Small].
  - replace (n <=? 65535) with false by (symmetry; apply Z.leb_gt; lia).
    change [z2b (3 + 1)] with [z2b (ovhd_of Srec.S6Count)].
    rewrite <- srec_image_nil, srec_line_decode;
      try reflexivity; try (cbn; lia).
    rewrite be_value_24_mod, Z.mod_small by lia. reflexivity.
  - replace (n <=? 65535) with true by (symmetry; apply Z.leb_le; lia).
    change [z2b (2 + 1)] with [z2b (ovhd_of Srec.S5Count)].
    rewrite <- srec_image_nil, srec_line_decode;
      try reflexivity; try (cbn; lia).
    rewrite be_value_16_mod, Z.mod_small by lia. reflexivity.
Qed.

Lemma srec_start_decode (m : Srec.AddrMode) (sa : Z) :
  m = Srec.Addr16 \/ m = Srec.Addr24 \/ m = Srec.Addr32 ->
  Srec.decodeRecord (srec_start_line m sa) =
    Return (inr (Srec.mkHexRec (sa mod 2 ^ m) (srec_start_type m) [])).
Proof.
  unfold srec_start_line, srec_start_type.
  intros [-> | [-> | ->]]; cbn [Z.eqb Srec.Addr16 Srec.Addr24 Srec.Addr32
                                 Pos.eqb].
  - change [z2b 3] with [z2b (ovhd_of Srec.S9Start)].
    rewrite <- srec_image_nil, srec_line_decode;
      try reflexivity; try (cbn; lia).
    now rewrite be_value_16_mod.
  - change [z2b 4] with [z2b (ovhd_of Srec.S8Start)].
    rewrite <- srec_image_nil, srec_line_decode;
      try reflexivity; try (cbn; lia).
    now rewrite be_value_24_mod.
  - change [z2b 5] with [z2b (ovhd_of Srec.S7Start)].
    rewrite <- srec_image_nil, srec_line_decode;
      try reflexivity; try (cbn; lia).
    now rewrite be_value_32_mod.
Qed.

Lemma srec_count_line_shape n :
  no_newline (srec_count_line n) = true /\ (0 <? slen (srec_count_line n)) = true.
Proof.
  unfold srec_count_line. destruct (65535 <? n);
    (split; [now apply no_newline_srec_line|apply srec_line_nonempty]).
Qed.

Lemma srec_start_line_shape m sa :
  m = Srec.Addr16 \/ m = Srec.Addr24 \/ m = Srec.Addr32 ->
  no_newline (srec_start_line m sa) = true /\
  (0 <? slen (srec_start_line m sa)) = true.
Proof.
  unfold srec_start_line.
  intros [-> | [-> | ->]]; cbn [Z.eqb Srec.Addr16 Srec.Addr24 Srec.Addr32 Pos.eqb];
    (split; [now apply no_newline_srec_line|apply srec_line_nonempty]).
Qed.

Lemma srec_data_lines_decode (m : Srec.AddrMode) (recs : list (Z * list byte)) :
  m = Srec.Addr16 \/ m = Srec.Addr24 ->
  Forall (fun r => 0 <= fst r < 2 ^ m /\ len (snd r) <= 10) recs ->
  Forall2 (fun l r => no_newline l = true /\ (0 <? slen l) = true /\
                      Srec.decodeRecord l = Return (inr r))
          (map (fun r => srec_dataLine m (fst r) (snd r)) recs)
          (map (srec_data_rec (srec_data_type m)) recs).
Proof.
  intros Hm. induction recs as [|r recs IH]; intros F; [constructor|].
  apply Forall_cons_iff in F. destruct F as [[R1 R2] F].
  cbn [map]. constructor; [|now apply IH].
  split; [apply no_newline_dataLine|]. split; [apply dataLine_nonempty|].
  destruct Hm as [-> | ->].
  - apply srec_decode_dataLine_16; [exact R1|lia].
  - apply srec_decode_dataLine_24; [exact R1|lia].
Qed.

Lemma srec_preferred (m : Srec.AddrMode) (pre post : list Srec.HexRec)
      (recs : list (Z * list byte)) :
  m = Srec.Addr16 \/ m = Srec.Addr24 ->
  recs <> [] ->
  Forall (fun r => Srec.isData (Srec.RecordType r) = false) pre ->
  Forall (fun r => Srec.isData (Srec.RecordType r) = false) post ->
  Srec.preferredDataRecType
    (pre ++ map (srec_data_rec (srec_data_type m)) recs ++ post) =
  srec_data_type m.
Proof.
  intros Hm Hne Hpre Hpost.
  set (l := pre ++ map (srec_data_rec (srec_data_type m)) recs ++ post).
  assert (T : Forall (fun r => Srec.isData (Srec.RecordType r) = true ->
                               Srec.RecordType r = srec_data_type m) l).
  { unfold l. rewrite !Forall_app. repeat split.
    - revert Hpre. apply Forall_impl. congruence.
    - apply Forall_map. apply Forall_forall. reflexivity.
    - revert Hpost. apply Forall_impl. congruence. }
  assert (D : Srec.isData (srec_data_type m) = true)
    by (destruct Hm as [-> | ->]; reflexivity).
  destruct (srec_preferred_again (srec_data_type m) l D T) as [E|N]; [exact E|].
  exfalso. unfold l in N. rewrite !Forall_app in N. destruct N as (_ & N & _).
  destruct recs as [|r recs]; [congruence|].
  cbn [map] in N. apply Forall_cons_iff in N. destruct N as [N _].
  cbn [srec_data_rec Srec.RecordType] in N. congruence.
Qed.

(** X24.  Round trip of a whole S-record file in the 16-bit and 24-bit
    modes: a new writer given an address, a start address, the count
    option and a header (a slice that is not nil, of up to 252 bytes),
    then one Write of a payload that ends at or below 2^16 or 2^24, then
    Close, leaves in an in-memory sink a text that ReadFile reads without
    error; coalesced, the records are the S0 record with the header, the
    payload as one S1 or S2 record at the address (none for the empty
    payload), the count record (S5, or S6 above 65535) with the number of
    data records written, which is the payload length over 10 rounded up,
    and the start record (S9 or S8) with the start address modulo 2^16 or
    2^24. *)
Theorem srec_file_roundtrip (g : nat -> nat -> nat -> nat) (m : Srec.AddrMode)
        (a sa : Z) (h p : list byte) :
  m = Srec.Addr16 \/ m = Srec.Addr24 ->
  0 <= a -> a + len p <= 2 ^ m -> len h <= 252 ->
  exists text recs,
    srec_encode_file (S (List.length p)) m a sa h p = Some text /\
    Srec.ReadFile (inr text) = Return (recs, None) /\
    Srec.CoalesceDataRecs g recs =
      [Srec.mkHexRec 0 Srec.S0Header h] ++
      srec_jumbo a (srec_data_type m) p ++
      [Srec.mkHexRec ((len p + 9) / 10) (srec_count_type ((len p + 9) / 10)) [];
       Srec.mkHexRec (sa mod 2 ^ m) (srec_start_type m) []].
Proof.
  intros Hm Ha Hb Hh.
  pose proof (len_nonneg p) as Np.
  assert (B : 2 ^ m <= 16777216) by (destruct Hm as [-> | ->]; cbn; lia).
  set (n := (len p + 9) / 10).
  assert (Rn : 0 <= n < 16777216).
  { unfold n. split; [apply Z.div_pos; lia|].
    apply Z.div_lt_upper_bound; lia. }
  assert (Dt : Srec.isData (srec_data_type m) = true)
    by (destruct Hm as [-> | ->]; reflexivity).
  destruct (srec_all_records_facts 10 a p (srec_data_type m)
              ltac:(lia) Ha ltac:(lia) Dt) as (C & F & Ch).
  set (rs := srec_all_records 10 a p) in *.
  set (hdr := Srec.mkHexRec 0 Srec.S0Header h).
  set (cnt := Srec.mkHexRec n (srec_count_type n) []).
  set (sta := Srec.mkHexRec (sa mod 2 ^ m) (srec_start_type m) []).
  exists (unlines ([srec_header_line h] ++
                   map (fun r => srec_dataLine m (fst r) (snd r)) rs ++
                   [srec_count_line n; srec_start_line m sa])).
  exists ([hdr] ++ map (srec_data_rec (srec_data_type m)) rs ++ [cnt; sta]).
  split.
  { rewrite srec_encode_file_text; [|lia|unfold len; lia].
    replace (len p + 10 - 1) with (len p + 9) by lia. fold n.
    rewrite (uint32_small n) by lia. f_equal.
    rewrite !unlines_app. unfold srec_data_text. fold rs.
    cbn [unlines fold_right]. rewrite !sapp_assoc, ?sapp_nil_r. reflexivity. }
  split.
  { unfold Srec.ReadFile, Srec.processRecords.
    apply (srec_read_lines _ _) with (acc := []).
    cbn [app]. constructor; [|apply Forall2_app].
    - split; [now apply no_newline_srec_line|].
      split; [apply srec_line_nonempty|now apply srec_header_decode].
    - apply srec_data_lines_decode; [exact Hm|].
      revert F. apply Forall_impl. intros r (R1 & R2 & R3). lia.
    - pose proof (srec_count_line_shape n) as [S1 S2].
      pose proof (srec_start_line_shape m sa ltac:(tauto)) as [S3 S4].
      constructor; [|constructor; [|constructor]].
      + split; [exact S1|]. split; [exact S2|]. now apply srec_count_decode.
      + split; [exact S3|]. split; [exact S4|].
        apply srec_start_decode. tauto. }
  assert (Npre : Forall (fun r => Srec.isData (Srec.RecordType r) = false) [hdr])
    by (repeat constructor).
  assert (Npost : Forall (fun r => Srec.isData (Srec.RecordType r) = false)
                         [cnt; sta]).
  { repeat constructor; cbn [cnt sta Srec.RecordType].
    - unfold srec_count_type. now destruct (n <=? 65535).
    - destruct Hm as [-> | ->]; reflexivity. }
  rewrite (srec_coalesce_chain_lemma g [hdr] _ [cnt; sta] a Npre Ch Npost).
  assert (Cc : List.concat (map Srec.Data (map (srec_data_rec (srec_data_type m)) rs))
               = p).
  { rewrite map_map. exact C. }
  rewrite Cc.
  destruct p as [|b p'] eqn:Ep; [reflexivity|]. rewrite <- Ep in *.
  rewrite srec_preferred; [rewrite Ep; reflexivity|exact Hm| |exact Npre|exact Npost].
  intros Hnil. rewrite Hnil in C. cbn in C. congruence.
Qed.

Lemma srec_file_roundtrip_witness :
  exists text recs,
    srec_encode_file 26 Srec.Addr16 4096 4096 [x48; x69] (repeat x5a 25) =
      Some text /\
    Srec.ReadFile (inr text) = Return (recs, None) /\
    Srec.CoalesceDataRecs go_growCap recs =
      [Srec.mkHexRec 0 Srec.S0Header [x48; x69]] ++
      srec_jumbo 4096 (srec_data_type Srec.Addr16) (repeat x5a 25) ++
      [Srec.mkHexRec ((len (repeat x5a 25) + 9) / 10)
                     (srec_count_type ((len (repeat x5a 25) + 9) / 10)) [];
       Srec.mkHexRec (4096 mod 2 ^ Srec.Addr16)
                     (srec_start_type Srec.Addr16) []].
Proof.
  apply (srec_file_roundtrip go_growCap Srec.Addr16 4096 4096 [x48; x69]
                             (repeat x5a 25)).
  - now left.
  - lia.
  - cbn; lia.
  - cbn; lia.
Defined.

(** *** What coalescing keeps *)

Section MergeFacts.

Variable T : Type.
Variable isData : T -> bool.
Variable M : Z.
Variable pt : T.

Lemma run_counts_open (a : Z) (l : nat) : run_counts M (open_run M a l).
Proof. reflexivity. Qed.

Lemma merge_head (xs : list (shape T)) :
  forall b c n,
    match merge isData M pt (Some (b, c, n)) xs with
    | y :: _ => isData (snd (fst y)) = true -> fst (fst y) = b
    | [] => True
    end.
Proof.
  induction xs as [|[[a t] l] xs IH]; intros b c n; cbn [merge].
  - cbn [flush]. destruct (Nat.ltb 0 n); [reflexivity|exact I].
  - destruct (isData t) eqn:Ht.
    + destruct (a =? c); [apply IH|reflexivity].
    + cbn [flush]. destruct (Nat.ltb 0 n); cbn [app fst snd]; [reflexivity|].
      congruence.
Qed.

Lemma separated_cons (x : shape T) (l : list (shape T)) :
  match l with y :: _ => ~ contiguous isData M x y | [] => True end ->
  separated isData M l -> separated isData M (x :: l).
Proof. destruct l; cbn [separated]; auto. Qed.

(** The records a pass returns are separated: nothing is left to merge. *)
Lemma merge_separated (xs : list (shape T)) :
  forall r, run_counts M r -> separated isData M (merge isData M pt r xs).
Proof.
  induction xs as [|[[a t] l] xs IH]; intros r Hr; cbn [merge].
  - destruct r as [[[b c] n]|]; cbn [flush]; [|exact I].
    destruct (Nat.ltb 0 n); exact I.
  - destruct (isData t) eqn:Ht.
    + destruct r as [[[b c] n]|]; [|apply IH, run_counts_open].
      destruct (Z.eqb_spec a c) as [E|N].
      * apply IH. cbn [run_counts] in *. subst c.
        now rewrite wrap_add.
      * apply separated_cons; [|apply IH, run_counts_open].
        pose proof (merge_head xs a (wrap M (a + wrap M (Z.of_nat l))) l) as H.
        unfold open_run.
        destruct (merge isData M pt _ xs) as [|y ys]; [exact I|].
        intros (_ & Dy & Ey). cbn [fst snd] in Ey.
        cbn [run_counts] in Hr. rewrite <- Hr in Ey.
        apply N. rewrite <- (H Dy). exact Ey.
    + assert (S1 : separated isData M ((a, t, l) :: merge isData M pt None xs)).
      { apply separated_cons; [|apply IH; exact I].
        destruct (merge isData M pt None xs); [exact I|].
        intros (D & _). cbn [fst snd] in D. congruence. }
      destruct r as [[[b c] n]|]; cbn [flush app]; [|exact S1].
      destruct (Nat.ltb 0 n); cbn [app]; [|exact S1].
      apply separated_cons; [|exact S1].
      intros (_ & D & _). cbn [fst snd] in D. congruence.
Qed.

(** A pass neither adds nor drops a payload byte, and returns no more
    records than it was given. *)
Lemma merge_bytes (xs : list (shape T)) :
  forall r,
    list_sum (map snd (merge isData M pt r xs)) =
    (run_bytes r + list_sum (map snd xs))%nat.
Proof.
  induction xs as [|[[a t] l] xs IH]; intros r; cbn [merge].
  - destruct r as [[[b c] n]|]; cbn [flush run_bytes]; [|reflexivity].
    destruct (Nat.ltb_spec 0 n); cbn; lia.
  - change (list_sum (map snd ((a, t, l) :: xs)))
      with (l + list_sum (map snd xs))%nat.
    destruct (isData t).
    + destruct r as [[[b c] n]|].
      * destruct (a =? c).
        -- rewrite IH. cbn [run_bytes]. lia.
        -- change (list_sum (map snd ((b, pt, n) :: ?m)))
             with (n + list_sum (map snd m))%nat.
           rewrite IH. cbn [run_bytes open_run]. lia.
      * rewrite IH. cbn [run_bytes open_run]. lia.
    + rewrite map_app, list_sum_app.
      change (list_sum (map snd ((a, t, l) :: ?m)))
        with (l + list_sum (map snd m))%nat.
      rewrite IH.
      destruct r as [[[b c] n]|]; cbn [flush run_bytes]; [|cbn; lia].
      destruct (Nat.ltb_spec 0 n); cbn; lia.
Qed.

Lemma merge_length (xs : list (shape T)) :
  forall r,
    (List.length (merge isData M pt r xs) <=
     run_records r + List.length xs)%nat.
Proof.
  induction xs as [|[[a t] l] xs IH]; intros r; cbn [merge].
  - destruct r as [[[b c] n]|]; cbn [flush run_records List.length]; [|lia].
    destruct (Nat.ltb 0 n); cbn [List.length]; lia.
  - cbn [List.length]. destruct (isData t).
    + destruct r as [[[b c] n]|].
      * destruct (a =? c).
        -- etransitivity; [apply IH|]. cbn [run_records]. lia.
        -- cbn [List.length]. specialize (IH (open_run M a l)).
           cbn [run_records open_run] in *. lia.
      * etransitivity; [apply IH|]. cbn [run_records open_run]. lia.
    + rewrite length_app. cbn [List.length]. specialize (IH None).
      cbn [run_records] in IH.
      destruct r as [[[b c] n]|]; cbn [flush run_records List.length]; [|lia].
      destruct (Nat.ltb 0 n); cbn [List.length]; lia.
Qed.

End MergeFacts.

Lemma list_sum_map_shape_ihex (l : list Ihex.HexRec) :
  list_sum (map snd (map ihex_shape l)) =
  list_sum (map (fun r => List.length (Ihex.Data_ r)) l).
Proof. now rewrite map_map. Qed.

Lemma list_sum_map_shape_srec (l : list Srec.HexRec) :
  list_sum (map snd (map srec_shape l)) =
  list_sum (map (fun r => List.length (Srec.Data r)) l).
Proof. now rewrite map_map. Qed.

(** X20.  For every input, in both packages, the payload lengths of the
    records CoalesceDataRecs returns add up to the payload lengths of the
    input records, and it returns no more records than it was given. *)
Theorem coalesce_keeps_byte_count (g : nat -> nat -> nat -> nat)
        (xi : list Ihex.HexRec) (xs : list Srec.HexRec) :
  (list_sum (map (fun r => List.length (Ihex.Data_ r)) (Ihex.CoalesceDataRecs g xi)) =
   list_sum (map (fun r => List.length (Ihex.Data_ r)) xi) /\
   List.length (Ihex.CoalesceDataRecs g xi) <= List.length xi)%nat /\
  (list_sum (map (fun r => List.length (Srec.Data r)) (Srec.CoalesceDataRecs g xs)) =
   list_sum (map (fun r => List.length (Srec.Data r)) xs) /\
   List.length (Srec.CoalesceDataRecs g xs) <= List.length xs)%nat.
Proof.
  split; split.
  - rewrite <- !list_sum_map_shape_ihex, ihex_coalesce_shape, merge_bytes.
    reflexivity.
  - rewrite <- (length_map ihex_shape (Ihex.CoalesceDataRecs g xi)),
      ihex_coalesce_shape.
    etransitivity; [apply merge_length|]. cbn [run_records].
    now rewrite length_map.
  - rewrite <- !list_sum_map_shape_srec, srec_coalesce_shape, merge_bytes.
    reflexivity.
  - rewrite <- (length_map srec_shape (Srec.CoalesceDataRecs g xs)),
      srec_coalesce_shape.
    etransitivity; [apply merge_length|]. cbn [run_records].
    now rewrite length_map.
Qed.

(** After a pass no data record continues the data record before it. *)
Lemma separated_nth {T} (isData : T -> bool) (M : Z) (l : list (shape T)) :
  separated isData M l ->
  forall i x y, nth_error l i = Some x -> nth_error l (S i) = Some y ->
                ~ contiguous isData M x y.
Proof.
  induction l as [|x0 l IH]; intros S i x y Hx Hy; [destruct i; discriminate|].
  destruct l as [|y0 l']; [destruct i; discriminate|].
  destruct S as [N S]. destruct i as [|i].
  - cbn in Hx, Hy. injection Hx as <-. injection Hy as <-. exact N.
  - apply (IH S i x y); assumption.
Qed.

(** X21.  In what CoalesceDataRecs returns, in both packages, a data
    record is never followed by a data record that starts where it ends:
    no two neighbours are left that the coalescer would merge. *)
Theorem coalesce_leaves_nothing_to_merge (g : nat -> nat -> nat -> nat)
        (xi : list Ihex.HexRec) (xs : list Srec.HexRec) :
  (forall i r1 r2,
      nth_error (Ihex.CoalesceDataRecs g xi) i = Some r1 ->
      nth_error (Ihex.CoalesceDataRecs g xi) (S i) = Some r2 ->
      Ihex.RecordType r1 = Ihex.Data -> Ihex.RecordType r2 = Ihex.Data ->
      Ihex.Address r2 <>
        Ihex.uint16 (Ihex.Address r1 + Ihex.uint16 (len (Ihex.Data_ r1)))) /\
  (forall i r1 r2,
      nth_error (Srec.CoalesceDataRecs g xs) i = Some r1 ->
      nth_error (Srec.CoalesceDataRecs g xs) (S i) = Some r2 ->
      Srec.isData (Srec.RecordType r1) = true ->
      Srec.isData (Srec.RecordType r2) = true ->
      Srec.Address r2 <>
        Srec.uint32 (Srec.Address r1 + Srec.uint32 (len (Srec.Data r1)))).
Proof.
  split; intros i r1 r2 H1 H2 T1 T2 E.
  - pose proof (merge_separated byte ihex_isData 65536 Ihex.Data
                  (map ihex_shape xi) None I) as S.
    rewrite <- (ihex_coalesce_shape g) in S.
    apply (separated_nth _ _ _ S i (ihex_shape r1) (ihex_shape r2)).
    + now rewrite nth_error_map, H1.
    + now rewrite nth_error_map, H2.
    + unfold contiguous, ihex_shape, ihex_isData. cbn [fst snd].
      rewrite T1, T2. repeat split. exact E.
  - pose proof (merge_separated Z Srec.isData 4294967296
                  (Srec.preferredDataRecType xs) (map srec_shape xs) None I) as S.
    rewrite <- (srec_coalesce_shape g) in S.
    apply (separated_nth _ _ _ S i (srec_shape r1) (srec_shape r2)).
    + now rewrite nth_error_map, H1.
    + now rewrite nth_error_map, H2.
    + unfold contiguous, srec_shape. cbn [fst snd]. repeat split; assumption.
Qed.

(** X23.  Every data record the srec CoalesceDataRecs returns has one
    type, the preferred type of the input: S3 when the input holds an S3
    record, else S2 when it holds an S2 record, else S1. A data record
    that is alone in its run is given that type as well. *)
Theorem srec_coalesce_data_types (g : nat -> nat -> nat -> nat)
        (x : list Srec.HexRec) :
  Forall (fun r => Srec.isData (Srec.RecordType r) = true ->
                   Srec.RecordType r = Srec.preferredDataRecType x)
         (Srec.CoalesceDataRecs g x).
Proof.
  apply (proj1 (Forall_map srec_shape
                  (fun s => Srec.isData (snd (fst s)) = true ->
                            snd (fst s) = Srec.preferredDataRecType x)
                  (Srec.CoalesceDataRecs g x))).
  rewrite srec_coalesce_shape. apply merge_types.
Qed.

(** *** Other records; the srec writer after [Close] and at [SetAddress] *)

Lemma ihex_others_emit h (st : Ihex.cstate) :
  filter ihex_other (map (Ihex.deref h) (Ihex.outList (Ihex.emitJumboDataRec st))) =
  filter ihex_other (map (Ihex.deref h) (Ihex.outList st)).
Proof.
  cbn [Ihex.emitJumboDataRec Ihex.outList]. rewrite map_app, filter_app.
  cbn. apply app_nil_r.
Qed.

Lemma ihex_others_start g (st : Ihex.cstate) r :
  Ihex.outList (Ihex.startGroup g st r) = Ihex.outList st.
Proof.
  unfold Ihex.startGroup. now destruct (Buffer_Write g _ _ _).
Qed.

Lemma ihex_others_step g h (st : Ihex.cstate) (r : Ihex.HexRec) :
  filter ihex_other (map (Ihex.deref h) (Ihex.outList (Ihex.step g st r))) =
  filter ihex_other (map (Ihex.deref h) (Ihex.outList st)) ++
  filter ihex_other [r].
Proof.
  unfold Ihex.step. cbn [filter]. unfold ihex_other at 3.
  destruct (Byte.eqb (Ihex.RecordType r) Ihex.Data) eqn:E; cbn [negb].
  - rewrite app_nil_r. unfold Ihex.processDataRec.
    destruct (negb (Ihex.dataRecGroup st)); [now rewrite ihex_others_start|].
    destruct (Ihex.Address r =? Ihex.addressCounter st).
    + now destruct (Buffer_Write g _ _ _).
    + rewrite ihex_others_start. cbn [Ihex.outList].
      apply (ihex_others_emit h st).
  - cbn [Ihex.outList]. rewrite map_app, filter_app. cbn [map filter Ihex.deref].
    unfold ihex_other at 2. rewrite E. cbn [negb]. f_equal.
    destruct (Nat.ltb 0 (Buffer_Len (Ihex.data st)));
      [apply ihex_others_emit|reflexivity].
Qed.

Lemma ihex_others_fold g h (l : list Ihex.HexRec) :
  forall st,
    filter ihex_other (map (Ihex.deref h)
                           (Ihex.outList (fold_left (Ihex.step g) l st))) =
    filter ihex_other (map (Ihex.deref h) (Ihex.outList st)) ++
    filter ihex_other l.
Proof.
  induction l as [|r l IH]; intros st; [cbn; now rewrite app_nil_r|].
  cbn [fold_left]. rewrite IH, ihex_others_step, <- app_assoc. f_equal.
  cbn [filter]. destruct (ihex_other r); reflexivity.
Qed.

Lemma srec_others_emit h pt (st : Srec.cstate) :
  Srec.isData pt = true ->
  filter srec_other
         (map (Srec.deref h) (Srec.outList (Srec.emitJumboDataRec st pt))) =
  filter srec_other (map (Srec.deref h) (Srec.outList st)).
Proof.
  intros Hpt. cbn [Srec.emitJumboDataRec Srec.outList].
  rewrite map_app, filter_app. cbn [map filter Srec.deref].
  unfold srec_other at 2. cbn [Srec.RecordType]. rewrite Hpt. cbn [negb].
  apply app_nil_r.
Qed.

Lemma srec_others_start g (st : Srec.cstate) r :
  Srec.outList (Srec.startGroup g st r) = Srec.outList st.
Proof.
  unfold Srec.startGroup. now destruct (Buffer_Write g _ _ _).
Qed.

Lemma srec_others_step g h pt (st : Srec.cstate) (r : Srec.HexRec) :
  Srec.isData pt = true ->
  filter srec_other (map (Srec.deref h) (Srec.outList (Srec.step g pt st r))) =
  filter srec_other (map (Srec.deref h) (Srec.outList st)) ++
  filter srec_other [r].
Proof.
  intros Hpt. unfold Srec.step. cbn [filter]. unfold srec_other at 3.
  destruct (Srec.isData (Srec.RecordType r)) eqn:E; cbn [negb].
  - rewrite app_nil_r. unfold Srec.processDataRec.
    destruct (negb (Srec.dataRecGroup st)); [now rewrite srec_others_start|].
    destruct (Srec.Address r =? Srec.addressCounter st).
    + now destruct (Buffer_Write g _ _ _).
    + rewrite srec_others_start. cbn [Srec.outList].
      apply (srec_others_emit h pt st Hpt).
  - cbn [Srec.outList]. rewrite map_app, filter_app. cbn [map filter Srec.deref].
    unfold srec_other at 2. rewrite E. cbn [negb]. f_equal.
    destruct (Nat.ltb 0 (Buffer_Len (Srec.data st)));
      [now apply srec_others_emit|reflexivity].
Qed.

Lemma srec_others_fold g h pt (l : list Srec.HexRec) :
  Srec.isData pt = true ->
  forall st,
    filter srec_other (map (Srec.deref h)
                           (Srec.outList (fold_left (Srec.step g pt) l st))) =
    filter srec_other (map (Srec.deref h) (Srec.outList st)) ++
    filter srec_other l.
Proof.
  intros Hpt. induction l as [|r l IH]; intros st; [cbn; now rewrite app_nil_r|].
  cbn [fold_left]. rewrite IH, (srec_others_step g h pt st r Hpt), <- app_assoc.
  f_equal. cbn [filter]. destruct (srec_other r); reflexivity.
Qed.

(** X22.  The records that are not data records come out of
    CoalesceDataRecs as they went in, all of them and in their order, in
    both packages. *)
Theorem coalesce_passes_other_records (g : nat -> nat -> nat -> nat)
        (xi : list Ihex.HexRec) (xs : list Srec.HexRec) :
  filter ihex_other (Ihex.CoalesceDataRecs g xi) = filter ihex_other xi /\
  filter srec_other (Srec.CoalesceDataRecs g xs) = filter srec_other xs.
Proof.
  split.
  - unfold Ihex.CoalesceDataRecs, Ihex.run.
    set (st := fold_left (Ihex.step g) xi Ihex.initial).
    destruct (Nat.ltb 0 (Buffer_Len (Ihex.data st)));
      [cbn [Ihex.mem Ihex.emitJumboDataRec]; rewrite ihex_others_emit|];
      unfold st; now rewrite ihex_others_fold.
  - unfold Srec.CoalesceDataRecs, Srec.run.
    set (pt := Srec.preferredDataRecType xs).
    assert (Hpt : Srec.isData pt = true) by apply srec_preferred_isData.
    set (st := fold_left (Srec.step g pt) xs Srec.initial).
    destruct (Nat.ltb 0 (Buffer_Len (Srec.data st)));
      [cbn [Srec.mem Srec.emitJumboDataRec];
       rewrite (srec_others_emit _ pt st Hpt)|];
      unfold st; now rewrite (srec_others_fold g _ pt xs Hpt).
Qed.

(** X25.  After Close, whatever the sink and whatever Close returned,
    Write of the srec writer returns 0 and the error Writer closed, and
    leaves the writer and its sink as they were. *)
Theorem srec_Write_after_Close {W : Type} `{IoWriter W} (fuel : nat)
        (x : Srec.Writer W) (p : list byte) :
  Srec.Write fuel (fst (Srec.Close x)) p =
    Some (Return (fst (Srec.Close x), (0, Some (ErrNew "Writer closed")))).
Proof.
  unfold Srec.Write. now rewrite srec_Close_sets_fin.
Qed.

(** X26.  SetAddress of the srec writer flushes first: in the 16-bit and
    24-bit modes, bytes that a Write shorter than the width left in the
    FIFO are written as a data record at the old address; after SetAddress
    the sink reads back as that record, the address counter is the new
    address and the FIFO is empty. *)
Theorem srec_SetAddress_flushes (fuel : nat) (m : Srec.AddrMode) (a b : Z)
        (p : list byte) :
  m = Srec.Addr16 \/ m = Srec.Addr24 ->
  0 <= a -> a + len p <= 2 ^ m -> p <> [] -> len p < 10 ->
  exists x1,
    Srec.Write fuel (Srec.SetAddress (Srec.NewWriter "" m) a) p =
      Some (Return (x1, (len p, None))) /\
    Srec.ReadFile (inr (Srec.w (Srec.SetAddress x1 b))) =
      Return ([Srec.mkHexRec a (srec_data_type m) p], None) /\
    Srec.addr (Srec.SetAddress x1 b) = b /\
    Srec.fifo (Srec.SetAddress x1 b) = [].
Proof.
  intros Hm Ha Hb Hne Hp.
  assert (Pos : 0 < len p)
    by (destruct p; [congruence|unfold len; cbn [List.length]; lia]).
  change (Srec.SetAddress (Srec.NewWriter "" m) a)
    with (Srec.mkWriter "" a 0 false [] false false 0 m 10 None false).
  unfold Srec.Write.
  cbn [Srec.fin Srec.header]. unfold Srec.set_fifo.
  cbn [Srec.fin Srec.header Srec.headerEmitted Srec.w Srec.addr Srec.count
       Srec.fifo Srec.emitCountRec Srec.emitStartRec Srec.startAddr
       Srec.addrMode Srec.width app].
  eexists. split.
  - destruct fuel; cbn [Srec.Write_loop Srec.width Srec.fifo];
      replace (10 <=? len p) with false by (symmetry; apply Z.leb_gt; lia);
      reflexivity.
  - unfold Srec.SetAddress, Srec.Flush. cbn [Srec.fifo].
    replace (0 <? len p) with true by (symmetry; apply Z.ltb_lt; lia).
    rewrite srec_emitDataRecord_mem. unfold Srec.set_fifo.
    cbn [fst Srec.fin Srec.header Srec.headerEmitted Srec.w Srec.addr Srec.count
         Srec.fifo Srec.emitCountRec Srec.emitStartRec Srec.startAddr
         Srec.addrMode Srec.width append].
    split; [|split; reflexivity].
    unfold Srec.ReadFile, Srec.processRecords.
    change (srec_dataLine m a p ++ nl)%string
      with (unlines [srec_dataLine m a p]).
    apply (srec_read_lines _ _) with (acc := []).
    apply (srec_data_lines_decode m [(a, p)] Hm).
    constructor; [|constructor]. cbn [fst snd].
    assert (2 ^ m <= 16777216) by (destruct Hm as [-> | ->]; cbn; lia). lia.
Qed.

Lemma srec_SetAddress_flushes_witness :
  exists x1,
    Srec.Write 1 (Srec.SetAddress (Srec.NewWriter "" Srec.Addr16) 256)
               [x01; x02; x03] =
      Some (Return (x1, (len [x01; x02; x03], None))) /\
    Srec.ReadFile (inr (Srec.w (Srec.SetAddress x1 4096))) =
      Return ([Srec.mkHexRec 256 (srec_data_type Srec.Addr16) [x01; x02; x03]],
              None) /\
    Srec.addr (Srec.SetAddress x1 4096) = 4096 /\
    Srec.fifo (Srec.SetAddress x1 4096) = [].
Proof.
  apply (srec_SetAddress_flushes 1 Srec.Addr16 256 4096 [x01; x02; x03]).
  - now left.
  - lia.
  - cbn; lia.
  - discriminate.
  - cbn; lia.
Defined.

(** *** The writer without FIFO *)

Lemma ihexmain_emitDataRecord_mem (x : IhexMain.Writer string) (p : list byte) :
  IhexMain.emitDataRecord x p =
  (IhexMain.mkWriter
     (IhexMain.w x ++ ihex_line (IhexMain.addr x) Ihex.Data p ++ nl)%string
     (IhexMain.width x)
     (Ihex.uint16 (IhexMain.addr x + Ihex.uint16 (len p))), None).
Proof. reflexivity. Qed.

Lemma ihex_all_records_step (wd a : Z) (b : list byte) :
  1 <= wd -> wd <= len b ->
  ihex_all_records wd a b =
  (a, firstn (Z.to_nat wd) b)
    :: ihex_all_records wd (Ihex.uint16 (a + Ihex.uint16 wd))
                        (skipn (Z.to_nat wd) b).
Proof.
  intros Hw Hb. unfold ihex_all_records.
  assert (Ls : len (skipn (Z.to_nat wd) b) = len b - wd)
    by (unfold len in *; rewrite length_skipn; lia).
  rewrite Ls.
  assert (J : len b / wd = 1 + (len b - wd) / wd).
  { replace (len b) with ((len b - wd) + 1 * wd) at 1 by lia.
    rewrite Z.div_add by lia. lia. }
  set (j' := (len b - wd) / wd) in *.
  assert (Nj : 0 <= j') by (apply Z.div_pos; lia).
  rewrite J. replace (Z.to_nat (1 + j')) with (S (Z.to_nat j')) by lia.
  cbn [ihex_records app]. rewrite skipn_skipn_add, uint16_step.
  replace (Z.to_nat wd + Z.to_nat (wd * j'))%nat
    with (Z.to_nat (wd * (1 + j'))) by nia.
  reflexivity.
Qed.

Lemma ihex_all_records_runt (wd a : Z) (b : list byte) :
  0 <= a < 65536 -> 0 < len b < wd ->
  ihex_all_records wd a b = [(a, b)].
Proof.
  intros Ha Hb. unfold ihex_all_records.
  rewrite Z.div_small, Z.mul_0_r, Z.add_0_r by lia.
  cbn [Z.to_nat ihex_records skipn app].
  replace (0 <? len b) with true by (symmetry; apply Z.ltb_lt; lia).
  unfold Ihex.uint16. now rewrite Z.mod_small by lia.
Qed.

Lemma ihex_all_records_nil (wd a : Z) : ihex_all_records wd a [] = [].
Proof.
  unfold ihex_all_records. change (len []) with 0.
  rewrite Zdiv_0_l, Z.mul_0_r. reflexivity.
Qed.

Lemma uint16_add_l (a b : Z) :
  Ihex.uint16 (Ihex.uint16 a + b) = Ihex.uint16 (a + b).
Proof. unfold Ihex.uint16. apply Zplus_mod_idemp_l. Qed.

Lemma uint16_add_r (a b : Z) :
  Ihex.uint16 (a + Ihex.uint16 b) = Ihex.uint16 (a + b).
Proof. unfold Ihex.uint16. apply Zplus_mod_idemp_r. Qed.

Lemma uint16_add_mid (a w r : Z) :
  Ihex.uint16 (a + Ihex.uint16 w + r) = Ihex.uint16 (a + w + r).
Proof.
  unfold Ihex.uint16.
  replace (a + w mod 65536 + r) with (w mod 65536 + (a + r)) by lia.
  rewrite Zplus_mod_idemp_l. f_equal. lia.
Qed.

(** The loop of the draft's [Write] on an in-memory sink. *)
Lemma ihexmain_Write_loop_mem (fuel : nat) :
  forall (x : IhexMain.Writer string) (b : list byte) (c : Z),
    1 <= IhexMain.width x ->
    len b < Z.of_nat fuel ->
    0 <= IhexMain.addr x < 65536 ->
    IhexMain.Write_loop fuel x b c =
    Some (Return
            (IhexMain.mkWriter
               (IhexMain.w x ++
                ihex_text (ihex_all_records (IhexMain.width x)
                                            (IhexMain.addr x) b))%string
               (IhexMain.width x)
               (Ihex.uint16 (IhexMain.addr x + len b)),
             (c + len b, None))).
Proof.
  induction fuel as [|k IH]; intros x b c Hw Hf Ha.
  - pose proof (len_nonneg b). lia.
  - cbn [IhexMain.Write_loop]. pose proof (len_nonneg b) as Nb.
    destruct (Z.ltb_spec 0 (len b)) as [Pos|Zero].
    + destruct (Z.leb_spec (IhexMain.width x) (len b)) as [Full|Runt].
      * replace (IhexMain.width x <? 0) with false
          by (symmetry; apply Z.ltb_ge; lia).
        rewrite ihexmain_emitDataRecord_mem.
        assert (Lf : len (firstn (Z.to_nat (IhexMain.width x)) b) =
                     IhexMain.width x)
          by (unfold len in *; rewrite length_firstn; lia).
        assert (Ls : len (skipn (Z.to_nat (IhexMain.width x)) b) =
                     len b - IhexMain.width x)
          by (unfold len in *; rewrite length_skipn; lia).
        rewrite Lf.
        rewrite IH; cbn [IhexMain.w IhexMain.width IhexMain.addr];
          [|exact Hw|rewrite Ls; lia|apply uint16_range].
        rewrite (ihex_all_records_step _ _ b Hw Full), Ls.
        unfold ihex_text. cbn [map unlines fold_right fst snd].
        rewrite !sapp_assoc, uint16_add_l, uint16_add_r, uint16_add_mid.
        replace (IhexMain.addr x + IhexMain.width x +
                 (len b - IhexMain.width x)) with (IhexMain.addr x + len b)
          by lia.
        replace (c + IhexMain.width x + (len b - IhexMain.width x))
          with (c + len b) by lia.
        reflexivity.
      * rewrite ihexmain_emitDataRecord_mem.
        rewrite (ihex_all_records_runt (IhexMain.width x) (IhexMain.addr x) b Ha
                   ltac:(lia)).
        destruct k; cbn [IhexMain.Write_loop len List.length Z.of_nat Z.ltb
                          Z.compare];
          unfold ihex_text; cbn [map unlines fold_right fst snd];
          rewrite sapp_nil_r, uint16_add_r; reflexivity.
    + assert (b = []) by (destruct b; [reflexivity|unfold len in *; cbn in *; lia]).
      subst b. rewrite ihex_all_records_nil. unfold ihex_text.
      cbn [map unlines fold_right]. rewrite sapp_nil_r.
      change (len []) with 0. rewrite !Z.add_0_r.
      unfold Ihex.uint16. rewrite Z.mod_small by lia. destruct x; reflexivity.
Qed.

Lemma ihex_Write_Flush_text (fuel : nat) (wd a : Z) (p : list byte) :
  1 <= wd -> 0 <= a < 65536 -> len p < Z.of_nat fuel ->
  exists xf,
    Ihex.Write fuel (Ihex.mkWriter "" wd a []) p =
      Some (Return (xf, (len p, None))) /\
    snd (Ihex.Flush xf) = None /\
    Ihex.w (fst (Ihex.Flush xf)) = ihex_text (ihex_all_records wd a p) /\
    Ihex.addr (fst (Ihex.Flush xf)) = Ihex.uint16 (a + len p).
Proof.
  intros Hw Ha Hf. unfold Ihex.Write.
  cbn [Ihex.w Ihex.width Ihex.addr Ihex.fifo app].
  rewrite ihex_Write_loop_mem; cbn [Ihex.w Ihex.width Ihex.addr Ihex.fifo];
    [|lia|exact Hf|exact Ha].
  cbn [append]. eexists. split; [reflexivity|].
  pose proof (len_nonneg p) as Np.
  pose proof (residue_len wd p Hw) as RL.
  pose proof (Z.div_mod (len p) wd ltac:(lia)) as DM.
  unfold ihex_all_records, Ihex.Flush. cbn [Ihex.fifo].
  set (j := len p / wd) in *.
  set (rest := skipn (Z.to_nat (wd * j)) p) in *.
  unfold ihex_text. rewrite map_app, unlines_app.
  destruct (Z.ltb_spec 0 (len rest)) as [P|P].
  - rewrite ihex_emitDataRecord_mem.
    cbn [fst snd Ihex.w Ihex.addr Ihex.width Ihex.fifo].
    split; [reflexivity|]. split.
    + cbn [map unlines fold_right fst snd]. reflexivity.
    + rewrite uint16_add_l, uint16_add_r. f_equal. lia.
  - cbn [fst snd Ihex.w Ihex.addr]. split; [reflexivity|]. split.
    + cbn [map unlines fold_right]. now rewrite sapp_nil_r.
    + pose proof (len_nonneg rest). f_equal. lia.
Qed.

(** X14.  The Write of the package-main draft, which has no FIFO and
    writes the short last record itself, leaves in an in-memory sink the
    same text, and in the writer the same address counter, as Write
    followed by Flush of the ihex package, for every width from 1, 16-bit
    address and payload; both report the length of the payload. *)
Theorem ihexmain_Write_same_records (wd a : Z) (p : list byte) :
  1 <= wd -> 0 <= a < 65536 ->
  exists xm xf,
    IhexMain.Write (S (List.length p)) (IhexMain.mkWriter "" wd a) p =
      Some (Return (xm, (len p, None))) /\
    Ihex.Write (S (List.length p)) (Ihex.mkWriter "" wd a []) p =
      Some (Return (xf, (len p, None))) /\
    snd (Ihex.Flush xf) = None /\
    IhexMain.w xm = Ihex.w (fst (Ihex.Flush xf)) /\
    IhexMain.addr xm = Ihex.addr (fst (Ihex.Flush xf)).
Proof.
  intros Hw Ha.
  destruct (ihex_Write_Flush_text (S (List.length p)) wd a p Hw Ha)
    as (xf & W & F & T & A); [unfold len; lia|].
  eexists. exists xf. split.
  - unfold IhexMain.Write.
    rewrite ihexmain_Write_loop_mem;
      cbn [IhexMain.w IhexMain.width IhexMain.addr];
      [reflexivity|exact Hw|unfold len; lia|exact Ha].
  - cbn [IhexMain.w IhexMain.addr append]. rewrite T, A. auto.
Qed.

Lemma ihexmain_Write_same_records_witness :
  exists xm xf,
    IhexMain.Write 38 (IhexMain.mkWriter "" 16 256) (repeat x41 37) =
      Some (Return (xm, (len (repeat x41 37), None))) /\
    Ihex.Write 38 (Ihex.mkWriter "" 16 256 []) (repeat x41 37) =
      Some (Return (xf, (len (repeat x41 37), None))) /\
    snd (Ihex.Flush xf) = None /\
    IhexMain.w xm = Ihex.w (fst (Ihex.Flush xf)) /\
    IhexMain.addr xm = Ihex.addr (fst (Ihex.Flush xf)).
Proof.
  apply (ihexmain_Write_same_records 16 256 (repeat x41 37)); lia.
Defined.

(** *** When the readers panic *)

Lemma ihex_ReadFile_loop_panics (lines : list string) :
  forall acc,
    Ihex.ReadFile_loop lines acc = Panicked <->
    exists pre m post,
      lines = pre ++ [String m ""] ++ post /\ Forall ihex_line_passes pre.
Proof.
  induction lines as [|l rest IH]; intros acc; cbn [Ihex.ReadFile_loop].
  - split; [discriminate|]. intros (pre & m & post & E & _).
    destruct pre; discriminate.
  - rewrite slen_pos_eqb.
    destruct (String.eqb_spec l "") as [->|Ne]; cbn [negb].
    + rewrite IH. split.
      * intros (pre & m & post & -> & F). exists ("" :: pre), m, post.
        split; [reflexivity|]. constructor; [now left|exact F].
      * intros (pre & m & post & E & F). destruct pre as [|p pre].
        -- discriminate.
        -- injection E as _ E. apply Forall_cons_iff in F.
           exists pre, m, post. now split.
    + destruct (Ihex.decodeRecord l) as [[e|r]|] eqn:D.
      * split; [discriminate|]. intros (pre & m & post & E & F).
        destruct pre as [|p pre].
        -- injection E as -> _. discriminate.
        -- injection E as -> _. apply Forall_cons_iff in F.
           destruct F as [[->|(r & R)] _]; [now elim Ne|congruence].
      * rewrite IH. split.
        -- intros (pre & m & post & -> & F). exists (l :: pre), m, post.
           split; [reflexivity|]. constructor; [|exact F]. right. now exists r.
        -- intros (pre & m & post & E & F). destruct pre as [|p pre].
           ++ injection E as -> _. discriminate.
           ++ injection E as _ E. apply Forall_cons_iff in F.
              exists pre, m, post. now split.
      * split; [|reflexivity]. intros _.
        apply ihex_decodeRecord_panics_iff in D. destruct D as (m & ->).
        exists [], m, rest. split; [reflexivity|constructor].
Qed.

Lemma srec_processRecords_loop_returns (lines : list string) :
  forall acc, Srec.processRecords_loop lines acc <> Panicked.
Proof.
  induction lines as [|l rest IH]; intros acc; cbn [Srec.processRecords_loop].
  - discriminate.
  - destruct (0 <? slen l); [|apply IH].
    destruct (srec_decodeRecord_returns l) as ([e|r] & ->);
      [discriminate|apply IH].
Qed.

(** X27.  ReadFile of the ihex package panics exactly when the file was
    read and, after lines that are empty or decode to a record, it comes
    to a line of one character; ReadFile of the srec package never panics. *)
Theorem ReadFile_panics_exactly (file : error + string) :
  (Ihex.ReadFile file = Panicked <->
   exists text pre m post,
     file = inr text /\
     split_lines text = pre ++ [String m ""] ++ post /\
     Forall ihex_line_passes pre) /\
  Srec.ReadFile file <> Panicked.
Proof.
  split.
  - destruct file as [e|text]; cbn [Ihex.ReadFile].
    + split; [discriminate|]. intros (t & _ & _ & _ & E & _). discriminate.
    + rewrite ihex_ReadFile_loop_panics. split.
      * intros (pre & m & post & E & F). now exists text, pre, m, post.
      * intros (t & pre & m & post & E & S & F). injection E as <-.
        now exists pre, m, post.
  - destruct file as [e|text]; cbn [Srec.ReadFile]; [discriminate|].
    apply srec_processRecords_loop_returns.
Qed.

(** X3.  The ihex decoder returns a record for a line exactly when the hex
    digits after the first character of the line give the count byte, the
    address in two bytes (high byte first), the type byte, as many payload
    bytes as the count says, any number of further bytes, and the checksum
    of all these bytes; the record then holds that address, type and
    payload. So the first character is not looked at, the type byte is not
    checked, and bytes between the payload and the checksum are accepted
    and dropped. *)
Theorem ihex_decodeRecord_accepts_exactly (m : ascii) (s : string)
        (rec : Ihex.HexRec) :
  Ihex.decodeRecord (String m s) = Return (inr rec) <->
  (0 <= Ihex.Address rec < 65536 /\ len (Ihex.Data_ rec) <= 255 /\
   exists extra,
     hex_DecodeString s =
       inr ((ihex_image (Ihex.Address rec) (Ihex.RecordType rec)
                        (Ihex.Data_ rec) ++ extra) ++
            [Ihex.calcChecksum
               (ihex_image (Ihex.Address rec) (Ihex.RecordType rec)
                           (Ihex.Data_ rec) ++ extra)])).
Proof.
  split.
  - apply ihex_decode_sound.
  - intros (Ha & Hd & extra & D). destruct rec as [a t d].
    cbn [Ihex.Address Ihex.RecordType Ihex.Data_] in *.
    exact (ihex_decode_accepts m s a t d extra Ha Hd D).
Qed.

(** X4.  The srec decoder returns a record for a line exactly when the
    line has two header characters followed by hex digits that give the
    count byte, the address bytes of the record type (two, three or four,
    high byte first), the payload and the checksum of these bytes, where
    the count is the number of address, payload and checksum bytes. The
    record holds the type the type map gives for the header (S0 for a
    header that is not in the map), the address and the payload. *)
Theorem srec_decodeRecord_accepts_exactly (r : string) (rec : Srec.HexRec) :
  Srec.decodeRecord r = Return (inr rec) <->
  exists t1 t2 s ab,
    r = String t1 (String t2 s) /\
    Srec.RecordType rec =
      Srec.strmap_index Srec.srecTypeMap (String t1 (String t2 "")) /\
    len ab = ovhd_of (Srec.RecordType rec) - 1 /\
    Srec.Address rec = be_value ab 0 /\
    len (Srec.Data rec) + ovhd_of (Srec.RecordType rec) <= 255 /\
    hex_DecodeString s =
      inr (srec_image (Srec.RecordType rec) ab (Srec.Data rec) ++
           [Srec.calcChecksum
              (srec_image (Srec.RecordType rec) ab (Srec.Data rec))]).
Proof.
  split.
  - apply srec_decode_sound.
  - intros (t1 & t2 & s & ab & -> & Et & La & Ea & Lp & D).
    destruct rec as [a t p].
    cbn [Srec.Address Srec.RecordType Srec.Data] in *. subst a t.
    now apply srec_decode_accepts.
Qed.

(** X18.  A run of ihex data records in which each record starts where the
    one before ended (in 16-bit arithmetic, so a run may go on from 0xFFFF
    to 0), with records of other types before and after it, is coalesced
    to one data record at the address of the first record, holding the
    payloads in order, or to no record when all payloads are empty; the
    records before and after stay as they are. *)
Theorem ihex_coalesce_chain (g : nat -> nat -> nat -> nat)
        (pre recs post : list Ihex.HexRec) (a : Z) :
  Forall (fun r => Ihex.RecordType r <> Ihex.Data) pre ->
  ihex_chain a recs ->
  Forall (fun r => Ihex.RecordType r <> Ihex.Data) post ->
  Ihex.CoalesceDataRecs g (pre ++ recs ++ post) =
  pre ++ ihex_jumbo a (List.concat (map Ihex.Data_ recs)) ++ post.
Proof.
  intros Hpre Hc Hpost. now apply ihex_coalesce_chain_lemma.
Qed.

Lemma ihex_coalesce_chain_witness :
  Ihex.CoalesceDataRecs go_growCap
    ([Ihex.mkHexRec 0 Ihex.ExtLinAddr [x00; x01]] ++
     [Ihex.mkHexRec 65534 Ihex.Data [x0a; x0b];
      Ihex.mkHexRec 0 Ihex.Data [x0c];
      Ihex.mkHexRec 1 Ihex.Data [x0d; x0e]] ++
     [Ihex.mkHexRec 0 Ihex.EndOfFile []]) =
  [Ihex.mkHexRec 0 Ihex.ExtLinAddr [x00; x01]] ++
  ihex_jumbo 65534
    (List.concat
       (map Ihex.Data_
            [Ihex.mkHexRec 65534 Ihex.Data [x0a; x0b];
             Ihex.mkHexRec 0 Ihex.Data [x0c];
             Ihex.mkHexRec 1 Ihex.Data [x0d; x0e]])) ++
  [Ihex.mkHexRec 0 Ihex.EndOfFile []].
Proof.
  apply (ihex_coalesce_chain go_growCap).
  - repeat constructor; discriminate.
  - simpl. repeat split; reflexivity.
  - repeat constructor; discriminate.
Defined.

(** X19.  A run of S-record data records (S1, S2, S3 in any mix) in which
    each record starts where the one before ended (in 32-bit arithmetic),
    with records of other types before and after it, is coalesced to one
    data record at the address of the first record, of the preferred type
    of the whole input, holding the payloads in order, or to no record
    when all payloads are empty; the records before and after stay as they
    are. *)
Theorem srec_coalesce_chain (g : nat -> nat -> nat -> nat)
        (pre recs post : list Srec.HexRec) (a : Z) :
  Forall (fun r => Srec.isData (Srec.RecordType r) = false) pre ->
  srec_chain a recs ->
  Forall (fun r => Srec.isData (Srec.RecordType r) = false) post ->
  Srec.CoalesceDataRecs g (pre ++ recs ++ post) =
  pre ++ srec_jumbo a (Srec.preferredDataRecType (pre ++ recs ++ post))
                    (List.concat (map Srec.Data recs)) ++ post.
Proof.
  intros Hpre Hc Hpost. now apply srec_coalesce_chain_lemma.
Qed.

Lemma srec_coalesce_chain_witness :
  Srec.CoalesceDataRecs go_growCap
    ([Srec.mkHexRec 0 Srec.S0Header [x48; x44]] ++
     [Srec.mkHexRec 4096 Srec.S1Data [x0a; x0b];
      Srec.mkHexRec 4098 Srec.S2Data [x0c];
      Srec.mkHexRec 4099 Srec.S1Data [x0d; x0e]] ++
     [Srec.mkHexRec 256 Srec.S9Start []]) =
  [Srec.mkHexRec 0 Srec.S0Header [x48; x44]] ++
  srec_jumbo 4096
    (Srec.preferredDataRecType
       ([Srec.mkHexRec 0 Srec.S0Header [x48; x44]] ++
        [Srec.mkHexRec 4096 Srec.S1Data [x0a; x0b];
         Srec.mkHexRec 4098 Srec.S2Data [x0c];
         Srec.mkHexRec 4099 Srec.S1Data [x0d; x0e]] ++
        [Srec.mkHexRec 256 Srec.S9Start []]))
    (List.concat
       (map Srec.Data
            [Srec.mkHexRec 4096 Srec.S1Data [x0a; x0b];
             Srec.mkHexRec 4098 Srec.S2Data [x0c];
             Srec.mkHexRec 4099 Srec.S1Data [x0d; x0e]])) ++
  [Srec.mkHexRec 256 Srec.S9Start []].
Proof.
  apply (srec_coalesce_chain go_growCap).
  - repeat constructor.
  - simpl. repeat split; reflexivity.
  - repeat constructor.
Defined.
